(** * Port-knocking engine: tracker, listeners and client

    A shallow embedding of the three Go programs of the repository
    (the hit-count server, the single-hit server and the knock client)
    together with the properties of the tracker state machine. *)

From Stdlib Require Import ZArith.
From stdpp Require Import base gmap strings list fin_maps.

Local Open Scope Z_scope.

(** ** Go machine integers

    Go's [int] is taken at its 64-bit width (the width of the amd64 and
    arm64 targets).  Arithmetic on [int] wraps around silently. *)

Module GoInt.

Definition int_min : Z := - 2 ^ 63.
Definition int_max : Z := 2 ^ 63 - 1.

(** The value of a mathematical result once stored in an [int]. *)
Definition wrap (z : Z) : Z := (z + 2 ^ 63) mod 2 ^ 64 - 2 ^ 63.

Definition is_int (z : Z) : Prop := int_min <= z <= int_max.

(** [len(s)] of a slice, as an [int]. *)
Definition len {A} (s : list A) : Z := Z.of_nat (length s).

(** [s[i]] with an [int] index: [None] is the run-time panic
    "index out of range". *)
Definition index {A} (s : list A) (i : Z) : option A :=
  if decide (i < 0) then None else s !! Z.to_nat i.

End GoInt.

Import GoInt.

(** ** Go time

    A [time.Time] is the number of nanoseconds since the zero [Time]
    (the value of [time.Time{}]); a [time.Duration] is a 64-bit count of
    nanoseconds.  [Time.Sub] saturates at the extreme durations. *)

Abbreviation Time := Z (only parsing).
Abbreviation Duration := Z (only parsing).

Definition minDuration : Duration := - 2 ^ 63.
Definition maxDuration : Duration := 2 ^ 63 - 1.
Definition Second : Duration := 1000000000.
Definition Millisecond : Duration := 1000000.

Definition Sub (t u : Time) : Duration :=
  if decide (t - u < minDuration) then minDuration
  else if decide (maxDuration < t - u) then maxDuration
  else t - u.

(** [time.Since(t)] when the clock reads [now]. *)
Definition Since (now t : Time) : Duration := Sub now t.

(** ** The hit-count server

    [processKnock] of the server whose steps carry a repeat count.  The
    package variables [knockSequence] and [timeout] are parameters of the
    section; the two clock readings a call can take ([time.Since] in the
    expiry test, [time.Now] when the knock is stamped) are arguments.  The
    tracker map [clients] is threaded explicitly; a result of [None] is a
    run-time panic. *)

Module HitCount.

Record KnockStep := { Port : Z; Count : Z }.

Record ClientState := { StepIndex : Z; HitCount : Z; LastKnock : Time }.

(** [&ClientState{}] *)
Definition zeroState : ClientState :=
  {| StepIndex := 0; HitCount := 0; LastKnock := 0 |}.

(** What a call writes to the log and to standard output. *)
Inductive Event :=
| LogKnockOK (ip : string) (port hit count step total : Z)
| LogAccessGranted (ip : string)
| PrintOK
| LogInvalidKnock (ip : string) (port expected : Z).

(** The configuration compiled into the program. *)
Definition knockSequence : list KnockStep :=
  [ {| Port := 7001; Count := 3 |};
    {| Port := 8002; Count := 1 |};
    {| Port := 9003; Count := 2 |} ].

Definition timeout : Duration := 1 * Second.

Section Tracker.

Variable knockSequence : list KnockStep.
Variable timeout : Duration.

(** [state, ok := clients[ip]] followed by the reset of a new or timed-out
    client.  The returned state is the one [state] points to, the returned
    map is [clients] after the possible store. *)
Definition lookupOrReset (tSince : Time) (ip : string)
    (clients : gmap string ClientState)
  : ClientState * gmap string ClientState :=
  match clients !! ip with
  | Some state =>
      if decide (Since tSince (LastKnock state) > timeout)
      then (zeroState, <[ip := zeroState]> clients)
      else (state, clients)
  | None => (zeroState, <[ip := zeroState]> clients)
  end.

(** The rest of [processKnock].  [state] is the object held under [ip];
    its in-place updates are written back to the map when the call
    returns with the entry still present. *)
Definition advance (tNow : Time) (ip : string) (port : Z)
    (state : ClientState) (clients : gmap string ClientState)
  : option (gmap string ClientState * list Event) :=
  if decide (StepIndex state >= len knockSequence)
  then Some (delete ip clients, [])
  else
    step ← index knockSequence (StepIndex state);
    if decide (port = Port step) then
      let state1 :=
        {| StepIndex := StepIndex state;
           HitCount := wrap (HitCount state + 1);
           LastKnock := tNow |} in
      let logged :=
        [ LogKnockOK ip port (HitCount state1) (Count step)
            (wrap (StepIndex state1 + 1)) (len knockSequence) ] in
      if decide (HitCount state1 = Count step) then
        let state2 :=
          {| StepIndex := wrap (StepIndex state1 + 1);
             HitCount := 0;
             LastKnock := LastKnock state1 |} in
        if decide (StepIndex state2 = len knockSequence)
        then Some (delete ip clients, logged ++ [LogAccessGranted ip; PrintOK])
        else Some (<[ip := state2]> clients, logged)
      else Some (<[ip := state1]> clients, logged)
    else
      Some (delete ip clients, [LogInvalidKnock ip port (Port step)]).

Definition processKnock (tSince tNow : Time) (ip : string) (port : Z)
    (clients : gmap string ClientState)
  : option (gmap string ClientState * list Event) :=
  let '(state, clients1) := lookupOrReset tSince ip clients in
  advance tNow ip port state clients1.

(** One accepted connection, as [handleKnock] hands it to [processKnock],
    with the clock readings of that call. *)
Record Knock := {
  k_since : Time;
  k_now : Time;
  k_ip : string;
  k_port : Z
}.

Definition processKnock' (k : Knock) (clients : gmap string ClientState) :=
  processKnock (k_since k) (k_now k) (k_ip k) (k_port k) clients.

(** The calls of a run, one after the other under the mutex; the output
    is kept per call. *)
Fixpoint run (ks : list Knock) (clients : gmap string ClientState)
  : option (gmap string ClientState * list (list Event)) :=
  match ks with
  | [] => Some (clients, [])
  | k :: ks' =>
      '(clients1, ev) ← processKnock' k clients;
      '(clients2, evs) ← run ks' clients1;
      Some (clients2, ev :: evs)
  end.

(** [unPorts] of [server] once its first loop is over. *)
Definition unPorts : gset Z :=
  foldl (fun acc step => {[ Port step ]} ∪ acc) ∅ knockSequence.

(** [server]: [spawned] is the list of ports for which a [handleKnock]
    goroutine is started.  Go leaves the order of a range over a map
    unspecified, so any enumeration of the keys is a possible run. *)
Definition server (spawned : list Z) : Prop :=
  spawned ≡ₚ elements unPorts.

End Tracker.

(** *** Outcomes

    The names the design gives to the branches of a call, read off the
    output of the call. *)
Inductive Outcome :=
| Progressed | StepComplete | SequenceComplete | Mismatch | Dropped.

Definition outcome (ev : list Event) : option Outcome :=
  match ev with
  | [] => Some Dropped
  | [LogKnockOK _ _ hit count _ _] =>
      Some (if decide (hit = count) then StepComplete else Progressed)
  | [LogKnockOK _ _ _ _ _ _; LogAccessGranted _; PrintOK] =>
      Some SequenceComplete
  | [LogInvalidKnock _ _ _] => Some Mismatch
  | _ => None
  end.

(** The addresses a call grants access to. *)
Definition granted (ev : list Event) : list string :=
  omap (fun e => match e with LogAccessGranted ip => Some ip | _ => None end) ev.

End HitCount.

(** ** The single-hit server

    The second server of the repository: a sequence is a list of ports and
    a state only counts the ports already matched. *)

Module SingleHit.

Record ClientState := { Index : Z; LastKnock : Time }.

(** [&ClientState{}] *)
Definition zeroState : ClientState := {| Index := 0; LastKnock := 0 |}.

Inductive Event :=
| LogAccessGranted (ip : string)
| PrintOk
| LogInvalidKnock (ip : string) (port : Z).

Definition knockSequence : list Z := [7001; 8002; 9003].

Definition timeout : Duration := 5 * Second.

Section Tracker.

Variable knockSequence : list Z.
Variable timeout : Duration.

Definition lookupOrReset (tSince : Time) (ip : string)
    (clients : gmap string ClientState)
  : ClientState * gmap string ClientState :=
  match clients !! ip with
  | Some state =>
      if decide (Since tSince (LastKnock state) > timeout)
      then (zeroState, <[ip := zeroState]> clients)
      else (state, clients)
  | None => (zeroState, <[ip := zeroState]> clients)
  end.

Definition processKnock (tSince tNow : Time) (ip : string) (port : Z)
    (clients : gmap string ClientState)
  : option (gmap string ClientState * list Event) :=
  let '(state, clients1) := lookupOrReset tSince ip clients in
  expectedPort ← index knockSequence (Index state);
  if decide (port = expectedPort) then
    let state1 :=
      {| Index := wrap (Index state + 1); LastKnock := tNow |} in
    if decide (Index state1 = len knockSequence)
    then Some (delete ip clients1, [LogAccessGranted ip; PrintOk])
    else Some (<[ip := state1]> clients1, [])
  else
    Some (delete ip clients1, [LogInvalidKnock ip port]).

Fixpoint run (ks : list HitCount.Knock) (clients : gmap string ClientState)
  : option (gmap string ClientState * list (list Event)) :=
  match ks with
  | [] => Some (clients, [])
  | k :: ks' =>
      '(clients1, ev) ←
        processKnock (HitCount.k_since k) (HitCount.k_now k)
          (HitCount.k_ip k) (HitCount.k_port k) clients;
      '(clients2, evs) ← run ks' clients1;
      Some (clients2, ev :: evs)
  end.

(** [server]: the ports for which a [handleKnock] goroutine is started,
    in the order of the loop. *)
Definition server : list Z :=
  foldl (fun spawned port => spawned ++ [port]) [] knockSequence.

End Tracker.

Definition granted (ev : list Event) : list string :=
  omap (fun e => match e with LogAccessGranted ip => Some ip | _ => None end) ev.

End SingleHit.

(** ** The knock client *)

Module Client.

(** What the network answers to one [net.DialTimeout]: an error, or a
    connection whose [Close] then succeeds or fails. *)
Inductive DialResult :=
| DialError
| Connected (closeError : bool).

Inductive Action :=
| Dial (host : string) (port : Z) (limit : Duration)
| Close
| Sleep (d : Duration)
| Println (s : string).

Inductive Exit := Returned | Panicked.

Definition knock (answer : DialResult) (host : string) (port : Z)
  : list Action * Exit :=
  match answer with
  | DialError => ([Dial host port (500 * Millisecond)], Returned)
  | Connected false => ([Dial host port (500 * Millisecond); Close], Returned)
  | Connected true => ([Dial host port (500 * Millisecond); Close], Panicked)
  end.

Definition serverIP : string := "127.0.0.1".

Definition knockSeqPorts : list Z := [7001; 7001; 7001; 8002; 9003; 9003].

(** The loop of [client] from its [n]-th dial on; [net n] is the answer to
    the [n]-th dial of the run. *)
Fixpoint knockLoop (net : nat -> DialResult) (n : nat) (ports : list Z)
  : list Action * Exit :=
  match ports with
  | [] => ([], Returned)
  | port :: rest =>
      match knock (net n) serverIP port with
      | (acts, Panicked) => (acts, Panicked)
      | (acts, Returned) =>
          let '(more, exit) := knockLoop net (S n) rest in
          (acts ++ Sleep (500 * Millisecond) :: more, exit)
      end
  end.

Definition client (net : nat -> DialResult) : list Action * Exit :=
  match knockLoop net 0 knockSeqPorts with
  | (acts, Returned) => (acts ++ [Println "Port knocking send"], Returned)
  | (acts, Panicked) => (acts, Panicked)
  end.

(** The ports dialled, in order. *)
Definition attempts (acts : list Action) : list Z :=
  omap (fun a => match a with Dial _ port _ => Some port | _ => None end) acts.

(** The trace without the [Close] calls. *)
Definition withoutClose (acts : list Action) : list Action :=
  omap (fun a => match a with Close => None | _ => Some a end) acts.

End Client.

(** ** The vocabulary of the design *)

Module Design.

Import HitCount.

(** A sequence as the data model wants it: non-empty, a slice, every
    repeat count a positive [int]. *)
Definition wellFormed (S : list KnockStep) : Prop :=
  S <> [] /\ len S <= int_max /\
  Forall (fun step => 1 <= Count step <= int_max) S.

(** Knocking "the exact ports and counts of the sequence in order". *)
Definition knockPorts (S : list KnockStep) : list Z :=
  flat_map (fun step => replicate (Z.to_nat (Count step)) (Port step)) S.

(** The outcomes such a run is expected to produce. *)
Fixpoint exactTrace (S : list KnockStep) : list Outcome :=
  match S with
  | [] => []
  | step :: rest =>
      replicate (Z.to_nat (Count step) - 1) Progressed ++
      match rest with
      | [] => [SequenceComplete]
      | _ :: _ => StepComplete :: exactTrace rest
      end
  end.

(** Every knock but the first is checked within the timeout of the stamp
    of the knock before it. *)
Fixpoint timely (timeout : Duration) (ks : list Knock) : Prop :=
  match ks with
  | [] => True
  | k1 :: ks' =>
      match ks' with
      | [] => True
      | k2 :: _ => Since (k_since k2) (k_now k1) <= timeout
      end /\ timely timeout ks'
  end.

(** The invariant of a resident state. *)
Definition residentOK (S : list KnockStep) (st : ClientState) : Prop :=
  0 <= StepIndex st < len S /\
  exists step, index S (StepIndex st) = Some step /\
               0 <= HitCount st <= Count step - 1.

Definition invariant (S : list KnockStep)
    (clients : gmap string ClientState) : Prop :=
  map_Forall (fun _ st => residentOK S st) clients.

(** What a call leaves under [ip]: a state, or no entry. *)
Definition store (ip : string) (o : option ClientState)
    (clients : gmap string ClientState) : gmap string ClientState :=
  match o with
  | Some st => <[ip := st]> clients
  | None => delete ip clients
  end.

(** The reading of the guard on the step index under which a resident
    state at the end of the sequence counts as no state at all. *)
Definition stalePastEndIsAbsent (S : list KnockStep) (T : Duration) : Prop :=
  forall ts tn A port (m : gmap string ClientState) st,
    m !! A = Some st -> StepIndex st = len S ->
    processKnock S T ts tn A port m
    = processKnock S T ts tn A port (delete A m).

(** The state a call by [A] at clock reading [ts] works on: the zero
    state when [A] has no entry, the resident state when it is live. *)
Definition ready (T : Duration) (A : string) (ts : Time) (st : ClientState)
    (m : gmap string ClientState) : Prop :=
  (m !! A = None /\ st = zeroState) \/
  (m !! A = Some st /\ Since ts (LastKnock st) <= T).

(** "No run ever grants access": the reading of a step that can never
    be completed. *)
Definition neverGrants (S : list KnockStep) (T : Duration) : Prop :=
  forall ks m' evs,
    run S T ks ∅ = Some (m', evs) -> mjoin (granted <$> evs) = [].

(** A sequence of one step whose count is 0. *)
Definition zeroCountSequence (port : Z) : list KnockStep :=
  [ {| Port := port; Count := 0 |} ].

(** A knock of [A] on [port] when the clock reads [j] nanoseconds. *)
Definition knockAt (A : string) (port : Z) (j : nat) : Knock :=
  {| k_since := Z.of_nat j; k_now := Z.of_nat j; k_ip := A; k_port := port |}.

(** [n] knocks of [A] on [port], one per nanosecond from [from] on. *)
Definition flood (A : string) (port : Z) (from n : nat) : list Knock :=
  knockAt A port <$> seq from n.

(** No resident state is past step [i], and every hit count is the stored
    value of a number of hits between 0 and [n]. *)
Definition countedBelow (i : nat) (n : Z) (m : gmap string ClientState) : Prop :=
  map_Forall (fun _ st =>
                0 <= StepIndex st <= Z.of_nat i /\
                exists c, 0 <= c <= n /\ HitCount st = wrap c) m.

(** The knocks of one address among the knocks of a run. *)
Definition knocksOf (ip : string) (ks : list Knock) : list Knock :=
  filter (fun k => k_ip k = ip) ks.

(** A single-hit sequence read as a hit-count sequence: every step is to
    be hit once. *)
Definition withCountOne (ports : list Z) : list KnockStep :=
  (fun port => {| Port := port; Count := 1 |}) <$> ports.

(** A single-hit state read as a hit-count state. *)
Definition embed (st : SingleHit.ClientState) : ClientState :=
  {| StepIndex := SingleHit.Index st;
     HitCount := 0;
     LastKnock := SingleHit.LastKnock st |}.

(** The indices the single-hit server can use without a panic. *)
Definition indexInRange (ports : list Z)
    (m1 : gmap string SingleHit.ClientState) : Prop :=
  map_Forall (fun _ st => 0 <= SingleHit.Index st < len ports) m1.

(** What a call decides about an address, whatever the wording of the
    log line. *)
Inductive Decision :=
| Grant (ip : string)
| Reject (ip : string) (port : Z).

Definition decisions (ev : list Event) : list Decision :=
  omap (fun e =>
          match e with
          | LogAccessGranted ip => Some (Grant ip)
          | LogInvalidKnock ip port _ => Some (Reject ip port)
          | _ => None
          end) ev.

Definition decisions1 (ev : list SingleHit.Event) : list Decision :=
  omap (fun e =>
          match e with
          | SingleHit.LogAccessGranted ip => Some (Grant ip)
          | SingleHit.LogInvalidKnock ip port => Some (Reject ip port)
          | _ => None
          end) ev.

(** "The number and order of the attempts do not depend on how the
    connections fare": whatever the network answers, the client dials
    the ports of the configured sequence, each as often as its count. *)
Definition attemptsIndependent : Prop :=
  forall net : nat -> Client.DialResult,
    Client.attempts (fst (Client.client net)) = knockPorts knockSequence.

End Design.

(** ** The accept loops

    [handleKnock] of the two servers.  What the network hands to a turn of
    the loop is an argument: an [Accept] error, or a connection with the
    host and the error of [net.SplitHostPort] on its remote address, the
    error of its [Close], and the clock readings of the call of
    [processKnock] the turn may end with. *)

Module Listener.

Inductive Accept :=
| AcceptError
| Conn (host : string) (splitError closeError : bool) (tSince tNow : Time).

(** How a goroutine running [handleKnock] stands after some turns:
    [log.Fatalf] on a failed [net.Listen], a panic, or still in the loop
    with the tracker map and the output of each turn. *)
Inductive Served (State Out : Type) :=
| Fatal
| Panicked
| Serving (clients : State) (out : list (list Out)).

Arguments Fatal {_ _}.
Arguments Panicked {_ _}.
Arguments Serving {_ _} _ _.

Section HitCountLoop.

Variable knockSequence : list HitCount.KnockStep.
Variable timeout : Duration.

(** One turn of the loop of the hit-count [handleKnock(port)]. *)
Definition turn (port : Z) (a : Accept)
    (clients : gmap string HitCount.ClientState)
  : option (gmap string HitCount.ClientState * list HitCount.Event) :=
  match a with
  | AcceptError => Some (clients, [])
  | Conn host splitError closeError tSince tNow =>
      if splitError then
        if closeError then None else Some (clients, [])
      else if closeError then None
      else HitCount.processKnock knockSequence timeout tSince tNow
             host port clients
  end.

Fixpoint loop (port : Z) (accepts : list Accept)
    (clients : gmap string HitCount.ClientState)
  : option (gmap string HitCount.ClientState * list (list HitCount.Event)) :=
  match accepts with
  | [] => Some (clients, [])
  | a :: rest =>
      '(clients1, out) ← turn port a clients;
      '(clients2, outs) ← loop port rest clients1;
      Some (clients2, out :: outs)
  end.

Definition handleKnock (port : Z) (listenError : bool)
    (accepts : list Accept) (clients : gmap string HitCount.ClientState)
  : Served (gmap string HitCount.ClientState) HitCount.Event :=
  if listenError then Fatal
  else match loop port accepts clients with
       | Some (clients', outs) => Serving clients' outs
       | None => Panicked
       end.

(** The turns of all the listeners of the server, each with the port of
    its listener, in the order in which they run: the calls of
    [processKnock] are serialised by the mutex, and nothing else in a turn
    touches the tracker map. *)
Fixpoint serve (turns : list (Z * Accept))
    (clients : gmap string HitCount.ClientState)
  : option (gmap string HitCount.ClientState * list (list HitCount.Event)) :=
  match turns with
  | [] => Some (clients, [])
  | (port, a) :: rest =>
      '(clients1, out) ← turn port a clients;
      '(clients2, outs) ← serve rest clients1;
      Some (clients2, out :: outs)
  end.

End HitCountLoop.

Section SingleHitLoop.

Variable knockSequence : list Z.
Variable timeout : Duration.

(** One turn of the loop of the single-hit [handleKnock(port)]: the error
    of [net.SplitHostPort] is dropped and the host it returned is used. *)
Definition turn1 (port : Z) (a : Accept)
    (clients : gmap string SingleHit.ClientState)
  : option (gmap string SingleHit.ClientState * list SingleHit.Event) :=
  match a with
  | AcceptError => Some (clients, [])
  | Conn host splitError closeError tSince tNow =>
      if closeError then None
      else SingleHit.processKnock knockSequence timeout tSince tNow
             host port clients
  end.

Fixpoint serve1 (turns : list (Z * Accept))
    (clients : gmap string SingleHit.ClientState)
  : option (gmap string SingleHit.ClientState * list (list SingleHit.Event)) :=
  match turns with
  | [] => Some (clients, [])
  | (port, a) :: rest =>
      '(clients1, out) ← turn1 port a clients;
      '(clients2, outs) ← serve1 rest clients1;
      Some (clients2, out :: outs)
  end.

End SingleHitLoop.

(** The knock a turn hands to the hit-count [processKnock], if any. *)
Definition forwarded (t : Z * Accept) : option HitCount.Knock :=
  match t.2 with
  | Conn host false false tSince tNow =>
      Some {| HitCount.k_since := tSince; HitCount.k_now := tNow;
              HitCount.k_ip := host; HitCount.k_port := t.1 |}
  | _ => None
  end.

(** The knock a turn hands to the single-hit [processKnock], if any. *)
Definition forwarded1 (t : Z * Accept) : option HitCount.Knock :=
  match t.2 with
  | Conn host _ false tSince tNow =>
      Some {| HitCount.k_since := tSince; HitCount.k_now := tNow;
              HitCount.k_ip := host; HitCount.k_port := t.1 |}
  | _ => None
  end.

(** The result of a run with the outputs of its calls put end to end. *)
Definition flatLog {State Out : Type} (r : State * list (list Out))
  : State * list Out :=
  (r.1, concat r.2).

(** A turn whose [Close] fails. *)
Definition closeFails (t : Z * Accept) : bool :=
  match t.2 with
  | Conn _ _ closeError _ _ => closeError
  | AcceptError => false
  end.

End Listener.

(** ** The error values of package [errs]

    A Go [error] is a domain error ([*Error]), a collection
    ([*ErrCollection]) or an error of another package, with what its
    [Unwrap] returns.  A [map[string]any] is a reference: the details of
    an error are an address in a heap of maps, so that the copies of an
    error made by the [With...] methods share them as they do in Go.  The
    text [Error()] returns is left to a parameter. *)

Module Errs.

Local Set Warnings "-register-all".

(** The values stored under [any] in this package. *)
Inductive any :=
| VString (s : string)
| VStrings (l : list string)
| VUint64 (n : Z)
| VBoxed (id : nat).

Record ErrorOf (E : Type) := mkError {
  Type' : string;
  Code : string;
  Message : string;
  Details : option positive;
  Cause : option E
}.

Arguments mkError {_} _ _ _ _ _.
Arguments Type' {_} _.
Arguments Code {_} _.
Arguments Message {_} _.
Arguments Details {_} _.
Arguments Cause {_} _.

Record ErrCollectionOf (E : Type) := mkCollection {
  Err : ErrorOf E;
  Errors : list E
}.

Arguments mkCollection {_} _ _.
Arguments Err {_} _.
Arguments Errors {_} _.

Inductive error :=
| Domain (e : ErrorOf error)
| Collection (c : ErrCollectionOf error)
| Foreign (msg : string) (wrapped : list error).

Abbreviation Error := (ErrorOf error) (only parsing).
Abbreviation ErrCollection := (ErrCollectionOf error) (only parsing).
Abbreviation Heap := (gmap positive (gmap string any)) (only parsing).

Definition ErrorTypeValidation : string := "validation".
Definition ErrorTypeNotFound : string := "not_found".
Definition ErrorTypeProcessing : string := "processing".
Definition ErrorTypeConversion : string := "conversion".
Definition ErrorTypeCreation : string := "creation".
Definition ErrorTypeMissing : string := "missing".
Definition ErrorTypeInvalid : string := "invalid".
Definition ErrorTypeUnsupported : string := "unsupported".

(** [errors.As(err, &target)] for a target of type [*Error]: the first
    domain error met from [err] down its [Unwrap] tree, depth first. *)
Fixpoint asError (err : error) : option (ErrorOf error) :=
  match err with
  | Domain e => Some e
  | Collection c =>
      (fix first (l : list error) : option (ErrorOf error) :=
         match l with
         | [] => None
         | x :: rest =>
             match asError x with
             | Some e => Some e
             | None => first rest
             end
         end) (Errors c)
  | Foreign _ wrapped =>
      (fix first (l : list error) : option (ErrorOf error) :=
         match l with
         | [] => None
         | x :: rest =>
             match asError x with
             | Some e => Some e
             | None => first rest
             end
         end) wrapped
  end.

(** [errors.As(err, &target)] for a target of type [*ErrCollection]. *)
Fixpoint asCollection (err : error) : option (ErrCollectionOf error) :=
  match err with
  | Domain e =>
      match Cause e with
      | Some cause => asCollection cause
      | None => None
      end
  | Collection c => Some c
  | Foreign _ wrapped =>
      (fix first (l : list error) : option (ErrCollectionOf error) :=
         match l with
         | [] => None
         | x :: rest =>
             match asCollection x with
             | Some c => Some c
             | None => first rest
             end
         end) wrapped
  end.

(** On a possibly nil [error]. *)
Definition As (err : option error) : option Error := err ≫= asError.

Definition AsCollection (err : option error) : option ErrCollection :=
  err ≫= asCollection.

Definition Unwrap (e : Error) : option error := Cause e.

Definition Is (e : Error) (target : option error) : bool :=
  match target with
  | Some (Domain t) =>
      bool_decide (Type' e = Type' t) && bool_decide (Code e = Code t)
  | _ => false
  end.

Definition WithCause (e : Error) (cause : option error) : Error :=
  {| Type' := Type' e; Code := Code e; Message := Message e;
     Details := Details e; Cause := cause |}.

(** [maps.Copy(dst, src)]. *)
Definition mapsCopy (dst src : gmap string any) : gmap string any :=
  src ∪ dst.

Definition WithDetails (e : Error) (details : gmap string any) (h : Heap)
  : Error * Heap :=
  match Details e with
  | None =>
      let l := fresh (dom h) in
      ({| Type' := Type' e; Code := Code e; Message := Message e;
          Details := Some l; Cause := Cause e |},
       <[l := mapsCopy ∅ details]> h)
  | Some l =>
      (e, <[l := mapsCopy (default ∅ (h !! l)) details]> h)
  end.

Definition WithDetail (e : Error) (key : string) (value : any) (h : Heap)
  : Error * Heap :=
  WithDetails e {[ key := value ]} h.

Definition WithContext (e : Error) (context : any) (h : Heap) : Error * Heap :=
  WithDetail e "contexto" context h.

Definition WithObject (e : Error) (obj : any) (h : Heap) : Error * Heap :=
  WithDetail e "objeto" obj h.

Definition WithExpected (e : Error) (exp : any) (h : Heap) : Error * Heap :=
  WithDetail e "esperado" exp h.

Definition WithFound (e : Error) (found : any) (h : Heap) : Error * Heap :=
  WithDetail e "encontrado" found h.

Definition WithResourceID (e : Error) (id : Z) (h : Heap) : Error * Heap :=
  WithDetail e "id_recurso" (VUint64 id) h.

Definition New (errType code message : string) (context : list any)
    (h : Heap) : Error * Heap :=
  let e := {| Type' := errType; Code := code; Message := message;
              Details := None; Cause := None |} in
  match context with
  | c :: _ => WithContext e c h
  | [] => (e, h)
  end.

(** The details an error shows, read through its reference. *)
Definition detailsOf (h : Heap) (e : Error) : option (gmap string any) :=
  Details e ≫= (h !!.).

Definition hasType (errType : string) (err : option error) : bool :=
  match As err with
  | Some e => bool_decide (Type' e = errType)
  | None => false
  end.

Definition IsValidationError := hasType ErrorTypeValidation.
Definition IsNotFoundError := hasType ErrorTypeNotFound.
Definition IsMissingError := hasType ErrorTypeMissing.
Definition IsInvalidError := hasType ErrorTypeInvalid.
Definition IsProcessingError := hasType ErrorTypeProcessing.
Definition IsCreationError := hasType ErrorTypeCreation.
Definition IsConversionError := hasType ErrorTypeConversion.
Definition IsUnsupportedError := hasType ErrorTypeUnsupported.

Definition GetErrorCode (err : option error) : string :=
  match As err with
  | Some e => Code e
  | None => ""
  end.

Definition GetErrorType (err : option error) : string :=
  match As err with
  | Some e => Type' e
  | None => ""
  end.

Definition WrapError (err : option error) (errType code message : string)
  : option Error :=
  match err with
  | None => None
  | Some _ =>
      Some {| Type' := errType; Code := code; Message := message;
              Details := None; Cause := err |}
  end.

Section WithErrorText.

(** What [err.Error()] returns when the maps are as in [h]. *)
Variable errorString : Heap -> error -> string.

Definition CombineErrors (mainErr : option Error) (errs : list (option error))
    (h : Heap) : option error * Heap :=
  match mainErr, errs with
  | None, [] => (None, h)
  | _, _ =>
      let mainErr1 :=
        match mainErr with
        | Some e => e
        | None =>
            {| Type' := ErrorTypeProcessing; Code := "MULTIPLE_ERRORS";
               Message := "Múltiplos erros ocorreram";
               Details := None; Cause := None |}
        end in
      let validErrs := omap id errs in
      match validErrs with
      | [] => (Some (Domain mainErr1), h)
      | [err] => (Some (Domain (WithCause mainErr1 (Some err))), h)
      | _ =>
          let errorMessages := errorString h <$> validErrs in
          let '(e, h') :=
            WithDetail mainErr1 "additional_errors" (VStrings errorMessages) h in
          (Some (Domain e), h')
      end
  end.

End WithErrorText.

(** *** [ErrCollection] *)

Definition NewErrCollection (errType code message : string) : ErrCollection :=
  {| Err := {| Type' := errType; Code := code; Message := message;
               Details := None; Cause := None |};
     Errors := [] |}.

Definition NewStdErrCollection : ErrCollection :=
  NewErrCollection ErrorTypeProcessing "ERR_COLLECTION"
    "Um ou mais erros ocorreram durante a operação".

Definition Add (m : ErrCollection) (err : option error) : ErrCollection :=
  match err with
  | Some e => {| Err := Err m; Errors := Errors m ++ [e] |}
  | None => m
  end.

Definition AddAll (m : ErrCollection) (errs : list (option error))
  : ErrCollection :=
  foldl Add m errs.

Definition HasErrors (m : ErrCollection) : bool :=
  bool_decide (GoInt.len (Errors m) > 0).

Definition Count (m : ErrCollection) : Z := GoInt.len (Errors m).

Definition ToError (m : ErrCollection) : option error :=
  if HasErrors m then Some (Domain (Err m)) else None.

Definition GetErrs (m : ErrCollection) : list error := Errors m.

Definition GetErrors (m : ErrCollection) : list Error :=
  foldl (fun errsList err =>
           match asError err with
           | Some sError => errsList ++ [sError]
           | None => errsList
           end) [] (Errors m).

Definition GetByType (m : ErrCollection) (errType : string) : list error :=
  foldl (fun filtered err =>
           match asError err with
           | Some sError =>
               if decide (Type' sError = errType)
               then filtered ++ [err] else filtered
           | None => filtered
           end) [] (Errors m).

Definition GetByCode (m : ErrCollection) (code : string) : list error :=
  foldl (fun filtered err =>
           match asError err with
           | Some sError =>
               if decide (Code sError = code)
               then filtered ++ [err] else filtered
           | None => filtered
           end) [] (Errors m).

Definition First (m : ErrCollection) : option error :=
  if decide (GoInt.len (Errors m) > 0) then GoInt.index (Errors m) 0
  else None.

Definition Last (m : ErrCollection) : option error :=
  if decide (GoInt.len (Errors m) > 0)
  then GoInt.index (Errors m) (GoInt.len (Errors m) - 1)
  else None.

Definition WrapErrors (errs : list (option error))
    (errType code message : string) : option error :=
  if decide (GoInt.len errs = 0) then None
  else
    let errCollection := AddAll (NewErrCollection errType code message) errs in
    Some (Domain (Err errCollection)).

End Errs.

(** ** The response handler

    The methods of [ResponseHandler] that answer an [error].  What a
    method does to its [RequestContext] is the list of the calls it makes
    on it; a map that goes into a response is recorded as it is when
    [ctx.JSON] is called. *)

Module Response.

Definition StatusOK : Z := 200.
Definition StatusCreated : Z := 201.
Definition StatusAccepted : Z := 202.
Definition StatusBadRequest : Z := 400.
Definition StatusNotFound : Z := 404.
Definition StatusUnprocessableEntity : Z := 422.
Definition StatusInternalServerError : Z := 500.
Definition StatusNotImplemented : Z := 501.

Definition okMessage : string := "A solicitação foi processada com sucesso".
Definition internalErrorMessage : string :=
  "Ocorreu um erro interno do servidor".

(** One element of a list under "errors_by_type". *)
Record ErrorEntry := {
  entryCode : string;
  entryMessage : string;
  entryIndex : Z;
  entryDetails : option (gmap string Errs.any)
}.

(** The map [formatMultipleErrors] returns, key by key; [None] is a key
    that is not set. *)
Record MultiDetails := {
  errors_by_type : option (gmap string (list ErrorEntry));
  generic_errors : option (list string);
  summary : gmap string Z
}.

(** What is put under "details". *)
Inductive details :=
| DMap (d : gmap string Errs.any)
| DText (d : gmap string string)
| DMulti (d : MultiDetails).

Module ErrorInfo.
Record t := {
  Code : string;
  Message : string;
  Details : details;
  TotalErrors : option Z
}.
End ErrorInfo.

Record Response := {
  Success : bool;
  Message : string;
  Data : option Errs.any;
  Error : option ErrorInfo.t
}.

Inductive Call :=
| JSON (statusCode : Z) (data : Response)
| Abort.

Definition getMsgOrDefault (messages : list string) (defaultMsg : string)
  : string :=
  match messages with
  | m :: _ => if decide (m <> "") then m else defaultMsg
  | [] => defaultMsg
  end.

Definition SuccessResponse (data : option Errs.any) (message : string)
  : Response :=
  {| Success := true; Message := message; Data := data; Error := None |}.

Definition Ok (data : option Errs.any) (message : list string) : list Call :=
  [JSON StatusOK (SuccessResponse data (getMsgOrDefault message okMessage))].

Definition ErrorResponse (code message : string) (d : details) : Response :=
  {| Success := false; Message := ""; Data := None;
     Error := Some {| ErrorInfo.Code := code; ErrorInfo.Message := message;
                      ErrorInfo.Details := d;
                      ErrorInfo.TotalErrors := None |} |}.

Definition ErrorResponseWithTotal (code message : string) (d : details)
    (totalErrors : Z) : Response :=
  {| Success := false; Message := ""; Data := None;
     Error := Some {| ErrorInfo.Code := code; ErrorInfo.Message := message;
                      ErrorInfo.Details := d;
                      ErrorInfo.TotalErrors := Some totalErrors |} |}.

Definition getStatusCodeForErrorType (errorType : string) : Z :=
  if decide (errorType = Errs.ErrorTypeValidation
             \/ errorType = Errs.ErrorTypeMissing
             \/ errorType = Errs.ErrorTypeInvalid)
  then StatusBadRequest
  else if decide (errorType = Errs.ErrorTypeNotFound) then StatusNotFound
  else if decide (errorType = Errs.ErrorTypeConversion)
       then StatusUnprocessableEntity
  else if decide (errorType = Errs.ErrorTypeCreation)
       then StatusInternalServerError
  else if decide (errorType = Errs.ErrorTypeUnsupported)
       then StatusNotImplemented
  else StatusInternalServerError.

Definition IsClientError (err : option Errs.error) : bool :=
  match Errs.As err with
  | None => false
  | Some eError =>
      bool_decide (Errs.Type' eError = Errs.ErrorTypeValidation
                   \/ Errs.Type' eError = Errs.ErrorTypeMissing
                   \/ Errs.Type' eError = Errs.ErrorTypeInvalid
                   \/ Errs.Type' eError = Errs.ErrorTypeNotFound)
  end.

Definition IsServerError (err : option Errs.error) : bool :=
  match Errs.As err with
  | None => false
  | Some eError =>
      bool_decide (Errs.Type' eError = Errs.ErrorTypeProcessing
                   \/ Errs.Type' eError = Errs.ErrorTypeConversion
                   \/ Errs.Type' eError = Errs.ErrorTypeCreation)
  end.

Definition GetHTTPStatusCode (err : option Errs.error) : Z :=
  match Errs.As err with
  | Some eError => getStatusCodeForErrorType (Errs.Type' eError)
  | None =>
      match Errs.AsCollection err with
      | Some errCollection =>
          getStatusCodeForErrorType (Errs.Type' (Errs.Err errCollection))
      | None => StatusInternalServerError
      end
  end.

Section Handlers.

(** What [err.Error()] returns when the maps are as in [h]. *)
Variable errorString : gmap positive (gmap string Errs.any) -> Errs.error -> string.

(** [handleError].  The map made first is dropped when the error has
    details of its own; otherwise it is local to the call and is not put
    in the heap. *)
Definition handleError (err : Errs.ErrorOf Errs.error)
    (h : gmap positive (gmap string Errs.any))
  : list Call * gmap positive (gmap string Errs.any) :=
  let statusCode := getStatusCodeForErrorType (Errs.Type' err) in
  let details0 :=
    match Errs.Details err with
    | Some l => default ∅ (h !! l)
    | None => ∅
    end in
  let details1 :=
    match Errs.Cause err with
    | Some cause => <["causa" := Errs.VString (errorString h cause)]> details0
    | None => details0
    end in
  let h1 :=
    match Errs.Details err, Errs.Cause err with
    | Some l, Some _ => <[l := details1]> h
    | _, _ => h
    end in
  ([JSON statusCode
      (ErrorResponse (Errs.Code err) (Errs.Message err) (DMap details1));
    Abort], h1).

(** The loop of [formatMultipleErrors] over [GetErrors()], from index
    [i] on. *)
Fixpoint groupErrors (h : gmap positive (gmap string Errs.any))
    (i : Z) (errsList : list (Errs.ErrorOf Errs.error))
    (errorsByType : gmap string (list ErrorEntry))
    (genericErrors : list string)
  : gmap string (list ErrorEntry) * list string :=
  match errsList with
  | [] => (errorsByType, genericErrors)
  | err :: rest =>
      match Errs.asError (Errs.Domain err) with
      | Some eError =>
          let errorInfo :=
            {| entryCode := Errs.Code eError;
               entryMessage := Errs.Message eError;
               entryIndex := i;
               entryDetails :=
                 match Errs.Details eError with
                 | Some l => Some (default ∅ (h !! l))
                 | None => None
                 end |} in
          groupErrors h (i + 1) rest
            (<[Errs.Type' eError :=
                 default [] (errorsByType !! Errs.Type' eError) ++ [errorInfo]]>
               errorsByType)
            genericErrors
      | None =>
          groupErrors h (i + 1) rest errorsByType
            (genericErrors ++ [errorString h (Errs.Domain err)])
      end
  end.

Definition countOf (errorsByType : gmap string (list ErrorEntry))
    (errType : string) : Z :=
  GoInt.len (default [] (errorsByType !! errType)).

Definition formatMultipleErrors (errCollection : Errs.ErrCollectionOf Errs.error)
    (h : gmap positive (gmap string Errs.any)) : MultiDetails :=
  let '(errorsByType, genericErrors) :=
    groupErrors h 0 (Errs.GetErrors errCollection) ∅ [] in
  {| errors_by_type :=
       if decide (GoInt.len (map_to_list errorsByType) > 0)
       then Some errorsByType else None;
     generic_errors :=
       if decide (GoInt.len genericErrors > 0)
       then Some genericErrors else None;
     summary :=
       list_to_map
         [ ("total", Errs.Count errCollection);
           ("validation", countOf errorsByType Errs.ErrorTypeValidation);
           ("not_found", countOf errorsByType Errs.ErrorTypeNotFound);
           ("processing", countOf errorsByType Errs.ErrorTypeProcessing);
           ("conversion", countOf errorsByType Errs.ErrorTypeConversion);
           ("creation", countOf errorsByType Errs.ErrorTypeCreation);
           ("missing", countOf errorsByType Errs.ErrorTypeMissing);
           ("invalid", countOf errorsByType Errs.ErrorTypeInvalid);
           ("unsupported", countOf errorsByType Errs.ErrorTypeUnsupported) ] |}.

Definition handleMultiError (errCollection : Errs.ErrCollectionOf Errs.error)
    (h : gmap positive (gmap string Errs.any)) : list Call :=
  let statusCode :=
    getStatusCodeForErrorType (Errs.Type' (Errs.Err errCollection)) in
  let errorDetails := formatMultipleErrors errCollection h in
  [JSON statusCode
     (ErrorResponseWithTotal (Errs.Code (Errs.Err errCollection))
        (Errs.Message (Errs.Err errCollection)) (DMulti errorDetails)
        (Errs.Count errCollection));
   Abort].

Definition handleGenericError (err : Errs.error)
    (h : gmap positive (gmap string Errs.any)) : list Call :=
  [JSON StatusInternalServerError
     (ErrorResponse "ERR_UNKNOWN_ERROR" internalErrorMessage
        (DText {[ "error" := errorString h err ]}));
   Abort].

(** [Error]: the calls made on the context and the heap afterwards. *)
Definition Error' (err : option Errs.error)
    (h : gmap positive (gmap string Errs.any))
  : list Call * gmap positive (gmap string Errs.any) :=
  match err with
  | None => ([], h)
  | Some e =>
      match Errs.asCollection e with
      | Some errCollection => (handleMultiError errCollection h, h)
      | None =>
          match Errs.asError e with
          | Some eError => handleError eError h
          | None => (handleGenericError e h, h)
          end
      end
  end.

Definition ErrOrOk (data : option Errs.any) (err : option Errs.error)
    (successMsg : list string) (h : gmap positive (gmap string Errs.any))
  : list Call * gmap positive (gmap string Errs.any) :=
  match err with
  | Some _ => Error' err h
  | None =>
      let msg := match successMsg with m :: _ => m | [] => okMessage end in
      (Ok data [msg], h)
  end.

Definition ErrWithFallback (err : option Errs.error) (context : string)
    (fallbackErr : Errs.ErrorOf Errs.error)
    (h : gmap positive (gmap string Errs.any))
  : list Call * gmap positive (gmap string Errs.any) :=
  match Errs.As err with
  | Some _ => Error' err h
  | None =>
      let '(e1, h1) := Errs.WithContext fallbackErr (Errs.VString context) h in
      Error' (Some (Errs.Domain (Errs.WithCause e1 err))) h1
  end.

Definition ErrResourceNotFound : Errs.ErrorOf Errs.error :=
  {| Errs.Type' := Errs.ErrorTypeNotFound;
     Errs.Code := "ERR_RESOURCE_NOT_FOUND";
     Errs.Message := "O recurso solicitado não foi encontrado";
     Errs.Details := None; Errs.Cause := None |}.

Definition NotFound (resourceType : string) (identifier : Errs.any)
    (h : gmap positive (gmap string Errs.any))
  : list Call * gmap positive (gmap string Errs.any) :=
  let '(e1, h1) :=
    Errs.WithDetail ErrResourceNotFound "resource_type"
      (Errs.VString resourceType) h in
  let '(e2, h2) := Errs.WithDetail e1 "identifier" identifier h1 in
  Error' (Some (Errs.Domain e2)) h2.

End Handlers.

End Response.

(** ** The dependency validator

    A dependency is an [any]: [None] is the [nil] interface.  The
    validator is one object that every method updates and returns. *)

Module Validator.

Record DependencyValidator := {
  context : string;
  deps : gmap string (option Errs.any)
}.

Definition NewDependencyValidator (context : string) : DependencyValidator :=
  {| context := context; deps := ∅ |}.

Definition Check (dv : DependencyValidator) (depDesc : string)
    (dep : option Errs.any) : DependencyValidator :=
  {| context := context dv; deps := <[depDesc := dep]> (deps dv) |}.

Definition UseCaseCheck (dv : DependencyValidator) (ucDesc : string)
    (dep : option Errs.any) : DependencyValidator :=
  Check dv ("Caso de uso: " +:+ ucDesc) dep.

Definition RepositoryCheck (dv : DependencyValidator) (repoDesc : string)
    (dep : option Errs.any) : DependencyValidator :=
  Check dv ("Repositório: " +:+ repoDesc) dep.

Definition QueryPortCheck (dv : DependencyValidator) (repoDesc : string)
    (dep : option Errs.any) : DependencyValidator :=
  Check dv ("Porta de consulta: " +:+ repoDesc) dep.

Definition ServiceCheck (dv : DependencyValidator) (svcDesc : string)
    (dep : option Errs.any) : DependencyValidator :=
  Check dv ("Serviço: " +:+ svcDesc) dep.

Definition ApplicationCheck (dv : DependencyValidator) (appDesc : string)
    (dep : option Errs.any) : DependencyValidator :=
  Check dv ("Aplicação: " +:+ appDesc) dep.

Definition DatabaseCheck (dv : DependencyValidator) (dbName : string)
    (dep : option Errs.any) : DependencyValidator :=
  Check dv ("Banco de Dados: " +:+ dbName) dep.

(** What [MustValidate] does: it returns, or panics with the text of
    [ErrMissingRequiredDependency(desc, context)]. *)
Inductive Validated :=
| Returns
| Panics (desc context : string).

(** [MustValidate], the keys of [deps] being visited in the order
    [visited] (the order of a [range] over a map is not specified). *)
Fixpoint MustValidate (visited : list string) (dv : DependencyValidator)
  : Validated :=
  match visited with
  | [] => Returns
  | desc :: rest =>
      match deps dv !! desc with
      | Some None => Panics desc (context dv)
      | _ => MustValidate rest dv
      end
  end.

End Validator.

(** ** The OAuth2 token manager

    The token endpoint and the libraries between it and the manager are
    the environment: an [Exchange] says how each step of one call of
    [authenticate] turns out.  Instants are clock readings in
    nanoseconds; the wall clock is taken not to be stepped, so that an
    instant moved by a duration is their sum and instants compare as
    numbers. *)

Module OAuth2.

(** [strings.Contains] and [strings.Split] (the strings of
    [strings.SplitSeq]) for a separator of one byte, as in the calls of
    this package. *)
Fixpoint Contains (s : string) (sep : Ascii.ascii) : bool :=
  match s with
  | EmptyString => false
  | String c rest => if decide (c = sep) then true else Contains rest sep
  end.

Fixpoint Split (s : string) (sep : Ascii.ascii) : list string :=
  match s with
  | EmptyString => [EmptyString]
  | String c rest =>
      if decide (c = sep) then EmptyString :: Split rest sep
      else match Split rest sep with
           | p :: ps => String c p :: ps
           | [] => [String c EmptyString]
           end
  end.

(** The byte of the separator [" "]. *)
Definition space : Ascii.ascii := Ascii.ascii_of_nat 32.

Definition Add (t : Time) (d : Duration) : Time := t + d.

Definition After (t u : Time) : bool := bool_decide (t > u).

Record TokenAccess := {
  AccessToken : string;
  TokenType : string;
  ExpiresIn : Z;
  RefreshToken : string;
  Scope : string;
  LastAuthentication : option Time
}.

Inductive HttpClient :=
| DefaultClient (timeout : Duration)
| GivenClient (id : nat).

Record OAuth2TokenManager := {
  authUrl : string;
  sendAsPost : bool;
  clientID : string;
  clientSecret : string;
  grantType : string;
  scope : string;
  client : HttpClient;
  cache : gmap string TokenAccess;
  authParams : gmap string string
}.

Definition NewOAuth2TokenManager (client : option nat)
    (clientID clientSecret grantType : string) : OAuth2TokenManager :=
  {| authUrl := ""; sendAsPost := false; clientID := clientID;
     clientSecret := clientSecret; grantType := grantType; scope := "";
     client := match client with
               | Some id => GivenClient id
               | None => DefaultClient (20 * Second)
               end;
     cache := ∅; authParams := ∅ |}.

Definition SendAsGet (tm : OAuth2TokenManager) : OAuth2TokenManager :=
  {| authUrl := authUrl tm; sendAsPost := false; clientID := clientID tm;
     clientSecret := clientSecret tm; grantType := grantType tm;
     scope := scope tm; client := client tm; cache := cache tm;
     authParams := authParams tm |}.

Definition SendAsPost (tm : OAuth2TokenManager) : OAuth2TokenManager :=
  {| authUrl := authUrl tm; sendAsPost := true; clientID := clientID tm;
     clientSecret := clientSecret tm; grantType := grantType tm;
     scope := scope tm; client := client tm; cache := cache tm;
     authParams := authParams tm |}.

Definition WithAuthenticationURL (tm : OAuth2TokenManager) (url : string)
  : OAuth2TokenManager :=
  {| authUrl := url; sendAsPost := sendAsPost tm; clientID := clientID tm;
     clientSecret := clientSecret tm; grantType := grantType tm;
     scope := scope tm; client := client tm; cache := cache tm;
     authParams := authParams tm |}.

Definition WithOptionalParams (tm : OAuth2TokenManager)
    (params : gmap string string) : OAuth2TokenManager :=
  {| authUrl := authUrl tm; sendAsPost := sendAsPost tm;
     clientID := clientID tm; clientSecret := clientSecret tm;
     grantType := grantType tm; scope := scope tm; client := client tm;
     cache := cache tm; authParams := params |}.

Definition withCache (tm : OAuth2TokenManager)
    (cache : gmap string TokenAccess) : OAuth2TokenManager :=
  {| authUrl := authUrl tm; sendAsPost := sendAsPost tm;
     clientID := clientID tm; clientSecret := clientSecret tm;
     grantType := grantType tm; scope := scope tm; client := client tm;
     cache := cache; authParams := authParams tm |}.

(** [url.Values]; [Encode] is left to the library. *)
Definition Values := gmap string (list string).

Definition MethodGet : string := "GET".
Definition MethodPost : string := "POST".

(** The request handed to [client.Do]: its query and its body are given
    by the values that [Encode] writes out. *)
Record Request := {
  Method : string;
  RawQuery : option Values;
  Body : option Values;
  Header : gmap string (list string)
}.

(** How one call of [authenticate] turns out, step by step; a step is
    looked at only when the steps before it went well. *)
Record Exchange := {
  urlParse : option Values;
  newRequest : bool;
  clientDo : bool;
  ContentEncoding : string;
  gzipNewReader : bool;
  readAll : bool;
  StatusCode : Z;
  unmarshal : option TokenAccess;
  now : Time
}.

Inductive Reader := Flate | Brotli | Gzip | Identity.

Inductive DecompressError := CreatingGzipReader | UnsupportedEncoding.

(** [DecompressResponse], of package [http]. *)
Definition DecompressResponse (encoding : string) (gzipOk : bool)
  : Reader + DecompressError :=
  if decide (encoding = "deflate") then inl Flate
  else if decide (encoding = "br") then inl Brotli
  else if decide (encoding = "gzip")
       then if gzipOk then inl Gzip else inr CreatingGzipReader
  else if decide (encoding = "" \/ encoding = "identity") then inl Identity
  else inr UnsupportedEncoding.

Inductive AuthError :=
| InvalidAccessScope
| InvalidAuthenticationURL
| CreatingRequest
| SendingRequest
| Decompressing (e : DecompressError)
| ReadingBody
| NonSuccessStatus (code : Z)
| DecodingBody.

(** The values of the token request. *)
Definition authQuery (tm : OAuth2TokenManager) (scope : string) (q : Values)
  : Values :=
  let q1 := <["client_id" := [clientID tm]]> q in
  let q2 := <["client_secret" := [clientSecret tm]]> q1 in
  let q3 := <["grant_type" := [grantType tm]]> q2 in
  let q4 := <["scope" := [scope]]> q3 in
  map_fold (fun k v (q : Values) => <[k := [v]]> q) q4 (authParams tm).

Definition authRequest (tm : OAuth2TokenManager) (scope : string) (q : Values)
  : Request :=
  let q := authQuery tm scope q in
  let h1 : gmap string (list string) :=
    <["Accept" := ["application/json; charset=utf-8"]]> ∅ in
  let h2 := <["Accept-Encoding" := ["gzip, deflate, br"]]> h1 in
  {| Method := if sendAsPost tm then MethodPost else MethodGet;
     RawQuery := if sendAsPost tm then None else Some q;
     Body := if sendAsPost tm then Some q else None;
     Header :=
       if sendAsPost tm
       then <["Content-Type" := ["application/x-www-form-urlencoded"]]> h2
       else h2 |}.

(** The cache after a token was obtained for [scope]. *)
Definition store (scope : string) (tokenAccess : TokenAccess)
    (cache : gmap string TokenAccess) : gmap string TokenAccess :=
  if negb (Contains scope space)
  then <[scope := tokenAccess]> cache
  else foldl (fun cache sc => <[sc := tokenAccess]> cache) cache
         (Split scope space).

(** [authenticate]: the error returned ([None] for [nil]), the manager
    afterwards and the request sent, if one was. *)
Definition authenticate (tm : OAuth2TokenManager) (scope : string)
    (x : Exchange) : option AuthError * OAuth2TokenManager * option Request :=
  match urlParse x with
  | None => (Some InvalidAuthenticationURL, tm, None)
  | Some q =>
      let req := authRequest tm scope q in
      if negb (newRequest x) then (Some CreatingRequest, tm, None)
      else if negb (clientDo x) then (Some SendingRequest, tm, Some req)
      else
        match DecompressResponse (ContentEncoding x) (gzipNewReader x) with
        | inr e => (Some (Decompressing e), tm, Some req)
        | inl _ =>
            if negb (readAll x) then (Some ReadingBody, tm, Some req)
            else if decide (StatusCode x <> 200)
                 then (Some (NonSuccessStatus (StatusCode x)), tm, Some req)
            else
              match unmarshal x with
              | None => (Some DecodingBody, tm, Some req)
              | Some decoded =>
                  let tokenAccess :=
                    {| AccessToken := AccessToken decoded;
                       TokenType := TokenType decoded;
                       ExpiresIn := ExpiresIn decoded;
                       RefreshToken := RefreshToken decoded;
                       Scope := Scope decoded;
                       LastAuthentication :=
                         Some (Add (now x) (-5 * Second)) |} in
                  (None, withCache tm (store scope tokenAccess (cache tm)),
                   Some req)
              end
        end
  end.

Definition getTokenFromScope (tm : OAuth2TokenManager) (scope : string)
  : option TokenAccess :=
  cache tm !! scope.

(** What [getAccessToken] gives: a run-time panic, an error, or a token
    pointer, which may be [nil], with a [nil] error. *)
Inductive Got :=
| GotPanic
| GotError (e : AuthError)
| GotToken (t : option TokenAccess).

Definition reauthenticate (tm : OAuth2TokenManager) (scope : string)
    (x : Exchange) : Got * OAuth2TokenManager * option Request :=
  match authenticate tm scope x with
  | (Some e, tm', req) => (GotError e, tm', req)
  | (None, tm', req) => (GotToken (getTokenFromScope tm' scope), tm', req)
  end.

(** [getAccessToken]; [now0] is the clock it reads itself. *)
Definition getAccessToken (tm : OAuth2TokenManager) (scope : string)
    (now0 : Time) (x : Exchange)
  : Got * OAuth2TokenManager * option Request :=
  if decide (scope = "") then (GotError InvalidAccessScope, tm, None)
  else
    match getTokenFromScope tm scope with
    | None => reauthenticate tm scope x
    | Some tokenScope =>
        match LastAuthentication tokenScope with
        | None => (GotPanic, tm, None)
        | Some last =>
            let expiration :=
              Add last (GoInt.wrap (ExpiresIn tokenScope * Second)) in
            if After expiration now0 then (GotToken (Some tokenScope), tm, None)
            else reauthenticate tm scope x
        end
    end.

Inductive HeaderSet :=
| HeaderPanic
| HeaderError (e : AuthError)
| HeaderDone.

(** [SetAuthorizationHeader] on a request with the headers [r]. *)
Definition SetAuthorizationHeader (tm : OAuth2TokenManager)
    (r : gmap string (list string)) (scope : string) (now0 : Time)
    (x : Exchange)
  : HeaderSet * gmap string (list string) * OAuth2TokenManager
    * option Request :=
  match getAccessToken tm scope now0 x with
  | (GotPanic, tm', req) => (HeaderPanic, r, tm', req)
  | (GotError e, tm', req) => (HeaderError e, r, tm', req)
  | (GotToken None, tm', req) => (HeaderPanic, r, tm', req)
  | (GotToken (Some tokenAccess), tm', req) =>
      (HeaderDone,
       <["Authorization" :=
           [TokenType tokenAccess +:+ " " +:+ AccessToken tokenAccess]]> r,
       tm', req)
  end.

End OAuth2.

(** ** The configuration loader

    The methods of [Loader], called one after another.  The file and
    viper are the environment: a [Read] says how one call of
    [loadConfig] turns out.  A channel is its buffer, of capacity 10,
    and whether it is closed; the subscribers are identifiers of
    channels in a store.  A callback started with [go] is recorded as
    an effect. *)

Module Config.

Definition cfgIfTag : string := "Infra: Carregador de configurações".

(** The package variables, initialised in the order they are declared,
    and the details maps they have then. *)
Definition init1 :=
  Errs.New Errs.ErrorTypeProcessing "ERR_CONFIG_FILE_READ_FAILED"
    "Falha ao ler arquivo de configuração" [Errs.VString cfgIfTag] ∅.
Definition ErrConfigFileReadFailed : Errs.ErrorOf Errs.error := init1.1.

Definition init2 :=
  Errs.New Errs.ErrorTypeConversion "ERR_CONFIG_UNMARSHAL_FAILED"
    "Falha ao desserializar configuração" [Errs.VString cfgIfTag] init1.2.
Definition ErrConfigUnmarshalFailed : Errs.ErrorOf Errs.error := init2.1.

Definition init3 :=
  Errs.New Errs.ErrorTypeValidation "ERR_CONFIG_VALIDATION_FAILED"
    "Falha na validação da configuração" [Errs.VString cfgIfTag] init2.2.
Definition ErrConfigValidationFailed : Errs.ErrorOf Errs.error := init3.1.

Definition init4 :=
  Errs.New Errs.ErrorTypeProcessing "ERR_CONFIG_RELOAD_FAILED"
    "Falha ao recarregar configuração" [Errs.VString cfgIfTag] init3.2.
Definition ErrConfigReloadFailed : Errs.ErrorOf Errs.error := init4.1.

Definition init5 :=
  Errs.New Errs.ErrorTypeValidation "ERR_VALIDATION_RELOAD_FAILED"
    "Falha na validação durante recarga da configuração"
    [Errs.VString cfgIfTag] init4.2.
Definition ErrValidationReloadFailed : Errs.ErrorOf Errs.error := init5.1.

Definition initHeap : gmap positive (gmap string Errs.any) := init5.2.

Record LoaderOptions := {
  ConfigName : string;
  ConfigType : string;
  ConfigPaths : list string;
  WatchConfig : bool;
  ReloadDebounce : Duration;
  OnConfigChange : bool;
  OnConfigChangeError : bool
}.

Definition DefaultLoaderOptions : LoaderOptions :=
  {| ConfigName := "config"; ConfigType := "yaml";
     ConfigPaths := ["."; "./config"; "/etc/app"; "$HOME/.app"];
     WatchConfig := false; ReloadDebounce := 1 * Second;
     OnConfigChange := false; OnConfigChangeError := false |}.

Inductive ReadResult :=
| ReadOk
| ConfigFileNotFoundError
| ReadError (err : Errs.error).

Section Loader.

Variable T : Type.

Record ConfigChangeEvent := {
  OldConfig : option T;
  NewConfig : option T;
  Error : option Errs.error;
  Timestamp : Time
}.

Record Chan := {
  buffer : list ConfigChangeEvent;
  closed : bool
}.

Record Read := {
  readInConfig : ReadResult;
  unmarshal : Errs.error + T
}.

Inductive Effect :=
| StartWatching
| GoOnConfigChange (newConfig : T)
| GoOnConfigChangeError (err : Errs.error).

Record Loader := {
  options : LoaderOptions;
  current : option T;
  subscribers : list positive;
  validator : option (T -> option Errs.error);
  cancelled : bool
}.

Definition NewViper (options : option LoaderOptions) : Loader :=
  {| options := default DefaultLoaderOptions options;
     current := None; subscribers := []; validator := None;
     cancelled := false |}.

Definition loadConfig (v : Read) : Errs.error + T :=
  match readInConfig v with
  | ReadError err =>
      inl (Errs.Domain (Errs.WithCause ErrConfigFileReadFailed (Some err)))
  | _ =>
      match unmarshal v with
      | inl err =>
          inl (Errs.Domain (Errs.WithCause ErrConfigUnmarshalFailed (Some err)))
      | inr config => inr config
      end
  end.

Definition Load (cl : Loader) (v : Read)
  : (Errs.error + T) * Loader * list Effect :=
  match loadConfig v with
  | inl err => (inl err, cl, [])
  | inr config =>
      (inr config,
       {| options := options cl; current := Some config;
          subscribers := subscribers cl; validator := validator cl;
          cancelled := cancelled cl |},
       if WatchConfig (options cl) then [StartWatching] else [])
  end.

Definition LoadWithValidation (cl : Loader)
    (validator : option (T -> option Errs.error)) (v : Read)
  : (Errs.error + T) * Loader * list Effect :=
  let cl1 := {| options := options cl; current := current cl;
                subscribers := subscribers cl; validator := validator;
                cancelled := cancelled cl |} in
  match Load cl1 v with
  | (inl err, cl2, effs) => (inl err, cl2, effs)
  | (inr config, cl2, effs) =>
      match validator with
      | Some validate =>
          match validate config with
          | Some err =>
              (inl (Errs.Domain
                      (Errs.WithCause ErrConfigValidationFailed (Some err))),
               cl2, effs)
          | None => (inr config, cl2, effs)
          end
      | None => (inr config, cl2, effs)
      end
  end.

Definition GetCurrent (cl : Loader) : option T := current cl.

(** [select { case subscriber <- event: default: }]; [None] is the
    panic of a send on a closed channel.  An identifier without a
    channel does not occur. *)
Definition trySend (event : ConfigChangeEvent) (chans : gmap positive Chan)
    (subscriber : positive) : option (gmap positive Chan) :=
  match chans !! subscriber with
  | None => None
  | Some c =>
      if closed c then None
      else if decide (GoInt.len (buffer c) < 10)
           then Some (<[subscriber :=
                          {| buffer := buffer c ++ [event];
                             closed := false |}]> chans)
           else Some chans
  end.

Fixpoint notify (event : ConfigChangeEvent) (subs : list positive)
    (chans : gmap positive Chan) : option (gmap positive Chan) :=
  match subs with
  | [] => Some chans
  | subscriber :: rest =>
      match trySend event chans subscriber with
      | Some chans' => notify event rest chans'
      | None => None
      end
  end.

Definition notifyChange (cl : Loader) (oldConfig : option T) (newConfig : T)
    (now : Time) (chans : gmap positive Chan)
  : option (gmap positive Chan) * list Effect :=
  let event := {| OldConfig := oldConfig; NewConfig := Some newConfig;
                  Error := None; Timestamp := now |} in
  (notify event (subscribers cl) chans,
   if OnConfigChange (options cl) then [GoOnConfigChange newConfig] else []).

Definition notifyError (cl : Loader) (err : Errs.error) (now : Time)
    (chans : gmap positive Chan)
  : option (gmap positive Chan) * list Effect :=
  let event := {| OldConfig := None; NewConfig := None;
                  Error := Some err; Timestamp := now |} in
  (notify event (subscribers cl) chans,
   if OnConfigChangeError (options cl) then [GoOnConfigChangeError err]
   else []).

(** [Reload]: the error returned, the loader and the channels
    afterwards; the first component is [None] when the call panics. *)
Definition Reload (cl : Loader) (v : Read) (now : Time)
    (chans : gmap positive Chan)
  : option (option Errs.error * Loader * gmap positive Chan) * list Effect :=
  let oldConfig := GetCurrent cl in
  match loadConfig v with
  | inl err =>
      let '(sent, effs) := notifyError cl err now chans in
      (chans' ← sent;
       Some (Some (Errs.Domain
                     (Errs.WithCause ErrConfigReloadFailed (Some err))),
             cl, chans'),
       effs)
  | inr newConfig =>
      match validator cl ≫= (fun validate => validate newConfig) with
      | Some err =>
          let validationErr :=
            Errs.Domain (Errs.WithCause ErrValidationReloadFailed (Some err)) in
          let '(sent, effs) := notifyError cl validationErr now chans in
          (chans' ← sent; Some (Some validationErr, cl, chans'), effs)
      | None =>
          let cl1 := {| options := options cl; current := Some newConfig;
                        subscribers := subscribers cl;
                        validator := validator cl;
                        cancelled := cancelled cl |} in
          let '(sent, effs) := notifyChange cl1 oldConfig newConfig now chans in
          (chans' ← sent; Some (None, cl1, chans'), effs)
      end
  end.

Definition Subscribe (cl : Loader) (chans : gmap positive Chan)
  : positive * Loader * gmap positive Chan :=
  let ch := fresh (dom chans) in
  (ch,
   {| options := options cl; current := current cl;
      subscribers := subscribers cl ++ [ch]; validator := validator cl;
      cancelled := cancelled cl |},
   <[ch := {| buffer := []; closed := false |}]> chans).

(** [close(ch)]; [None] is the panic of closing a closed channel. *)
Definition close (chans : gmap positive Chan) (ch : positive)
  : option (gmap positive Chan) :=
  match chans !! ch with
  | None => None
  | Some c =>
      if closed c then None
      else Some (<[ch := {| buffer := buffer c; closed := true |}]> chans)
  end.

(** The loop of [Unsubscribe] from index [i] on; [before] are the
    subscribers passed over. *)
Fixpoint unsubscribeFrom (before subs : list positive) (ch : positive)
    (chans : gmap positive Chan)
  : option (list positive * gmap positive Chan) :=
  match subs with
  | [] => Some (before, chans)
  | subscriber :: rest =>
      if decide (subscriber = ch)
      then chans' ← close chans subscriber; Some (before ++ rest, chans')
      else unsubscribeFrom (before ++ [subscriber]) rest ch chans
  end.

Definition Unsubscribe (cl : Loader) (ch : positive)
    (chans : gmap positive Chan) : option (Loader * gmap positive Chan) :=
  '(subs, chans') ← unsubscribeFrom [] (subscribers cl) ch chans;
  Some ({| options := options cl; current := current cl;
           subscribers := subs; validator := validator cl;
           cancelled := cancelled cl |}, chans').

Fixpoint closeAll (subs : list positive) (chans : gmap positive Chan)
  : option (gmap positive Chan) :=
  match subs with
  | [] => Some chans
  | subscriber :: rest =>
      match close chans subscriber with
      | Some chans' => closeAll rest chans'
      | None => None
      end
  end.

Definition Stop (cl : Loader) (chans : gmap positive Chan)
  : option (Loader * gmap positive Chan) :=
  chans' ← closeAll (subscribers cl) chans;
  Some ({| options := options cl; current := current cl;
           subscribers := []; validator := validator cl;
           cancelled := true |}, chans').

(** A subscriber takes the first event of its channel, if there is
    one. *)
Definition receive (chans : gmap positive Chan) (ch : positive)
  : gmap positive Chan :=
  match chans !! ch with
  | Some c =>
      <[ch := {| buffer := tail (buffer c); closed := closed c |}]> chans
  | None => chans
  end.

End Loader.

Arguments OldConfig {T}.
Arguments NewConfig {T}.
Arguments Error {T}.
Arguments Timestamp {T}.
Arguments Build_ConfigChangeEvent {T}.
Arguments buffer {T}.
Arguments closed {T}.
Arguments Build_Chan {T}.
Arguments readInConfig {T}.
Arguments unmarshal {T}.
Arguments Build_Read {T}.
Arguments StartWatching {T}.
Arguments GoOnConfigChange {T}.
Arguments GoOnConfigChangeError {T}.
Arguments options {T}.
Arguments current {T}.
Arguments subscribers {T}.
Arguments validator {T}.
Arguments cancelled {T}.
Arguments Build_Loader {T}.
Arguments loadConfig {T}.
Arguments Load {T}.
Arguments LoadWithValidation {T}.
Arguments GetCurrent {T}.
Arguments trySend {T}.
Arguments notify {T}.
Arguments notifyChange {T}.
Arguments notifyError {T}.
Arguments Reload {T}.
Arguments Subscribe {T}.
Arguments close {T}.
Arguments unsubscribeFrom {T}.
Arguments Unsubscribe {T}.
Arguments closeAll {T}.
Arguments Stop {T}.
Arguments receive {T}.

End Config.

(** ** Vocabulary for the properties of the whole programs *)

Module Coverage.

Import HitCount Design.

(** The ports a resident state stands for: those of the steps it has
    completed, then its hits on the current step. *)
Definition progressPorts (S : list KnockStep) (st : ClientState) : list Z :=
  knockPorts (take (Z.to_nat (StepIndex st)) S) ++
  match S !! Z.to_nat (StepIndex st) with
  | Some step => replicate (Z.to_nat (HitCount st)) (Port step)
  | None => []
  end.

(** The knocks of [A] in [hist] end with a stretch of timely knocks on
    [ports]. *)
Definition endsWith (T : Duration) (A : string) (hist : list Knock)
    (ports : list Z) (stretch : list Knock) : Prop :=
  stretch `suffix_of` knocksOf A hist /\
  k_port <$> stretch = ports /\
  timely T stretch.

(** Every resident state is within bounds and has been earned by the last
    knocks of its address, the last of which stamped it. *)
Definition earned (S : list KnockStep) (T : Duration) (hist : list Knock)
    (m : gmap string ClientState) : Prop :=
  map_Forall (fun A st =>
                residentOK S st /\
                exists stretch,
                  endsWith T A hist (progressPorts S st) stretch /\
                  forall k, last stretch = Some k -> k_now k = LastKnock st) m.

(** The eight predicates of package [errs] on the type of an error. *)
Definition typePredicates : list (option Errs.error -> bool) :=
  [ Errs.IsValidationError; Errs.IsNotFoundError; Errs.IsMissingError;
    Errs.IsInvalidError; Errs.IsProcessingError; Errs.IsCreationError;
    Errs.IsConversionError; Errs.IsUnsupportedError ].

(** The types these predicates test for, in the same order. *)
Definition errorTypes : list string :=
  [ Errs.ErrorTypeValidation; Errs.ErrorTypeNotFound; Errs.ErrorTypeMissing;
    Errs.ErrorTypeInvalid; Errs.ErrorTypeProcessing; Errs.ErrorTypeCreation;
    Errs.ErrorTypeConversion; Errs.ErrorTypeUnsupported ].

(** The error [CombineErrors] falls back on. *)
Definition multipleErrors : Errs.ErrorOf Errs.error :=
  {| Errs.Type' := Errs.ErrorTypeProcessing; Errs.Code := "MULTIPLE_ERRORS";
     Errs.Message := "Múltiplos erros ocorreram";
     Errs.Details := None; Errs.Cause := None |}.

(** [err] has a domain error with this code first in its chain. *)
Definition hasCode (code : string) (err : Errs.error) : bool :=
  match Errs.asError err with
  | Some e => bool_decide (Errs.Code e = code)
  | None => false
  end.

(** The pauses of a trace of the client, and what it printed. *)
Definition sleeps (acts : list Client.Action) : list Duration :=
  omap (fun a => match a with Client.Sleep d => Some d | _ => None end) acts.

Definition printed (acts : list Client.Action) : list string :=
  omap (fun a => match a with Client.Println s => Some s | _ => None end) acts.

(** The state a call of the single-hit server by [A] works on. *)
Definition ready1 (T : Duration) (A : string) (ts : Time)
    (s : SingleHit.ClientState) (m : gmap string SingleHit.ClientState)
  : Prop :=
  (m !! A = None /\ s = SingleHit.zeroState) \/
  (m !! A = Some s /\ Since ts (SingleHit.LastKnock s) <= T).

(** The status codes the error responses are sent with. *)
Definition errorStatuses : list Z :=
  [ Response.StatusBadRequest; Response.StatusNotFound;
    Response.StatusUnprocessableEntity; Response.StatusInternalServerError;
    Response.StatusNotImplemented ].

(** The details a response shows for an error with this cause. *)
Definition withCausa
    (errorString : gmap positive (gmap string Errs.any) -> Errs.error -> string)
    (h : gmap positive (gmap string Errs.any)) (cause : option Errs.error)
    (d : gmap string Errs.any) : gmap string Errs.any :=
  match cause with
  | Some c => <["causa" := Errs.VString (errorString h c)]> d
  | None => d
  end.

(** The errors of a list with their positions. *)
Definition positions (l : list (Errs.ErrorOf Errs.error))
  : list (Z * Errs.ErrorOf Errs.error) :=
  imap (fun i e => (Z.of_nat i, e)) l.

(** The entry a response shows for the error at a position. *)
Definition entryOf (h : gmap positive (gmap string Errs.any))
    (ie : Z * Errs.ErrorOf Errs.error) : Response.ErrorEntry :=
  {| Response.entryCode := Errs.Code ie.2;
     Response.entryMessage := Errs.Message ie.2;
     Response.entryIndex := ie.1;
     Response.entryDetails :=
       match Errs.Details ie.2 with
       | Some l => Some (default ∅ (h !! l))
       | None => None
       end |}.

(** The keys of the summary and the types they count. *)
Definition summaryKeys : list (string * string) :=
  [ ("validation", Errs.ErrorTypeValidation);
    ("not_found", Errs.ErrorTypeNotFound);
    ("processing", Errs.ErrorTypeProcessing);
    ("conversion", Errs.ErrorTypeConversion);
    ("creation", Errs.ErrorTypeCreation);
    ("missing", Errs.ErrorTypeMissing);
    ("invalid", Errs.ErrorTypeInvalid);
    ("unsupported", Errs.ErrorTypeUnsupported) ].

(** The checks of a validator as a list, applied in order. *)
Definition checked (dv : Validator.DependencyValidator)
    (checks : list (string * option Errs.any)) : Validator.DependencyValidator :=
  foldl (fun dv c => Validator.Check dv c.1 c.2) dv checks.

(** The value last checked under a description. *)
Definition lastChecked (checks : list (string * option Errs.any))
    (desc : string) : option (option Errs.any) :=
  snd <$> last (filter (fun c => c.1 = desc) checks).

(** No key of the token cache holds a space. *)
Definition spaceFree (cache : gmap string OAuth2.TokenAccess) : Prop :=
  forall k, is_Some (cache !! k) -> OAuth2.Contains k OAuth2.space = false.

(** The token [authenticate] caches for a decoded reply read at [now]. *)
Definition stamped (decoded : OAuth2.TokenAccess) (now : Time)
  : OAuth2.TokenAccess :=
  {| OAuth2.AccessToken := OAuth2.AccessToken decoded;
     OAuth2.TokenType := OAuth2.TokenType decoded;
     OAuth2.ExpiresIn := OAuth2.ExpiresIn decoded;
     OAuth2.RefreshToken := OAuth2.RefreshToken decoded;
     OAuth2.Scope := OAuth2.Scope decoded;
     OAuth2.LastAuthentication := Some (now - 5 * Second) |}.

(** Every step of an exchange went well. *)
Definition wentWell (x : OAuth2.Exchange) : Prop :=
  is_Some (OAuth2.urlParse x) /\ OAuth2.newRequest x = true /\
  OAuth2.clientDo x = true /\
  (exists reader,
     OAuth2.DecompressResponse (OAuth2.ContentEncoding x)
       (OAuth2.gzipNewReader x) = inl reader) /\
  OAuth2.readAll x = true /\ OAuth2.StatusCode x = 200 /\
  is_Some (OAuth2.unmarshal x).

(** Every subscriber of the loader is an open channel, none is there
    twice, and every other channel is closed; no buffer is over its
    capacity. *)
Definition subscribed {T} (st : Config.Loader T * gmap positive (Config.Chan T))
  : Prop :=
  NoDup (Config.subscribers st.1) /\
  (forall ch, ch ∈ Config.subscribers st.1 -> is_Some (st.2 !! ch)) /\
  (forall ch c, st.2 !! ch = Some c ->
     (Config.closed c = false <-> ch ∈ Config.subscribers st.1) /\
     GoInt.len (Config.buffer c) <= 10).

(** A channel after an event was offered to it. *)
Definition push {T} (event : Config.ConfigChangeEvent T) (c : Config.Chan T)
  : Config.Chan T :=
  if decide (GoInt.len (Config.buffer c) < 10)
  then {| Config.buffer := Config.buffer c ++ [event];
          Config.closed := Config.closed c |}
  else c.

(** The channels [chans'] are [chans] after [event] was offered to the
    channels [subs] and to no other. *)
Definition delivered {T} (event : Config.ConfigChangeEvent T)
    (subs : list positive) (chans chans' : gmap positive (Config.Chan T))
  : Prop :=
  forall ch,
    chans' !! ch
    = if decide (ch ∈ subs) then push event <$> chans !! ch else chans !! ch.

(** The calls of a client of the loader, made one after another. *)
Inductive Call (T : Type) :=
| CallLoad (v : Config.Read T)
| CallLoadWithValidation (validator : option (T -> option Errs.error))
    (v : Config.Read T)
| CallReload (v : Config.Read T) (now : Time)
| CallSubscribe
| CallUnsubscribe (ch : positive)
| CallStop
| CallReceive (ch : positive).

Arguments CallLoad {T}.
Arguments CallLoadWithValidation {T}.
Arguments CallReload {T}.
Arguments CallSubscribe {T}.
Arguments CallUnsubscribe {T}.
Arguments CallStop {T}.
Arguments CallReceive {T}.

Definition call {T} (c : Call T)
    (st : Config.Loader T * gmap positive (Config.Chan T))
  : option (Config.Loader T * gmap positive (Config.Chan T)) :=
  match c with
  | CallLoad v => Some ((Config.Load st.1 v).1.2, st.2)
  | CallLoadWithValidation validator v =>
      Some ((Config.LoadWithValidation st.1 validator v).1.2, st.2)
  | CallReload v now =>
      r ← (Config.Reload st.1 v now st.2).1; Some (r.1.2, r.2)
  | CallSubscribe =>
      Some ((Config.Subscribe st.1 st.2).1.2, (Config.Subscribe st.1 st.2).2)
  | CallUnsubscribe ch => Config.Unsubscribe st.1 ch st.2
  | CallStop => Config.Stop st.1 st.2
  | CallReceive ch => Some (st.1, Config.receive st.2 ch)
  end.

Fixpoint calls {T} (cs : list (Call T))
    (st : Config.Loader T * gmap positive (Config.Chan T))
  : option (Config.Loader T * gmap positive (Config.Chan T)) :=
  match cs with
  | [] => Some st
  | c :: rest =>
      match call c st with
      | Some st' => calls rest st'
      | None => None
      end
  end.

End Coverage.
Import HitCount Design.

(** * Properties *)

(** ** Machine integers and time *)

Lemma wrap_small z : is_int z -> wrap z = z.
Proof.
  unfold wrap, is_int, int_min, int_max. intros Hz.
  rewrite Z.mod_small; lia.
Qed.

(** [wrap z = z] when the context bounds [z] within the range of [int]. *)
Ltac no_overflow :=
  apply wrap_small; unfold is_int, int_min, int_max, len in *; lia.

Lemma wrap_is_int z : is_int (wrap z).
Proof.
  unfold wrap, is_int, int_min, int_max.
  pose proof (Z.mod_pos_bound (z + 2 ^ 63) (2 ^ 64)). lia.
Qed.

Lemma wrap_succ_wrap z : wrap (wrap z + 1) = wrap (z + 1).
Proof.
  unfold wrap.
  replace ((z + 2 ^ 63) mod 2 ^ 64 - 2 ^ 63 + 1 + 2 ^ 63)
    with ((z + 2 ^ 63) mod 2 ^ 64 + 1) by lia.
  replace (z + 1 + 2 ^ 63) with ((z + 2 ^ 63) + 1) by lia.
  rewrite Zplus_mod_idemp_l. reflexivity.
Qed.

(** Two integers have the same stored value exactly when they differ by a
    multiple of [2^64]. *)
Lemma wrap_eq_inv a b : wrap a = wrap b -> exists k, a = b + k * 2 ^ 64.
Proof.
  unfold wrap. intros H.
  assert (Hm : (a + 2 ^ 63) mod 2 ^ 64 = (b + 2 ^ 63) mod 2 ^ 64) by lia.
  exists ((a + 2 ^ 63) / 2 ^ 64 - (b + 2 ^ 63) / 2 ^ 64).
  pose proof (Z.div_mod (a + 2 ^ 63) (2 ^ 64)).
  pose proof (Z.div_mod (b + 2 ^ 63) (2 ^ 64)). lia.
Qed.

Lemma index_Some {A} (s : list A) i x :
  index s i = Some x <-> 0 <= i /\ s !! Z.to_nat i = Some x.
Proof.
  unfold index. case_decide.
  - split; [done | lia].
  - split; [intros; split; [lia | done] | by intros [_ ?]].
Qed.

Lemma index_lt_len {A} (s : list A) i :
  0 <= i < len s -> exists x, index s i = Some x.
Proof.
  intros [H0 H1]. unfold index, len in *.
  case_decide; [lia|].
  apply lookup_lt_is_Some_2. lia.
Qed.

Lemma index_Some_lt {A} (s : list A) i x :
  index s i = Some x -> 0 <= i < len s.
Proof.
  intros [H0 H1]%index_Some. apply lookup_lt_Some in H1.
  unfold len. lia.
Qed.

Lemma Since_exact now t :
  minDuration <= now - t <= maxDuration -> Since now t = now - t.
Proof. unfold Since, Sub. intros H. repeat case_decide; lia. Qed.

(** ** One call of the hit-count [processKnock], branch by branch *)

Section Calls.

Variable S : list KnockStep.
Variable T : Duration.

Implicit Types (m : gmap string ClientState) (st : ClientState).

Lemma processKnock_absent ts tn ip port m :
  m !! ip = None ->
  processKnock S T ts tn ip port m
  = advance S tn ip port zeroState (<[ip := zeroState]> m).
Proof. intros H. unfold processKnock, lookupOrReset. by rewrite H. Qed.

Lemma processKnock_expired ts tn ip port m st :
  m !! ip = Some st -> Since ts (LastKnock st) > T ->
  processKnock S T ts tn ip port m
  = advance S tn ip port zeroState (<[ip := zeroState]> m).
Proof.
  intros H Hexp. unfold processKnock, lookupOrReset. rewrite H.
  by case_decide.
Qed.

Lemma processKnock_live ts tn ip port m st :
  m !! ip = Some st -> Since ts (LastKnock st) <= T ->
  processKnock S T ts tn ip port m = advance S tn ip port st m.
Proof.
  intros H Hlive. unfold processKnock, lookupOrReset. rewrite H.
  case_decide; [lia | done].
Qed.

Lemma advance_dropped tn ip port st m :
  StepIndex st >= len S ->
  advance S tn ip port st m = Some (delete ip m, []).
Proof. intros H. unfold advance. by case_decide. Qed.

Lemma advance_mismatch tn ip port st m step :
  index S (StepIndex st) = Some step -> port <> Port step ->
  advance S tn ip port st m
  = Some (delete ip m, [LogInvalidKnock ip port (Port step)]).
Proof.
  intros Hi Hp. unfold advance.
  pose proof (index_Some_lt _ _ _ Hi).
  case_decide; [lia|]. rewrite Hi. simpl. by case_decide.
Qed.

Lemma advance_progress tn ip st m step :
  index S (StepIndex st) = Some step ->
  wrap (HitCount st + 1) <> Count step ->
  advance S tn ip (Port step) st m
  = Some (<[ip := {| StepIndex := StepIndex st;
                     HitCount := wrap (HitCount st + 1);
                     LastKnock := tn |}]> m,
          [LogKnockOK ip (Port step) (wrap (HitCount st + 1)) (Count step)
             (wrap (StepIndex st + 1)) (len S)]).
Proof.
  intros Hi Hc. unfold advance.
  pose proof (index_Some_lt _ _ _ Hi).
  case_decide; [lia|]. rewrite Hi. simpl.
  case_decide; [|done]. by case_decide.
Qed.

Lemma advance_step tn ip st m step :
  index S (StepIndex st) = Some step ->
  wrap (HitCount st + 1) = Count step ->
  wrap (StepIndex st + 1) <> len S ->
  advance S tn ip (Port step) st m
  = Some (<[ip := {| StepIndex := wrap (StepIndex st + 1);
                     HitCount := 0;
                     LastKnock := tn |}]> m,
          [LogKnockOK ip (Port step) (wrap (HitCount st + 1)) (Count step)
             (wrap (StepIndex st + 1)) (len S)]).
Proof.
  intros Hi Hc Hl. unfold advance.
  pose proof (index_Some_lt _ _ _ Hi).
  case_decide; [lia|]. rewrite Hi. simpl.
  case_decide; [|done]. case_decide; [|done]. by case_decide.
Qed.

Lemma advance_complete tn ip st m step :
  index S (StepIndex st) = Some step ->
  wrap (HitCount st + 1) = Count step ->
  wrap (StepIndex st + 1) = len S ->
  advance S tn ip (Port step) st m
  = Some (delete ip m,
          [LogKnockOK ip (Port step) (wrap (HitCount st + 1)) (Count step)
             (wrap (StepIndex st + 1)) (len S);
           LogAccessGranted ip; PrintOK]).
Proof.
  intros Hi Hc Hl. unfold advance.
  pose proof (index_Some_lt _ _ _ Hi).
  case_decide; [lia|]. rewrite Hi. simpl.
  case_decide; [|done]. case_decide; [|done]. by case_decide.
Qed.

End Calls.

(** ** A call only touches the entry of its own address *)

Section Frame.

Variable S : list KnockStep.
Variable T : Duration.

Implicit Types (m : gmap string ClientState) (st : ClientState).

Lemma advance_store tn ip port st m m' ev :
  advance S tn ip port st m = Some (m', ev) ->
  exists o, m' = store ip o m /\
    forall m2, advance S tn ip port st m2 = Some (store ip o m2, ev).
Proof.
  unfold advance. intros H.
  repeat (case_decide || case_match || simplify_option_eq);
    (by eexists None) || (by eexists (Some _)).
Qed.

(** The effect of a call is a store under [ip] that depends on the map
    through the entry of [ip] alone. *)
Lemma processKnock_store ts tn ip port m m' ev :
  processKnock S T ts tn ip port m = Some (m', ev) ->
  exists o, m' = store ip o m /\
    forall m2, m2 !! ip = m !! ip ->
      processKnock S T ts tn ip port m2 = Some (store ip o m2, ev).
Proof.
  unfold processKnock, lookupOrReset. intros H.
  destruct (m !! ip) as [st|] eqn:Hm; [case_decide|].
  all: apply advance_store in H as (o & -> & Ho); exists o.
  all: split;
    [destruct o; simpl; by rewrite ?insert_insert_eq, ?delete_insert_eq|].
  all: intros m2 ->; try (case_decide; [|lia]); try (case_decide; [lia|]).
  all: rewrite Ho; destruct o; simpl;
    by rewrite ?insert_insert_eq, ?delete_insert_eq.
Qed.

Lemma store_lookup_ne ip o m B : B <> ip -> store ip o m !! B = m !! B.
Proof.
  intros Hne. destruct o; simpl;
    [by rewrite lookup_insert_ne | by rewrite lookup_delete_ne].
Qed.

Lemma store_lookup_eq ip o m : store ip o m !! ip = o.
Proof.
  destruct o; simpl; [by rewrite lookup_insert_eq | by rewrite lookup_delete_eq].
Qed.

Lemma processKnock_frame ts tn ip port m m' ev B :
  processKnock S T ts tn ip port m = Some (m', ev) ->
  B <> ip -> m' !! B = m !! B.
Proof.
  intros (o & -> & _)%processKnock_store Hne. by apply store_lookup_ne.
Qed.

(** Dropping the knocks of the other addresses from a run changes
    nothing for [A]. *)
Lemma run_knocksOf A ks : forall m1 m2 m1' evs,
  m1 !! A = m2 !! A ->
  run S T ks m1 = Some (m1', evs) ->
  exists m2' evs', run S T (knocksOf A ks) m2 = Some (m2', evs') /\
                   m2' !! A = m1' !! A.
Proof.
  induction ks as [|k ks IH]; intros m1 m2 m1' evs Heq Hrun; simpl in Hrun.
  - simplify_eq. exists m2, []. by split.
  - destruct (processKnock' S T k m1) as [[ma ev]|] eqn:Hk; [|done].
    simpl in Hrun.
    destruct (run S T ks ma) as [[mb evs0]|] eqn:Hrest; [|done].
    simpl in Hrun. simplify_eq.
    unfold knocksOf. rewrite filter_cons. case_decide as Hip.
    + unfold processKnock' in Hk.
      apply processKnock_store in Hk as (o & -> & Ho).
      rewrite Hip in Ho. specialize (Ho m2 (eq_sym Heq)).
      destruct (IH (store (k_ip k) o m1) (store A o m2) m1' evs0)
        as (m2' & evs' & Hrun2 & Hlook); [|done|].
      { rewrite Hip. by rewrite !store_lookup_eq. }
      exists m2', (ev :: evs'). split; [|done].
      simpl. unfold processKnock'. rewrite Hip, Ho. simpl.
      fold (knocksOf A ks). by rewrite Hrun2.
    + unfold processKnock' in Hk.
      apply (IH ma m2 m1' evs0); [|done].
      rewrite (processKnock_frame _ _ _ _ _ _ _ A Hk); [done|congruence].
Qed.

(** C5: a call [processKnock(ip, port)] leaves the resident entry of
    every other address as it was, and the entry an address ends a run
    with is the one it would have had without the knocks of the other
    addresses interleaved. *)
Theorem other_addresses_untouched :
  (forall ts tn ip port m m' ev B,
      processKnock S T ts tn ip port m = Some (m', ev) ->
      B <> ip -> m' !! B = m !! B) /\
  (forall A ks m m' evs,
      run S T ks m = Some (m', evs) ->
      exists m'' evs', run S T (knocksOf A ks) m = Some (m'', evs') /\
                       m'' !! A = m' !! A).
Proof.
  split.
  - intros. by eapply processKnock_frame.
  - intros A ks m m' evs Hrun. by eapply run_knocksOf.
Qed.

End Frame.

(** ** Mismatch, expiry and the guard on the step index *)

(** C2: for a resident, live state of [A] that has a current step, a
    knock on any other port returns normally, logs the invalid knock and
    nothing else (outcome [Mismatch]), and removes the entry of [A],
    whatever its step index and hit count were.  The next knock from [A]
    is then evaluated on the zero state: step index 0, hit count 0. *)
Theorem mismatch_clears_progress S T ts tn A port m st step :
  m !! A = Some st ->
  Since ts (LastKnock st) <= T ->
  index S (StepIndex st) = Some step ->
  port <> Port step ->
  exists m' ev,
    processKnock S T ts tn A port m = Some (m', ev) /\
    outcome ev = Some Mismatch /\
    ev = [LogInvalidKnock A port (Port step)] /\
    m' = delete A m /\
    m' !! A = None /\
    forall ts' tn' port',
      processKnock S T ts' tn' A port' m'
      = advance S tn' A port' zeroState (<[A := zeroState]> m').
Proof.
  intros Hm Hlive Hstep Hport.
  exists (delete A m), [LogInvalidKnock A port (Port step)].
  split; [|split; [done|split; [done|split; [done|split]]]].
  - rewrite (processKnock_live _ _ _ _ _ _ _ _ Hm Hlive).
    by apply advance_mismatch.
  - apply lookup_delete_eq.
  - intros ts' tn' port'. apply processKnock_absent, lookup_delete_eq.
Qed.

(** C3: when the time since the last knock of a resident state exceeds
    the timeout, the call does what it does for an address without state,
    a fresh start at step index 0 and hit count 0; when it equals the
    timeout the resident state is the one advanced.  With the configured
    sequence and a timeout of 5s, knocks on 7001 at 0s and 6s leave a hit
    count of 1, knocks at 0s and 5s a hit count of 2. *)
Theorem timeout_gives_fresh_start S T ts tn A port m st :
  m !! A = Some st ->
  (Since ts (LastKnock st) > T ->
   processKnock S T ts tn A port m
   = processKnock S T ts tn A port (delete A m) /\
   processKnock S T ts tn A port m
   = advance S tn A port zeroState (<[A := zeroState]> m)) /\
  (Since ts (LastKnock st) = T ->
   processKnock S T ts tn A port m = advance S tn A port st m) /\
  (forall tn0 tn1,
      run knockSequence (5 * Second)
        [ {| k_since := 0; k_now := tn0; k_ip := A; k_port := 7001 |};
          {| k_since := tn0 + 6 * Second; k_now := tn1;
             k_ip := A; k_port := 7001 |} ] ∅
      = Some ({[ A := {| StepIndex := 0; HitCount := 1; LastKnock := tn1 |} ]},
              [ [LogKnockOK A 7001 1 3 1 3]; [LogKnockOK A 7001 1 3 1 3] ]) /\
      run knockSequence (5 * Second)
        [ {| k_since := 0; k_now := tn0; k_ip := A; k_port := 7001 |};
          {| k_since := tn0 + 5 * Second; k_now := tn1;
             k_ip := A; k_port := 7001 |} ] ∅
      = Some ({[ A := {| StepIndex := 0; HitCount := 2; LastKnock := tn1 |} ]},
              [ [LogKnockOK A 7001 1 3 1 3]; [LogKnockOK A 7001 2 3 1 3] ])).
Proof.
  intros Hm. split; [|split].
  - intros Hexp. split.
    + rewrite (processKnock_expired _ _ _ _ _ _ _ _ Hm Hexp).
      rewrite processKnock_absent by apply lookup_delete_eq.
      by rewrite insert_delete_eq.
    + by apply (processKnock_expired _ _ _ _ _ _ _ _ Hm Hexp).
  - intros Heq. apply (processKnock_live _ _ _ _ _ _ _ _ Hm). lia.
  - intros tn0 tn1.
    assert (Hfirst :
      processKnock' knockSequence (5 * Second)
        {| k_since := 0; k_now := tn0; k_ip := A; k_port := 7001 |} ∅
      = Some ({[ A := {| StepIndex := 0; HitCount := 1; LastKnock := tn0 |} ]},
              [LogKnockOK A 7001 1 3 1 3])).
    { unfold processKnock'. simpl.
      rewrite processKnock_absent by apply lookup_empty.
      rewrite (advance_progress _ _ _ _ _ {| Port := 7001; Count := 3 |});
        [|done|done].
      by rewrite insert_insert_eq. }
    split; simpl run; rewrite Hfirst; simpl; unfold processKnock'; simpl.
    + erewrite processKnock_expired;
        [|apply lookup_singleton_eq|simpl; rewrite Since_exact;
          unfold minDuration, maxDuration, Second; lia].
      rewrite (advance_progress _ _ _ _ _ {| Port := 7001; Count := 3 |});
        [|done|done].
      simpl. by rewrite !insert_insert_eq, insert_singleton_eq.
    + erewrite processKnock_live;
        [|apply lookup_singleton_eq|simpl; rewrite Since_exact;
          unfold minDuration, maxDuration, Second; lia].
      rewrite (advance_progress _ _ _ _ _ {| Port := 7001; Count := 3 |});
        [|done|done].
      simpl. by rewrite insert_singleton_eq.
Qed.

(** C7, as stated, fails: at the end of the configured sequence a live
    resident state makes the call delete the entry and return, where an
    address without state would have its knock on 7001 counted. *)
Lemma guard_drops_the_knock :
  let m : gmap string ClientState :=
    {[ "10.0.0.1" := {| StepIndex := 3; HitCount := 0; LastKnock := 0 |} ]} in
  processKnock knockSequence timeout 1 1 "10.0.0.1" 7001 m = Some (∅, []) /\
  processKnock knockSequence timeout 1 1 "10.0.0.1" 7001 (delete "10.0.0.1" m)
  = Some ({[ "10.0.0.1" := {| StepIndex := 0; HitCount := 1; LastKnock := 1 |} ]},
          [LogKnockOK "10.0.0.1" 7001 1 3 1 3]) /\
  ~ stalePastEndIsAbsent knockSequence timeout.
Proof.
  intros m.
  assert (H1 : processKnock knockSequence timeout 1 1 "10.0.0.1" 7001 m = Some (∅, [])).
  { by vm_compute. }
  assert (H2 : processKnock knockSequence timeout 1 1 "10.0.0.1" 7001 (delete "10.0.0.1" m)
  = Some ({[ "10.0.0.1" := {| StepIndex := 0; HitCount := 1; LastKnock := 1 |} ]},
          [LogKnockOK "10.0.0.1" 7001 1 3 1 3])).
  { by vm_compute. }
  split; [done|split; [done|]].
  intros Habs.
  specialize (Habs 1 1 "10.0.0.1" 7001 m _ (lookup_singleton_eq _ _) eq_refl).
  rewrite H1, H2 in Habs. discriminate Habs.
Qed.


(** C7 (amended): when [processKnock] reads a resident state whose step
    index is at or past the end of the sequence and that has not timed
    out, it deletes the entry and returns: the knock is dropped, nothing
    is logged.  It is the next knock from the address that is evaluated
    on the zero state.  A state that has timed out is reset first, and
    the knock is then evaluated on the zero state. *)
Theorem stale_state_deleted_knock_dropped S T ts tn A port m st :
  m !! A = Some st ->
  StepIndex st >= len S ->
  (Since ts (LastKnock st) <= T ->
   processKnock S T ts tn A port m = Some (delete A m, []) /\
   outcome [] = Some Dropped /\
   forall ts' tn' port',
     processKnock S T ts' tn' A port' (delete A m)
     = advance S tn' A port' zeroState (<[A := zeroState]> (delete A m))) /\
  (Since ts (LastKnock st) > T ->
   processKnock S T ts tn A port m
   = advance S tn A port zeroState (<[A := zeroState]> m)).
Proof.
  intros Hm Hpast. split.
  - intros Hlive. split; [|split; [done|]].
    + rewrite (processKnock_live _ _ _ _ _ _ _ _ Hm Hlive).
      by apply advance_dropped.
    + intros ts' tn' port'. apply processKnock_absent, lookup_delete_eq.
  - intros Hexp. by apply (processKnock_expired _ _ _ _ _ _ _ _ Hm Hexp).
Qed.

(** ** The invariant of the tracker map *)

Section Invariant.
Variable S : list KnockStep.
Variable T : Duration.
Hypothesis HS : wellFormed S.
Implicit Types (m : gmap string ClientState) (st : ClientState).

Lemma zeroState_ok : residentOK S zeroState.
Proof.
  destruct HS as (Hne & Hlen & Hall).
  destruct S as [|step0 rest]; [done|].
  split; [unfold len; simpl; lia|].
  exists step0. split; [done|].
  apply Forall_cons in Hall as [? _]. simpl. lia.
Qed.

Lemma index_Forall {A} (P : A -> Prop) (l : list A) i x :
  Forall P l -> index l i = Some x -> P x.
Proof.
  intros Hall [_ Hl]%index_Some. by eapply Forall_lookup_1.
Qed.

Lemma advance_invariant tn ip port st m :
  residentOK S st -> invariant S m ->
  exists m' ev, advance S tn ip port st m = Some (m', ev) /\
                invariant S m' /\
                (granted ev <> [] -> m' !! ip = None).
Proof.
  intros (Hidx & step & Hstep & Hhit) Hinv.
  destruct HS as (Hne & Hlen & Hall).
  pose proof (index_Forall _ _ _ _ Hall Hstep) as Hcount. simpl in Hcount.
  assert (Hw : wrap (HitCount st + 1) = HitCount st + 1).
  { no_overflow. }
  assert (Hwi : wrap (StepIndex st + 1) = StepIndex st + 1).
  { no_overflow. }
  destruct (decide (port = Port step)) as [->|Hport].
  - destruct (decide (HitCount st + 1 = Count step)) as [Hfull|Hpart].
    + destruct (decide (StepIndex st + 1 = len S)) as [Hend|Hmore].
      * eexists _, _. split; [apply advance_complete; [done|lia|lia]|].
        split; [by apply map_Forall_delete|].
        intros _. apply lookup_delete_eq.
      * eexists _, _. split; [apply advance_step; [done|lia|lia]|].
        split; [|done].
        apply map_Forall_insert_2; [|done].
        rewrite Hwi.
        destruct (index_lt_len S (StepIndex st + 1)) as [step' Hstep'];
          [lia|].
        pose proof (index_Forall _ _ _ _ Hall Hstep') as Hc'. simpl in Hc'.
        split; simpl; [lia|]. exists step'. split; [done|lia].
    + eexists _, _. split; [apply advance_progress; [done|lia]|].
      split; [|done].
      apply map_Forall_insert_2; [|done].
      split; simpl; [lia|]. exists step. split; [done|lia].
  - eexists _, _. split; [by apply advance_mismatch|].
    split; [by apply map_Forall_delete|done].
Qed.

Lemma processKnock_invariant ts tn ip port m :
  invariant S m ->
  exists m' ev, processKnock S T ts tn ip port m = Some (m', ev) /\
                invariant S m' /\
                (granted ev <> [] -> m' !! ip = None).
Proof.
  intros Hinv. unfold processKnock, lookupOrReset.
  destruct (m !! ip) as [st|] eqn:Hm; [case_decide|].
  - apply advance_invariant; [apply zeroState_ok|].
    apply map_Forall_insert_2; [apply zeroState_ok|done].
  - apply advance_invariant; [|done]. by apply (Hinv ip).
  - apply advance_invariant; [apply zeroState_ok|].
    apply map_Forall_insert_2; [apply zeroState_ok|done].
Qed.

Lemma run_invariant ks : forall m,
  invariant S m ->
  exists m' evs, run S T ks m = Some (m', evs) /\ invariant S m'.
Proof.
  induction ks as [|k ks IH]; intros m Hinv; simpl.
  - by exists m, [].
  - destruct (processKnock_invariant (k_since k) (k_now k) (k_ip k) (k_port k) m Hinv)
      as (m1 & ev & Hk & Hinv1 & _).
    unfold processKnock'. rewrite Hk. simpl.
    destruct (IH m1 Hinv1) as (m2 & evs & Hrun & Hinv2).
    rewrite Hrun. simpl. by exists m2, (ev :: evs).
Qed.
(** C4: for a well-formed sequence, from the empty map the program starts
    with, every call returns and every state resident after it has
    [StepIndex < len(knockSequence)] and a hit count between 0 and the
    count of its step minus one; a call that grants access leaves no
    entry for the address. *)
Theorem resident_states_within_bounds :
  (forall ts tn ip port m,
      invariant S m ->
      exists m' ev, processKnock S T ts tn ip port m = Some (m', ev) /\
                    invariant S m' /\
                    (granted ev <> [] -> m' !! ip = None)) /\
  (forall ks, exists m' evs,
      run S T ks ∅ = Some (m', evs) /\ invariant S m').
Proof.
  split.
  - intros. by apply processKnock_invariant.
  - intros ks. apply run_invariant. apply map_Forall_empty.
Qed.

End Invariant.

(** ** Knocking the exact sequence *)

Section ExactRun.
Variable S : list KnockStep.
Variable T : Duration.
Variable A : string.
Hypothesis HS : wellFormed S.
Implicit Types (m : gmap string ClientState) (st : ClientState).

Lemma processKnock_ready ts tn port st m :
  ready T A ts st m ->
  processKnock S T ts tn A port m = advance S tn A port st (<[A := st]> m).
Proof.
  intros [[Hm ->]|[Hm Hlive]].
  - by apply processKnock_absent.
  - rewrite (processKnock_live _ _ _ _ _ _ _ _ Hm Hlive).
    by rewrite insert_id.
Qed.

Lemma index_middle (pre rest : list KnockStep) step :
  index (pre ++ step :: rest) (len pre) = Some step.
Proof.
  apply index_Some. split; [unfold len; lia|].
  unfold len. rewrite Nat2Z.id. by apply list_lookup_middle.
Qed.

Lemma exactTrace_last S' :
  S' <> [] ->
  exists body, exactTrace S' = body ++ [SequenceComplete] /\
               SequenceComplete ∉ body.
Proof.
  induction S' as [|step rest IH]; [done|]. intros _.
  destruct rest as [|step2 rest'].
  - exists (replicate (Z.to_nat (Count step) - 1) Progressed). split; [reflexivity|].
    intros [? _]%elem_of_replicate. done.
  - destruct IH as (body & Hbody & Hnot); [done|].
    exists (replicate (Z.to_nat (Count step) - 1) Progressed
              ++ StepComplete :: body).
    split.
    + change (exactTrace (step :: step2 :: rest'))
        with (replicate (Z.to_nat (Count step) - 1) Progressed
                ++ StepComplete :: exactTrace (step2 :: rest')).
      rewrite Hbody. by rewrite <- app_assoc.
    + rewrite elem_of_app, elem_of_cons, elem_of_replicate.
      intros [[? _]|[?|?]]; done.
Qed.

Lemma run_cons_Some k ks m m1 ev m2 evs :
  processKnock' S T k m = Some (m1, ev) ->
  run S T ks m1 = Some (m2, evs) ->
  run S T (k :: ks) m = Some (m2, ev :: evs).
Proof. intros Hk Hrun. simpl. rewrite Hk. simpl. by rewrite Hrun. Qed.

Lemma outcomes_cons ev (evs : list (list Event)) :
  outcome <$> ev :: evs = outcome ev :: (outcome <$> evs).
Proof. reflexivity. Qed.

Lemma grants_cons ev (evs : list (list Event)) :
  mjoin (granted <$> ev :: evs) = granted ev ++ mjoin (granted <$> evs).
Proof. reflexivity. Qed.

Lemma exact_from rest : forall pre step n ks m st k,
  S = pre ++ step :: rest ->
  StepIndex st = len pre ->
  0 <= HitCount st ->
  HitCount st + Z.of_nat n + 1 = Count step ->
  ready T A (k_since k) st m ->
  timely T (k :: ks) ->
  Forall (fun k => k_ip k = A) (k :: ks) ->
  k_port <$> (k :: ks) = replicate (Datatypes.S n) (Port step) ++ knockPorts rest ->
  exists evs,
    run S T (k :: ks) m = Some (delete A m, evs) /\
    outcome <$> evs
    = Some <$> (replicate n Progressed ++
                match rest with
                | [] => [SequenceComplete]
                | _ :: _ => StepComplete :: exactTrace rest
                end) /\
    mjoin (granted <$> evs) = [A].
Proof.
  destruct HS as (Hne & Hlen & Hall).
  induction rest as [|step2 rest' IHrest];
    intros pre step n; induction n as [|n IHn];
    intros ks m st k HSeq Hidx Hh0 Hcount Hready [Hnext Htimely]
      [Hip Hips]%Forall_cons Hports.
  all: assert (Hstep : index S (StepIndex st) = Some step)
         by (rewrite HSeq, Hidx; apply index_middle).
  all: pose proof (index_Forall _ _ _ _ Hall Hstep) as Hc; simpl in Hc.
  all: assert (Hw : wrap (HitCount st + 1) = HitCount st + 1)
         by no_overflow.
  all: assert (Hlenpre : (len pre + 1 <= len S))
         by (rewrite HSeq; unfold len; rewrite length_app; simpl; lia).
  all: assert (Hwi : wrap (StepIndex st + 1) = StepIndex st + 1)
         by no_overflow.
  all: simpl in Hports; injection Hports as Hport Hports.
  all: assert (Hcall : processKnock' S T k m
                       = advance S (k_now k) A (Port step) st (<[A := st]> m))
         by (unfold processKnock'; rewrite Hip, Hport;
             by apply processKnock_ready).
  - (* last hit of the last step *)
    assert (ks = []) as -> by (by destruct ks).
    rewrite advance_complete in Hcall; [|done|lia|].
    2:{ rewrite Hwi, Hidx, HSeq. unfold len. rewrite length_app. simpl. lia. }
    rewrite delete_insert_eq in Hcall.
    eexists. split; [by eapply run_cons_Some|].
    rewrite Hw. simpl. split; [|done]. f_equal.
  - (* a hit short of the end of the last step *)
    destruct ks as [|k2 ks']; [done|].
    rewrite advance_progress, insert_insert_eq in Hcall; [|done|lia].
    set (st' := {| StepIndex := StepIndex st;
                   HitCount := wrap (HitCount st + 1);
                   LastKnock := k_now k |}) in Hcall.
    destruct (IHn ks' (<[A := st']> m) st' k2) as (evs & Hrun & Htrace & Hgr);
      [done|done|simpl; lia|simpl; lia
      |right; split; [apply lookup_insert_eq|exact Hnext]
      |done|done|done|].
    rewrite delete_insert_eq in Hrun.
    eexists. split; [by eapply run_cons_Some|].
    rewrite outcomes_cons, grants_cons, Htrace, Hgr. split; [|done].
    simpl. f_equal. case_decide; [lia|done].
  - (* last hit of a step that is not the last *)
    assert (Hc2 : 1 <= Count step2 <= int_max).
    { rewrite HSeq in Hall. apply Forall_app in Hall as [_ Hall].
      apply Forall_cons in Hall as [_ Hall].
      by apply Forall_cons in Hall as [? _]. }
    assert (Hlen2 : len pre + 2 <= len S).
    { rewrite HSeq. unfold len. rewrite length_app. simpl. lia. }
    rewrite advance_step, insert_insert_eq in Hcall; [|done|lia|lia].
    change (knockPorts (step2 :: rest'))
      with (replicate (Z.to_nat (Count step2)) (Port step2) ++ knockPorts rest')
      in Hports.
    destruct (Z.to_nat (Count step2)) as [|n2] eqn:Hn2; [lia|].
    destruct ks as [|k2 ks']; [done|].
    set (st' := {| StepIndex := wrap (StepIndex st + 1);
                   HitCount := 0;
                   LastKnock := k_now k |}) in Hcall.
    destruct (IHrest (pre ++ [step]) step2 n2 ks' (<[A := st']> m) st' k2)
      as (evs & Hrun & Htrace & Hgr);
      [by rewrite <- app_assoc| |done|simpl; lia
      |right; split; [apply lookup_insert_eq|exact Hnext]
      |done|done|done|].
    { simpl. rewrite Hwi, Hidx. unfold len. rewrite length_app. simpl. lia. }
    rewrite delete_insert_eq in Hrun.
    eexists. split; [by eapply run_cons_Some|].
    rewrite outcomes_cons, grants_cons, Htrace, Hgr. split; [|done].
    simpl. f_equal; [case_decide; [done|lia]|].
    rewrite Hn2. simpl. by rewrite Nat.sub_0_r.
  - (* a hit short of the end of a step that is not the last *)
    destruct ks as [|k2 ks']; [done|].
    rewrite advance_progress, insert_insert_eq in Hcall; [|done|lia].
    set (st' := {| StepIndex := StepIndex st;
                   HitCount := wrap (HitCount st + 1);
                   LastKnock := k_now k |}) in Hcall.
    destruct (IHn ks' (<[A := st']> m) st' k2) as (evs & Hrun & Htrace & Hgr);
      [done|done|simpl; lia|simpl; lia
      |right; split; [apply lookup_insert_eq|exact Hnext]
      |done|done|done|].
    rewrite delete_insert_eq in Hrun.
    eexists. split; [by eapply run_cons_Some|].
    rewrite outcomes_cons, grants_cons, Htrace, Hgr. split; [|done].
    simpl. f_equal. case_decide; [lia|done].
Qed.
End ExactRun.

(** C1: for a well-formed sequence and an address [A] without resident
    state, the knocks of [A] on exactly the ports of the sequence, each
    step hit its count of times, every knock within the timeout of the
    one before, make the run return with the expected outcomes: for the
    configured sequence Progressed, Progressed, StepComplete,
    StepComplete, Progressed, SequenceComplete.  [SequenceComplete] is
    the last outcome and occurs nowhere else, access is granted once, to
    [A], and [A] has no entry in the tracker map afterwards. *)
Theorem exact_knocks_grant_once S T A ks (m : gmap string ClientState) :
  wellFormed S ->
  m !! A = None ->
  Forall (fun k => k_ip k = A) ks ->
  k_port <$> ks = knockPorts S ->
  timely T ks ->
  exists m' evs,
    run S T ks m = Some (m', evs) /\
    outcome <$> evs = Some <$> exactTrace S /\
    (S = knockSequence ->
     outcome <$> evs
     = Some <$> [Progressed; Progressed; StepComplete;
                 StepComplete; Progressed; SequenceComplete]) /\
    (exists body, exactTrace S = body ++ [SequenceComplete] /\
                  SequenceComplete ∉ body) /\
    mjoin (granted <$> evs) = [A] /\
    m' !! A = None /\
    m' = m.
Proof.
  intros HS Hm Hips Hports Htimely.
  pose proof HS as (Hne & Hlen & Hall).
  destruct S as [|step rest] eqn:HSeq; [done|]. rewrite <- HSeq in *.
  assert (Hc : 1 <= Count step <= int_max).
  { rewrite HSeq in Hall. by apply Forall_cons in Hall as [? _]. }
  rewrite HSeq in Hports.
  change (knockPorts (step :: rest))
    with (replicate (Z.to_nat (Count step)) (Port step) ++ knockPorts rest)
    in Hports.
  destruct (Z.to_nat (Count step)) as [|n] eqn:Hn; [lia|].
  destruct ks as [|k ks0]; [done|].
  destruct (exact_from S T A HS rest [] step n ks0 m zeroState k)
    as (evs & Hrun & Htrace & Hgr);
    [done|done|done|simpl; lia|by left|done|done|done|].
  rewrite delete_id in Hrun by done.
  assert (Htr : outcome <$> evs = Some <$> exactTrace S).
  { rewrite Htrace, HSeq. simpl. rewrite Hn. simpl. by rewrite Nat.sub_0_r. }
  exists m, evs. split; [done|]. split; [done|].
  split; [intros ->; by rewrite Htr|].
  split; [by apply exactTrace_last|]. done.
Qed.

(** ** The single-hit server is the hit-count server with counts of 1 *)

Section Refinement.
Variable ports : list Z.
Variable T : Duration.
Hypothesis Hne : ports <> [].
Hypothesis Hlen : len ports <= int_max.

Lemma len_withCountOne : len (withCountOne ports) = len ports.
Proof. unfold len, withCountOne. by rewrite length_fmap. Qed.

Lemma index_withCountOne i p :
  index ports i = Some p ->
  index (withCountOne ports) i = Some {| Port := p; Count := 1 |}.
Proof.
  intros [H0 Hl]%index_Some. apply index_Some. split; [done|].
  unfold withCountOne. by rewrite list_lookup_fmap, Hl.
Qed.

Lemma lookupOrReset_embed ts ip m1 s1 m1' :
  SingleHit.lookupOrReset T ts ip m1 = (s1, m1') ->
  HitCount.lookupOrReset T ts ip (embed <$> m1) = (embed s1, embed <$> m1').
Proof.
  unfold SingleHit.lookupOrReset, HitCount.lookupOrReset.
  rewrite lookup_fmap. destruct (m1 !! ip) as [st|]; simpl.
  - case_decide; intros [= <- <-]; [|done].
    by rewrite fmap_insert.
  - intros [= <- <-]. by rewrite fmap_insert.
Qed.

Lemma lookupOrReset_inRange ts ip m1 s1 m1' :
  indexInRange ports m1 ->
  SingleHit.lookupOrReset T ts ip m1 = (s1, m1') ->
  0 <= SingleHit.Index s1 < len ports /\ indexInRange ports m1'.
Proof.
  intros Hinv. unfold SingleHit.lookupOrReset.
  assert (Hz : 0 <= SingleHit.Index SingleHit.zeroState < len ports).
  { destruct ports; [done|]. unfold len. simpl. lia. }
  destruct (m1 !! ip) as [st|] eqn:Hm; [case_decide|]; intros [= <- <-].
  - split; [done|]. by apply map_Forall_insert_2.
  - split; [|done]. by apply (Hinv ip).
  - split; [done|]. by apply map_Forall_insert_2.
Qed.

Lemma processKnock_simulation ts tn ip port m1 :
  indexInRange ports m1 ->
  exists m1' ev1 ev2,
    SingleHit.processKnock ports T ts tn ip port m1 = Some (m1', ev1) /\
    HitCount.processKnock (withCountOne ports) T ts tn ip port (embed <$> m1)
    = Some (embed <$> m1', ev2) /\
    decisions ev2 = decisions1 ev1 /\
    granted ev2 = SingleHit.granted ev1 /\
    indexInRange ports m1'.
Proof.
  intros Hinv.
  unfold SingleHit.processKnock, HitCount.processKnock.
  destruct (SingleHit.lookupOrReset T ts ip m1) as [s1 ma] eqn:Hlook.
  rewrite (lookupOrReset_embed _ _ _ _ _ Hlook).
  destruct (lookupOrReset_inRange _ _ _ _ _ Hinv Hlook) as [Hidx Hinva].
  destruct (index_lt_len ports (SingleHit.Index s1) Hidx) as [p Hp].
  rewrite Hp. simpl.
  unfold advance. simpl. rewrite len_withCountOne.
  destruct (decide (SingleHit.Index s1 >= len ports)) as [|_]; [lia|].
  rewrite (index_withCountOne _ _ Hp). simpl.
  assert (Hw : wrap (0 + 1) = 1) by done. rewrite Hw.
  destruct (decide (port = p)) as [->|Hport].
  - destruct (decide (wrap (SingleHit.Index s1 + 1) = len ports)) as [He|He].
    + eexists _, _, _. split; [done|]. split; [by rewrite fmap_delete|].
      split; [done|]. split; [done|]. by apply map_Forall_delete.
    + eexists _, _, _. split; [done|]. split; [by rewrite fmap_insert|].
      split; [done|]. split; [done|].
      apply map_Forall_insert_2; [|done]. simpl.
      rewrite wrap_small in *; unfold is_int, int_min, int_max in *; lia.
  - eexists _, _, _. split; [done|]. split; [by rewrite fmap_delete|].
    split; [done|]. split; [done|]. by apply map_Forall_delete.
Qed.

Lemma run_simulation ks : forall m1,
  indexInRange ports m1 ->
  exists m1' evs1 evs2,
    SingleHit.run ports T ks m1 = Some (m1', evs1) /\
    HitCount.run (withCountOne ports) T ks (embed <$> m1)
    = Some (embed <$> m1', evs2) /\
    decisions <$> evs2 = decisions1 <$> evs1 /\
    granted <$> evs2 = SingleHit.granted <$> evs1.
Proof.
  induction ks as [|k ks IH]; intros m1 Hinv.
  - by exists m1, [], [].
  - destruct (processKnock_simulation (k_since k) (k_now k) (k_ip k)
                (k_port k) m1 Hinv)
      as (ma & ev1 & ev2 & H1 & H2 & Hd & Hg & Hinva).
    destruct (IH ma Hinva) as (mb & evs1 & evs2 & Hr1 & Hr2 & Hds & Hgs).
    exists mb, (ev1 :: evs1), (ev2 :: evs2).
    split; [simpl; rewrite H1; simpl; by rewrite Hr1|].
    split; [simpl; unfold processKnock'; rewrite H2; simpl; by rewrite Hr2|].
    split; [by rewrite !fmap_cons, Hd, Hds|by rewrite !fmap_cons, Hg, Hgs].
Qed.

(** C6: on a non-empty sequence of ports and with the same timeout, any
    run of knocks from the empty map returns in both servers, the
    hit-count server being given the same ports with a count of 1; after
    the run the map of the hit-count server is the map of the single-hit
    server read with a hit count of 0 (same addresses, same indices, same
    stamps), and call by call the two servers grant access to, and
    reject, the same addresses.  The ports need not be pairwise distinct
    for this. *)
Theorem single_hit_is_count_one ks :
  exists m1 evs1 evs2,
    SingleHit.run ports T ks ∅ = Some (m1, evs1) /\
    HitCount.run (withCountOne ports) T ks ∅ = Some (embed <$> m1, evs2) /\
    decisions <$> evs2 = decisions1 <$> evs1 /\
    granted <$> evs2 = SingleHit.granted <$> evs1.
Proof.
  destruct (run_simulation ks ∅) as (m1 & evs1 & evs2 & H1 & H2 & Hd & Hg).
  { apply map_Forall_empty. }
  rewrite fmap_empty in H2. by exists m1, evs1, evs2.
Qed.
End Refinement.

(** ** Listeners *)







(** ** The client *)

Section ClientRun.
Import Client.
Variable net : nat -> DialResult.

Lemma knockLoop_prefix ports : forall n,
  attempts (fst (knockLoop net n ports)) `prefix_of` ports.
Proof.
  induction ports as [|p rest IH]; intros n; simpl.
  - done.
  - specialize (IH (Datatypes.S n)).
    destruct (net n) as [|[|]]; simpl.
    + destruct (knockLoop net (Datatypes.S n) rest) as [more e]. simpl in *.
      by apply prefix_cons.
    + apply prefix_cons, prefix_nil.
    + destruct (knockLoop net (Datatypes.S n) rest) as [more e]. simpl in *.
      by apply prefix_cons.
Qed.

Lemma knockLoop_all ports :
  (forall n, net n <> Connected true) ->
  forall n,
    snd (knockLoop net n ports) = Returned /\
    attempts (fst (knockLoop net n ports)) = ports /\
    withoutClose (fst (knockLoop net n ports))
    = flat_map (fun port => [Dial serverIP port (500 * Millisecond);
                             Sleep (500 * Millisecond)]) ports.
Proof.
  intros Hnet. induction ports as [|p rest IH]; intros n; simpl.
  - done.
  - destruct (IH (Datatypes.S n)) as (He & Ha & Hw).
    pose proof (Hnet n) as Hn.
    destruct (net n) as [|[|]]; [|done|]; simpl.
    all: destruct (knockLoop net (Datatypes.S n) rest) as [more e].
    all: simpl in *; by rewrite He, Ha, Hw.
Qed.
End ClientRun.

(** C9, as stated, fails: when the first dial connects and the [Close]
    of that connection returns an error, the client panics after one
    attempt on 7001, where the configured sequence asks for six. *)
Lemma failing_close_cuts_attempts_short :
  let net : nat -> Client.DialResult := fun _ => Client.Connected true in
  Client.client net
  = ([Client.Dial Client.serverIP 7001 (500 * Millisecond); Client.Close],
     Client.Panicked) /\
  Client.attempts (fst (Client.client net)) = [7001] /\
  knockPorts knockSequence = [7001; 7001; 7001; 8002; 9003; 9003] /\
  Client.attempts (fst (Client.client (fun _ => Client.DialError)))
  = [7001; 7001; 7001; 8002; 9003; 9003] /\
  ~ attemptsIndependent.
Proof.
  intros net.
  assert (H1 : Client.attempts (fst (Client.client net)) = [7001])
    by reflexivity.
  assert (H2 : knockPorts knockSequence = [7001; 7001; 7001; 8002; 9003; 9003])
    by reflexivity.
  split; [reflexivity|]. split; [exact H1|]. split; [exact H2|].
  split; [reflexivity|].
  intros Hind. specialize (Hind net). rewrite H1, H2 in Hind.
  discriminate Hind.
Qed.

(** C9 (amended): the ports the client dials are those of the configured
    sequence, each step's port as many times as its count, in order: 7001,
    7001, 7001, 8002, 9003, 9003.  Whatever the network answers, the ports
    dialled are a prefix of that list, so no attempt is ever repeated;
    and when no [Close] fails, whether the dials succeed or not, the
    client returns after dialling the whole list, with a sleep of 500ms
    after each dial. *)
Theorem client_attempts_follow_sequence (net : nat -> Client.DialResult) :
  Client.attempts (fst (Client.client net)) `prefix_of` Client.knockSeqPorts /\
  ((forall n, net n <> Client.Connected true) ->
   snd (Client.client net) = Client.Returned /\
   Client.attempts (fst (Client.client net)) = knockPorts knockSequence /\
   Client.attempts (fst (Client.client net))
   = [7001; 7001; 7001; 8002; 9003; 9003] /\
   Client.withoutClose (fst (Client.client net))
   = flat_map (fun port => [Client.Dial Client.serverIP port (500 * Millisecond);
                            Client.Sleep (500 * Millisecond)])
       [7001; 7001; 7001; 8002; 9003; 9003]
     ++ [Client.Println "Port knocking send"]).
Proof.
  unfold Client.client. split.
  - pose proof (knockLoop_prefix net Client.knockSeqPorts 0%nat) as Hpre.
    destruct (Client.knockLoop net 0 Client.knockSeqPorts) as [acts [|]];
      simpl in *; [|done].
    unfold Client.attempts in *. rewrite omap_app. cbn.
    by rewrite app_nil_r.
  - intros Hnet.
    destruct (knockLoop_all net Client.knockSeqPorts Hnet 0%nat)
      as (He & Ha & Hw).
    destruct (Client.knockLoop net 0 Client.knockSeqPorts) as [acts e].
    simpl in He, Ha, Hw. subst e. simpl.
    unfold Client.attempts, Client.withoutClose in *.
    rewrite !omap_app, Ha, Hw. repeat split; reflexivity.
Qed.

(** ** A step with a count that is not positive *)

Section Wrap.
Variable T : Duration.
Variable A : string.
Variable p : Z.
Hypothesis HT : 1 <= T.

Lemma wrap_nonzero c : 1 <= c < 2 ^ 64 -> wrap c <> 0.
Proof.
  intros Hc Hw. change 0 with (wrap 0) in Hw.
  apply wrap_eq_inv in Hw as [k Hk].
  change (2 ^ 64) with 18446744073709551616 in *. lia.
Qed.

Lemma run_app (S : list KnockStep) ks1 : forall ks2 m m1 evs1 m2 evs2,
  run S T ks1 m = Some (m1, evs1) ->
  run S T ks2 m1 = Some (m2, evs2) ->
  run S T (ks1 ++ ks2) m = Some (m2, evs1 ++ evs2).
Proof.
  induction ks1 as [|k ks1 IH]; intros ks2 m m1 evs1 m2 evs2 H1 H2.
  - simpl in H1. by simplify_eq.
  - simpl in H1.
    destruct (processKnock' S T k m) as [[ma ev]|] eqn:Hk; [|done].
    simpl in H1.
    destruct (run S T ks1 ma) as [[mb evs]|] eqn:Hr; [|done].
    simpl in H1. simplify_eq.
    rewrite <- app_comm_cons.
    eapply run_cons_Some; [done|]. by eapply IH.
Qed.

Lemma grants_app (evs1 evs2 : list (list Event)) :
  mjoin (granted <$> evs1 ++ evs2)
  = mjoin (granted <$> evs1) ++ mjoin (granted <$> evs2).
Proof.
  induction evs1 as [|ev evs1 IH]; [done|].
  rewrite <- app_comm_cons, !grants_cons, IH. by rewrite app_assoc.
Qed.

Lemma flood_counts n : forall a c,
  1 <= c -> c + Z.of_nat n < 2 ^ 64 -> (1 <= a)%nat ->
  exists evs,
    run (zeroCountSequence p) T (flood A p a n)
      {[ A := {| StepIndex := 0; HitCount := wrap c;
                 LastKnock := Z.of_nat a - 1 |} ]}
    = Some ({[ A := {| StepIndex := 0; HitCount := wrap (c + Z.of_nat n);
                       LastKnock := Z.of_nat a + Z.of_nat n - 1 |} ]}, evs) /\
    mjoin (granted <$> evs) = [].
Proof.
  induction n as [|n IH]; intros a c Hc Hbound Ha.
  - exists []. split; [|done]. simpl.
    by rewrite !Z.add_0_r.
  - destruct (IH (Datatypes.S a) (c + 1)) as (evs & Hrun & Hgr); [lia..|].
    eexists. split.
    + unfold flood. rewrite <- cons_seq, fmap_cons.
      eapply run_cons_Some; [|].
      * unfold processKnock', knockAt. simpl.
        erewrite processKnock_live; [|apply lookup_singleton_eq|].
        2:{ simpl. rewrite Since_exact; unfold minDuration, maxDuration; lia. }
        rewrite (advance_progress _ _ _ _ _ {| Port := p; Count := 0 |});
          [|done|].
        2:{ simpl. rewrite wrap_succ_wrap. apply wrap_nonzero. lia. }
        simpl. rewrite insert_singleton_eq, wrap_succ_wrap. reflexivity.
      * replace (Z.of_nat a) with (Z.of_nat (Datatypes.S a) - 1) by lia.
        fold (flood A p (Datatypes.S a) n). rewrite Hrun.
        replace (c + Z.of_nat (Datatypes.S n)) with (c + 1 + Z.of_nat n) by lia.
        replace (Z.of_nat (Datatypes.S a) - 1 + Z.of_nat (Datatypes.S n) - 1)
          with (Z.of_nat (Datatypes.S a) + Z.of_nat n - 1) by lia.
        reflexivity.
    + by rewrite grants_cons, Hgr.
Qed.

Lemma flood_grants n :
  Z.of_nat n = 2 ^ 64 - 2 ->
  exists evs,
    run (zeroCountSequence p) T (flood A p 0 (Datatypes.S (n + 1))) ∅ = Some (∅, evs) /\
    mjoin (granted <$> evs) = [A].
Proof.
  intros Hn.
  destruct (flood_counts n 1 1) as (evs & Hrun & Hgr); [lia..|].
  unfold flood.
  rewrite <- cons_seq, fmap_cons, seq_app, fmap_app. simpl seq.
  eexists. split.
  - eapply run_cons_Some.
    + unfold processKnock', knockAt. simpl.
      rewrite processKnock_absent by apply lookup_empty.
      rewrite (advance_progress _ _ _ _ _ {| Port := p; Count := 0 |});
        [|done|done].
      simpl. by rewrite insert_insert_eq.
    + eapply run_app; [exact Hrun|].
      rewrite fmap_cons, fmap_nil.
      eapply run_cons_Some; [|reflexivity].
      unfold processKnock', knockAt. simpl k_since. simpl k_now.
      simpl k_ip. simpl k_port.
      erewrite processKnock_live; [|apply lookup_singleton_eq|].
      2:{ simpl. rewrite Since_exact; unfold minDuration, maxDuration; lia. }
      rewrite (advance_complete _ _ _ _ _ {| Port := p; Count := 0 |});
        [|done| |done].
      2:{ simpl. rewrite wrap_succ_wrap.
          replace (1 + Z.of_nat n + 1) with (2 ^ 64) by lia. done. }
      rewrite delete_singleton_eq. reflexivity.
  - rewrite grants_cons, grants_app, Hgr. reflexivity.
Qed.
End Wrap.

Section NonPositiveCount.
Variable S : list KnockStep.
Variable T : Duration.
Variable i : nat.
Variable step : KnockStep.
Hypothesis Hlen : len S <= int_max.
Hypothesis Hi : S !! i = Some step.
Hypothesis Hcount : int_min <= Count step <= 0.

Implicit Types (m : gmap string ClientState) (st : ClientState).

Lemma count_unreachable c n :
  0 <= c <= n -> n + 1 < 2 ^ 64 + Count step ->
  wrap (wrap c + 1) <> Count step.
Proof.
  intros Hc Hn Hw. rewrite wrap_succ_wrap in Hw.
  rewrite <- (wrap_small (Count step)) in Hw
    by (unfold is_int, int_max in *; lia).
  apply wrap_eq_inv in Hw as [k Hk].
  unfold int_min in *.
  change (2 ^ 64) with 18446744073709551616 in *.
  change (2 ^ 63) with 9223372036854775808 in *. lia.
Qed.

Lemma countedBelow_mono n n' m :
  n <= n' -> countedBelow i n m -> countedBelow i n' m.
Proof.
  intros Hle Hm ip st Hst.
  destruct (Hm ip st Hst) as (Hidx & c & Hc & Hh).
  split; [done|]. exists c. split; [lia|done].
Qed.

Lemma advance_counted n tn ip port st m :
  0 <= n -> n + 1 < 2 ^ 64 + Count step ->
  (0 <= StepIndex st <= Z.of_nat i /\
   exists c, 0 <= c <= n /\ HitCount st = wrap c) ->
  countedBelow i n m ->
  exists m' ev,
    advance S tn ip port st m = Some (m', ev) /\
    countedBelow i (n + 1) m' /\
    granted ev = [] /\
    outcome ev <> Some SequenceComplete.
Proof.
  intros Hn Hbound (Hidx & c & Hc & Hh) Hm.
  pose proof (lookup_lt_Some _ _ _ Hi) as Hilt.
  assert (Hin : 0 <= StepIndex st < len S) by (unfold len; lia).
  destruct (index_lt_len S (StepIndex st) Hin) as [stepj Hj].
  assert (Hwi : wrap (StepIndex st + 1) = StepIndex st + 1).
  { no_overflow. }
  assert (Hat : StepIndex st = Z.of_nat i -> stepj = step).
  { intros Heq. apply index_Some in Hj as [_ Hj].
    rewrite Heq, Nat2Z.id in Hj. congruence. }
  pose proof (countedBelow_mono n (n + 1) m ltac:(lia) Hm) as Hm1.
  destruct (decide (port = Port stepj)) as [->|Hport].
  - destruct (decide (wrap (HitCount st + 1) = Count stepj)) as [Hfull|Hpart].
    + assert (Hbefore : StepIndex st < Z.of_nat i).
      { destruct (decide (StepIndex st = Z.of_nat i)) as [Heq|]; [|lia].
        rewrite (Hat Heq), Hh in Hfull.
        by apply (count_unreachable c n) in Hfull. }
      eexists _, _. split.
      { apply advance_step; [done|done|]. rewrite Hwi. unfold len. lia. }
      split; [|split; [done|]].
      * apply map_Forall_insert_2; [|done]. simpl. rewrite Hwi.
        split; [lia|]. exists 0. split; [lia|done].
      * simpl. by case_decide.
    + eexists _, _. split; [by apply advance_progress|].
      split; [|split; [done|]].
      * apply map_Forall_insert_2; [|done]. simpl.
        split; [lia|]. exists (c + 1). split; [lia|].
        by rewrite Hh, wrap_succ_wrap.
      * simpl. by case_decide.
  - eexists _, _. split; [by apply advance_mismatch|].
    split; [|done]. by apply map_Forall_delete.
Qed.

Lemma processKnock_counted n ts tn ip port m :
  0 <= n -> n + 1 < 2 ^ 64 + Count step ->
  countedBelow i n m ->
  exists m' ev,
    processKnock S T ts tn ip port m = Some (m', ev) /\
    countedBelow i (n + 1) m' /\
    granted ev = [] /\
    outcome ev <> Some SequenceComplete.
Proof.
  intros Hn Hbound Hm. unfold processKnock, lookupOrReset.
  assert (Hz : 0 <= StepIndex zeroState <= Z.of_nat i /\
               exists c, 0 <= c <= n /\ HitCount zeroState = wrap c).
  { split; [simpl; lia|]. exists 0. split; [lia|done]. }
  destruct (m !! ip) as [st|] eqn:Hst; [case_decide|].
  - apply advance_counted; [done|done|done|].
    by apply map_Forall_insert_2.
  - apply advance_counted; [done|done| |done]. by apply (Hm ip).
  - apply advance_counted; [done|done|done|].
    by apply map_Forall_insert_2.
Qed.

Lemma run_counted ks : forall n m,
  0 <= n -> n + Z.of_nat (length ks) < 2 ^ 64 + Count step ->
  countedBelow i n m ->
  exists m' evs,
    run S T ks m = Some (m', evs) /\
    countedBelow i (n + Z.of_nat (length ks)) m' /\
    mjoin (granted <$> evs) = [] /\
    Forall (fun ev => outcome ev <> Some SequenceComplete) evs.
Proof.
  induction ks as [|k ks IH]; intros n m Hn Hbound Hm.
  - exists m, []. simpl. by rewrite Z.add_0_r.
  - simpl length in *.
    destruct (processKnock_counted n (k_since k) (k_now k) (k_ip k)
                (k_port k) m) as (m1 & ev & Hk & Hm1 & Hg & Ho);
      [lia|lia|done|].
    destruct (IH (n + 1) m1) as (m2 & evs & Hrun & Hm2 & Hgs & Hos);
      [lia|lia|done|].
    exists m2, (ev :: evs).
    split; [by eapply run_cons_Some|].
    split; [by replace (n + Z.of_nat (Datatypes.S (length ks)))
              with (n + 1 + Z.of_nat (length ks)) by lia|].
    split; [by rewrite grants_cons, Hg, Hgs|by apply Forall_cons].
Qed.

(** C10 (amended): when step [i] of the sequence has a count that is not
    positive, then in every run from the empty map of fewer than
    [2^64 + Count] calls no hit count equals that count: the step is
    never completed, no resident state is past it, no call has the
    outcome SequenceComplete and no access is granted to any address. *)
Theorem nonpositive_count_blocks_until_wraparound ks :
  Z.of_nat (length ks) < 2 ^ 64 + Count step ->
  exists m' evs,
    run S T ks ∅ = Some (m', evs) /\
    map_Forall (fun _ st => StepIndex st <= Z.of_nat i) m' /\
    Forall (fun ev => outcome ev <> Some SequenceComplete) evs /\
    mjoin (granted <$> evs) = [].
Proof.
  intros Hshort.
  destruct (run_counted ks 0 ∅) as (m' & evs & Hrun & Hm' & Hg & Ho);
    [lia|lia|apply map_Forall_empty|].
  exists m', evs. split; [done|]. split; [|done].
  intros ip st Hst. by destruct (Hm' ip st Hst) as [[_ ?] _].
Qed.
End NonPositiveCount.

(** C10, as stated, fails: the hit count is a machine integer, and
    [2^64] timely knocks on a step
    with count 0 bring it back to 0, and the last of them completes the
    step and is granted access. *)
Lemma wraparound_completes_zero_count :
  (exists evs,
      run (zeroCountSequence 7001) timeout
        (flood "10.0.0.1" 7001 0 (Z.to_nat (2 ^ 64))) ∅
      = Some (∅, evs) /\
      mjoin (granted <$> evs) = ["10.0.0.1"]) /\
  ~ neverGrants (zeroCountSequence 7001) timeout.
Proof.
  assert (Hn : exists n, Z.to_nat (2 ^ 64) = Datatypes.S (n + 1) /\
                         Z.of_nat n = 2 ^ 64 - 2).
  { exists (Z.to_nat (2 ^ 64 - 2)). split; lia. }
  destruct Hn as (n & -> & Hn).
  destruct (flood_grants timeout "10.0.0.1" 7001 ltac:(done) n Hn)
    as (evs & Hrun & Hgr).
  split; [by exists evs|].
  intros Hnever. specialize (Hnever _ _ _ Hrun). congruence.
Qed.

(** * The properties on concrete runs *)

Lemma knockSequence_wellFormed : wellFormed knockSequence.
Proof.
  split; [done|]. split; [by vm_compute|].
  repeat constructor; by vm_compute.
Defined.

Lemma exact_knocks_grant_once_witness :
  let A := "10.0.0.1" in
  let ks := [ knockAt A 7001 0; knockAt A 7001 1; knockAt A 7001 2;
              knockAt A 8002 3; knockAt A 9003 4; knockAt A 9003 5 ] in
  wellFormed knockSequence /\
  (∅ : gmap string ClientState) !! A = None /\
  Forall (fun k => k_ip k = A) ks /\
  k_port <$> ks = knockPorts knockSequence /\
  timely (5 * Second) ks /\
  exists m' evs,
    run knockSequence (5 * Second) ks ∅ = Some (m', evs) /\
    outcome <$> evs
    = Some <$> [Progressed; Progressed; StepComplete;
                StepComplete; Progressed; SequenceComplete] /\
    mjoin (granted <$> evs) = [A] /\
    m' !! A = None.
Proof.
  intros A ks.
  assert (Hwf : wellFormed knockSequence) by exact knockSequence_wellFormed.
  assert (Hm : (∅ : gmap string ClientState) !! A = None) by reflexivity.
  assert (Hips : Forall (fun k => k_ip k = A) ks)
    by (repeat constructor).
  assert (Hports : k_port <$> ks = knockPorts knockSequence) by reflexivity.
  assert (Htimely : timely (5 * Second) ks)
    by (repeat split; by vm_compute).
  split; [exact Hwf|]. split; [exact Hm|]. split; [exact Hips|].
  split; [exact Hports|]. split; [exact Htimely|].
  destruct (exact_knocks_grant_once knockSequence (5 * Second) A ks ∅
              Hwf Hm Hips Hports Htimely)
    as (m' & evs & Hrun & _ & Hscenario & _ & Hgr & Hgone & _).
  exists m', evs. split; [exact Hrun|]. split; [exact (Hscenario eq_refl)|].
  split; [exact Hgr|exact Hgone].
Defined.

Lemma mismatch_clears_progress_witness :
  let A := "10.0.0.1" in
  let st := {| StepIndex := 1; HitCount := 0; LastKnock := 0 |} in
  let m : gmap string ClientState := {[ A := st ]} in
  m !! A = Some st /\
  Since 1 (LastKnock st) <= timeout /\
  index knockSequence (StepIndex st) = Some {| Port := 8002; Count := 1 |} /\
  7001 <> 8002 /\
  exists m' ev,
    processKnock knockSequence timeout 1 1 A 7001 m = Some (m', ev) /\
    outcome ev = Some Mismatch /\
    m' !! A = None.
Proof.
  intros A st m.
  assert (Hm : m !! A = Some st) by reflexivity.
  assert (Hlive : Since 1 (LastKnock st) <= timeout) by (by vm_compute).
  assert (Hstep : index knockSequence (StepIndex st)
                  = Some {| Port := 8002; Count := 1 |}) by reflexivity.
  assert (Hport : 7001 <> Port {| Port := 8002; Count := 1 |}) by (simpl; lia).
  split; [exact Hm|]. split; [exact Hlive|]. split; [exact Hstep|].
  split; [exact Hport|].
  destruct (mismatch_clears_progress knockSequence timeout 1 1 A 7001 m st _
              Hm Hlive Hstep Hport)
    as (m' & ev & Hcall & Hout & _ & _ & Hgone & _).
  exists m', ev. split; [exact Hcall|]. split; [exact Hout|exact Hgone].
Defined.

Lemma timeout_gives_fresh_start_witness :
  let A := "10.0.0.1" in
  let st := {| StepIndex := 0; HitCount := 1; LastKnock := 0 |} in
  let m : gmap string ClientState := {[ A := st ]} in
  m !! A = Some st /\
  Since (6 * Second) (LastKnock st) > 5 * Second /\
  processKnock knockSequence (5 * Second) (6 * Second) (6 * Second) A 7001 m
  = processKnock knockSequence (5 * Second) (6 * Second) (6 * Second) A 7001
      (delete A m).
Proof.
  intros A st m.
  assert (Hm : m !! A = Some st) by reflexivity.
  assert (Hexp : Since (6 * Second) (LastKnock st) > 5 * Second)
    by (by vm_compute).
  split; [exact Hm|]. split; [exact Hexp|].
  exact (proj1 (proj1 (timeout_gives_fresh_start knockSequence (5 * Second)
                         (6 * Second) (6 * Second) A 7001 m st Hm) Hexp)).
Defined.

Lemma resident_states_within_bounds_witness :
  let A := "10.0.0.1" in
  let ks := [ knockAt A 7001 0; knockAt A 7001 1; knockAt A 7001 2;
              knockAt A 8002 3 ] in
  wellFormed knockSequence /\
  exists m' evs,
    run knockSequence timeout ks ∅ = Some (m', evs) /\
    invariant knockSequence m'.
Proof.
  intros A ks. split; [exact knockSequence_wellFormed|].
  exact (proj2 (resident_states_within_bounds knockSequence timeout
                  knockSequence_wellFormed) ks).
Defined.

Lemma other_addresses_untouched_witness :
  let A := "10.0.0.1" in
  let B := "10.0.0.2" in
  let st := {| StepIndex := 1; HitCount := 0; LastKnock := 0 |} in
  let m : gmap string ClientState := {[ B := st ]} in
  let m' : gmap string ClientState :=
    <[ A := {| StepIndex := 0; HitCount := 1; LastKnock := 1 |} ]> m in
  processKnock knockSequence timeout 1 1 A 7001 m
  = Some (m', [LogKnockOK A 7001 1 3 1 3]) /\
  B <> A /\
  m' !! B = m !! B.
Proof.
  intros A B st m m'.
  assert (Hcall : processKnock knockSequence timeout 1 1 A 7001 m
                  = Some (m', [LogKnockOK A 7001 1 3 1 3]))
    by (by vm_compute).
  assert (Hne : B <> A) by (intros H; discriminate H).
  split; [exact Hcall|]. split; [exact Hne|].
  exact (proj1 (other_addresses_untouched knockSequence timeout)
           1 1 A 7001 m m' _ B Hcall Hne).
Defined.

Lemma single_hit_is_count_one_witness :
  let A := "10.0.0.1" in
  let ks := [ knockAt A 7001 0; knockAt A 8002 1; knockAt A 9003 2;
              knockAt A 7001 3; knockAt A 9003 4 ] in
  SingleHit.knockSequence <> [] /\
  len SingleHit.knockSequence <= int_max /\
  exists m1 evs1 evs2,
    SingleHit.run SingleHit.knockSequence SingleHit.timeout ks ∅
    = Some (m1, evs1) /\
    HitCount.run (withCountOne SingleHit.knockSequence) SingleHit.timeout ks ∅
    = Some (embed <$> m1, evs2) /\
    decisions <$> evs2 = decisions1 <$> evs1 /\
    granted <$> evs2 = SingleHit.granted <$> evs1.
Proof.
  intros A ks.
  assert (Hne : SingleHit.knockSequence <> []) by (intros H; discriminate H).
  assert (Hlen : len SingleHit.knockSequence <= int_max) by (by vm_compute).
  split; [exact Hne|]. split; [exact Hlen|].
  exact (single_hit_is_count_one SingleHit.knockSequence SingleHit.timeout
           Hne Hlen ks).
Defined.

Lemma stale_state_deleted_knock_dropped_witness :
  let A := "10.0.0.1" in
  let st := {| StepIndex := 3; HitCount := 0; LastKnock := 0 |} in
  let m : gmap string ClientState := {[ A := st ]} in
  m !! A = Some st /\
  StepIndex st >= len knockSequence /\
  Since 1 (LastKnock st) <= timeout /\
  processKnock knockSequence timeout 1 1 A 7001 m = Some (delete A m, []).
Proof.
  intros A st m.
  assert (Hm : m !! A = Some st) by reflexivity.
  assert (Hpast : StepIndex st >= len knockSequence) by (by vm_compute).
  assert (Hlive : Since 1 (LastKnock st) <= timeout) by (by vm_compute).
  split; [exact Hm|]. split; [exact Hpast|]. split; [exact Hlive|].
  exact (proj1 (proj1 (stale_state_deleted_knock_dropped knockSequence timeout
                         1 1 A 7001 m st Hm Hpast) Hlive)).
Defined.


Lemma client_attempts_follow_sequence_witness :
  let net : nat -> Client.DialResult := fun _ => Client.DialError in
  (forall n, net n <> Client.Connected true) /\
  snd (Client.client net) = Client.Returned /\
  Client.attempts (fst (Client.client net))
  = [7001; 7001; 7001; 8002; 9003; 9003].
Proof.
  intros net.
  assert (Hnet : forall n, net n <> Client.Connected true)
    by (intros n H; discriminate H).
  split; [exact Hnet|].
  destruct (proj2 (client_attempts_follow_sequence net) Hnet)
    as (Hexit & _ & Hports & _).
  split; [exact Hexit|exact Hports].
Defined.

Lemma nonpositive_count_blocks_until_wraparound_witness :
  let A := "10.0.0.1" in
  let step := {| Port := 7001; Count := 0 |} in
  let S := [ step; {| Port := 8002; Count := 1 |} ] in
  let ks := [ knockAt A 7001 0; knockAt A 7001 1; knockAt A 7001 2 ] in
  len S <= int_max /\
  S !! 0%nat = Some step /\
  int_min <= Count step <= 0 /\
  Z.of_nat (length ks) < 2 ^ 64 + Count step /\
  exists m' evs,
    run S timeout ks ∅ = Some (m', evs) /\
    map_Forall (fun _ st => StepIndex st <= Z.of_nat 0) m' /\
    Forall (fun ev => outcome ev <> Some SequenceComplete) evs /\
    mjoin (granted <$> evs) = [].
Proof.
  intros A step S ks.
  assert (Hlen : len S <= int_max) by (by vm_compute).
  assert (Hi : S !! 0%nat = Some step) by reflexivity.
  assert (Hcount : int_min <= Count step <= 0) by (split; by vm_compute).
  assert (Hshort : Z.of_nat (length ks) < 2 ^ 64 + Count step)
    by (by vm_compute).
  split; [exact Hlen|]. split; [exact Hi|]. split; [exact Hcount|].
  split; [exact Hshort|].
  exact (nonpositive_count_blocks_until_wraparound S timeout 0%nat step
           Hlen Hi Hcount ks Hshort).
Defined.

(** * Further properties of the programs *)

Import Coverage.

(** ** Access is granted for the whole sequence only *)

Section Soundness.

Variable S : list KnockStep.
Variable T : Duration.
Hypothesis HS : wellFormed S.

Implicit Types (m : gmap string ClientState) (st : ClientState).

Lemma timely_snoc l k :
  timely T l ->
  (forall k0, last l = Some k0 -> Since (k_since k) (k_now k0) <= T) ->
  timely T (l ++ [k]).
Proof.
  induction l as [|k1 l IH]; intros Hl Hlink; [done|].
  destruct l as [|k2 l'].
  - simpl. split; [|done]. by apply Hlink.
  - destruct Hl as [H12 Hl]. split; [exact H12|].
    apply IH; [exact Hl|]. intros k0 Hk0. by apply Hlink.
Qed.

Lemma knocksOf_snoc A hist k :
  knocksOf A (hist ++ [k])
  = knocksOf A hist ++ (if decide (k_ip k = A) then [k] else []).
Proof.
  unfold knocksOf. rewrite filter_app. f_equal.
Qed.

Lemma knockPorts_app S1 S2 :
  knockPorts (S1 ++ S2) = knockPorts S1 ++ knockPorts S2.
Proof. unfold knockPorts. apply flat_map_app. Qed.

Lemma progressPorts_zero : progressPorts S zeroState = [].
Proof.
  unfold progressPorts. by destruct S.
Qed.

(** One more hit on the current step. *)
Lemma progressPorts_hit st step tn :
  index S (StepIndex st) = Some step -> 0 <= HitCount st ->
  progressPorts S {| StepIndex := StepIndex st;
                     HitCount := HitCount st + 1;
                     LastKnock := tn |}
  = progressPorts S st ++ [Port step].
Proof.
  intros [H0 Hl]%index_Some Hh. unfold progressPorts. simpl. rewrite Hl.
  replace (Z.to_nat (HitCount st + 1))
    with (Datatypes.S (Z.to_nat (HitCount st))) by lia.
  by rewrite replicate_S_end, app_assoc.
Qed.

(** The last hit on the current step. *)
Lemma progressPorts_step st step tn :
  index S (StepIndex st) = Some step -> 0 <= HitCount st ->
  HitCount st + 1 = Count step ->
  progressPorts S {| StepIndex := StepIndex st + 1;
                     HitCount := 0;
                     LastKnock := tn |}
  = progressPorts S st ++ [Port step].
Proof.
  intros [H0 Hl]%index_Some Hh Hc. unfold progressPorts. simpl. rewrite Hl.
  replace (Z.to_nat (StepIndex st + 1))
    with (Datatypes.S (Z.to_nat (StepIndex st))) by lia.
  rewrite (take_S_r _ _ _ Hl), knockPorts_app.
  assert (Hone : knockPorts [step]
                 = replicate (Z.to_nat (HitCount st)) (Port step) ++ [Port step]).
  { unfold knockPorts. simpl. rewrite app_nil_r, <- Hc.
    replace (Z.to_nat (HitCount st + 1))
      with (Datatypes.S (Z.to_nat (HitCount st))) by lia.
    by rewrite replicate_S_end. }
  rewrite Hone.
  destruct (S !! Datatypes.S (Z.to_nat (StepIndex st))); simpl;
    by rewrite ?app_nil_r, !app_assoc.
Qed.

Lemma progressPorts_all st step :
  index S (StepIndex st) = Some step -> 0 <= HitCount st ->
  HitCount st + 1 = Count step -> StepIndex st + 1 = len S ->
  progressPorts S st ++ [Port step] = knockPorts S.
Proof.
  intros Hi Hh Hc Hend.
  rewrite <- (progressPorts_step st step 0 Hi Hh Hc).
  unfold progressPorts. simpl.
  rewrite take_ge by (unfold len in Hend; lia).
  rewrite lookup_ge_None_2 by (unfold len in Hend; lia).
  by rewrite app_nil_r.
Qed.

Lemma earned_update hist k m m' :
  earned S T hist m ->
  (forall B, B <> k_ip k -> m' !! B = m !! B) ->
  (forall st, m' !! k_ip k = Some st ->
     residentOK S st /\
     exists stretch,
       endsWith T (k_ip k) (hist ++ [k]) (progressPorts S st) stretch /\
       forall k0, last stretch = Some k0 -> k_now k0 = LastKnock st) ->
  earned S T (hist ++ [k]) m'.
Proof.
  intros Hm Hother Hown B st Hst.
  destruct (decide (B = k_ip k)) as [->|Hne]; [by apply Hown|].
  rewrite (Hother B Hne) in Hst.
  destruct (Hm B st Hst) as (Hok & stretch & (Hsuf & Hports & Htim) & Hlast).
  split; [done|]. exists stretch. split; [|done].
  split; [|done]. rewrite knocksOf_snoc.
  rewrite decide_False by congruence. by rewrite app_nil_r.
Qed.

(** The state a call works on, with the stretch of knocks that earned it
    and that the knock of the call continues in time. *)
Lemma processKnock'_works_on hist k m :
  earned S T hist m ->
  exists s stretch,
    processKnock' S T k m
    = advance S (k_now k) (k_ip k) (k_port k) s (<[k_ip k := s]> m) /\
    residentOK S s /\
    endsWith T (k_ip k) hist (progressPorts S s) stretch /\
    (forall k0, last stretch = Some k0 ->
                Since (k_since k) (k_now k0) <= T).
Proof.
  intros Hm. unfold processKnock'.
  assert (Hzero : residentOK S zeroState /\
                  endsWith T (k_ip k) hist (progressPorts S zeroState) [] /\
                  (forall k0, last [] = Some k0 ->
                              Since (k_since k) (k_now k0) <= T)).
  { split; [by apply zeroState_ok|]. split; [|done].
    split; [apply suffix_nil|]. by rewrite progressPorts_zero. }
  destruct (m !! k_ip k) as [st|] eqn:Hst.
  - destruct (decide (Since (k_since k) (LastKnock st) > T)) as [Hexp|Hlive].
    + exists zeroState, []. split; [|done].
      by apply (processKnock_expired _ _ _ _ _ _ _ st).
    + destruct (Hm _ _ Hst) as (Hok & stretch & Hends & Hlast).
      exists st, stretch. split; [|split; [done|split; [done|]]].
      * rewrite insert_id by done. apply processKnock_live; [done|lia].
      * intros k0 Hk0. rewrite (Hlast k0 Hk0). lia.
  - exists zeroState, []. split; [|done]. by apply processKnock_absent.
Qed.

Lemma endsWith_snoc A hist k ports stretch :
  k_ip k = A ->
  endsWith T A hist ports stretch ->
  (forall k0, last stretch = Some k0 -> Since (k_since k) (k_now k0) <= T) ->
  endsWith T A (hist ++ [k]) (ports ++ [k_port k]) (stretch ++ [k]).
Proof.
  intros Hip (Hsuf & Hports & Htim) Hlink. split; [|split].
  - rewrite knocksOf_snoc, decide_True by done. by apply suffix_app.
  - by rewrite fmap_app, Hports.
  - by apply timely_snoc.
Qed.

Lemma processKnock'_earned hist k m m' ev :
  earned S T hist m ->
  processKnock' S T k m = Some (m', ev) ->
  earned S T (hist ++ [k]) m' /\
  (forall A, A ∈ granted ev ->
     A = k_ip k /\
     exists stretch, endsWith T A (hist ++ [k]) (knockPorts S) stretch).
Proof.
  intros Hm Hcall.
  destruct (processKnock'_works_on hist k m Hm)
    as (s & stretch & Heq & (Hidx & step & Hstep & Hhit) & Hends & Hlink).
  rewrite Heq in Hcall. clear Heq.
  destruct HS as (Hne & Hlen & Hall).
  pose proof (index_Forall _ _ _ _ Hall Hstep) as Hcount. simpl in Hcount.
  assert (Hw : wrap (HitCount s + 1) = HitCount s + 1) by no_overflow.
  assert (Hwi : wrap (StepIndex s + 1) = StepIndex s + 1) by no_overflow.
  pose proof (endsWith_snoc (k_ip k) hist k _ stretch eq_refl Hends Hlink)
    as Hends'.
  destruct (decide (k_port k = Port step)) as [Hport|Hport].
  - rewrite Hport in Hcall, Hends'.
    destruct (decide (HitCount s + 1 = Count step)) as [Hfull|Hpart].
    + destruct (decide (StepIndex s + 1 = len S)) as [Hend|Hmore].
      * rewrite advance_complete in Hcall; [|done|lia|lia].
        simplify_eq. split.
        -- apply (earned_update hist k m); [done| |].
           ++ intros B HB. by rewrite lookup_delete_ne, lookup_insert_ne.
           ++ intros st. by rewrite lookup_delete_eq.
        -- intros A [->|HA%elem_of_nil]%elem_of_cons; [|done].
           split; [done|]. exists (stretch ++ [k]).
           by rewrite <- (progressPorts_all s step Hstep) by lia.
      * rewrite advance_step in Hcall; [|done|lia|lia].
        simplify_eq. split; [|intros A HA; by apply elem_of_nil in HA].
        apply (earned_update hist k m); [done| |].
        -- intros B HB. by rewrite !lookup_insert_ne.
        -- intros st. rewrite lookup_insert_eq. intros [= <-].
           rewrite Hwi.
           destruct (index_lt_len S (StepIndex s + 1)) as [step' Hstep'];
             [lia|].
           pose proof (index_Forall _ _ _ _ Hall Hstep') as Hc'.
           simpl in Hc'.
           split; [split; simpl; [lia|]; exists step'; split; [done|lia]|].
           exists (stretch ++ [k]). split.
           ++ by rewrite (progressPorts_step s step _ Hstep) by lia.
           ++ intros k0. rewrite last_snoc. by intros [= <-].
    + rewrite advance_progress in Hcall; [|done|lia].
      simplify_eq. split; [|intros A HA; by apply elem_of_nil in HA].
      apply (earned_update hist k m); [done| |].
      * intros B HB. by rewrite !lookup_insert_ne.
      * intros st. rewrite lookup_insert_eq. intros [= <-].
        rewrite Hw.
        split; [split; simpl; [lia|]; exists step; split; [done|lia]|].
        exists (stretch ++ [k]). split.
        -- by rewrite (progressPorts_hit s step _ Hstep) by lia.
        -- intros k0. rewrite last_snoc. by intros [= <-].
  - rewrite (advance_mismatch _ _ _ _ _ _ step) in Hcall; [|done|done].
    simplify_eq. split; [|intros A HA; by apply elem_of_nil in HA].
    apply (earned_update hist k m); [done| |].
    + intros B HB. by rewrite lookup_delete_ne, lookup_insert_ne.
    + intros st. by rewrite lookup_delete_eq.
Qed.

Lemma run_earned ks : forall hist m m' evs,
  earned S T hist m ->
  run S T ks m = Some (m', evs) ->
  earned S T (hist ++ ks) m' /\
  forall j ev A,
    evs !! j = Some ev -> A ∈ granted ev ->
    (exists k, ks !! j = Some k /\ k_ip k = A) /\
    exists stretch,
      endsWith T A (hist ++ take (Datatypes.S j) ks) (knockPorts S) stretch.
Proof.
  induction ks as [|k ks IH]; intros hist m m' evs Hm Hrun.
  - simpl in Hrun. simplify_eq. rewrite app_nil_r. split; [done|].
    intros j ev A Hj. by rewrite lookup_nil in Hj.
  - simpl in Hrun.
    destruct (processKnock' S T k m) as [[m1 ev1]|] eqn:Hk; [|done].
    simpl in Hrun.
    destruct (run S T ks m1) as [[m2 evs2]|] eqn:Hrest; [|done].
    simpl in Hrun. simplify_eq.
    destruct (processKnock'_earned hist k m m1 ev1 Hm Hk) as [Hm1 Hgrant].
    destruct (IH (hist ++ [k]) m1 m' evs2 Hm1 Hrest) as [Hm2 Hlater].
    rewrite <- app_assoc in Hm2. split; [exact Hm2|].
    intros [|j] ev A Hev HA; simpl in Hev.
    + simplify_eq. destruct (Hgrant A HA) as [-> Hstretch].
      split; [by exists k|]. done.
    + destruct (Hlater j ev A Hev HA) as [Hk' Hstretch].
      split; [exact Hk'|]. by rewrite <- app_assoc in Hstretch.
Qed.

(** X1: with a well-formed sequence, in a run from the empty map every
    call that logs ACCESS GRANTED grants it to the address of its own
    knock, and the knocks of that address up to this one end with a
    stretch on exactly the ports of the sequence, each step hit its count
    of times, every knock checked within the timeout of the stamp of the
    one before. *)
Theorem access_granted_only_for_whole_sequence ks m evs j ev A :
  run S T ks ∅ = Some (m, evs) ->
  evs !! j = Some ev ->
  A ∈ granted ev ->
  (exists k, ks !! j = Some k /\ k_ip k = A) /\
  exists stretch,
    stretch `suffix_of` knocksOf A (take (Datatypes.S j) ks) /\
    k_port <$> stretch = knockPorts S /\
    timely T stretch.
Proof.
  intros Hrun Hev HA.
  destruct (run_earned ks [] ∅ m evs) as [_ Hgr]; [apply map_Forall_empty|done|].
  exact (Hgr j ev A Hev HA).
Qed.

End Soundness.

(** ** The accept loops hand the tracker the well-formed connections *)

Section Forwarding.

Variable S : list KnockStep.
Variable T : Duration.

Lemma serve_forwards (turns : list (Z * Listener.Accept)) :
  forall m : gmap string ClientState,
  forallb (fun t => negb (Listener.closeFails t)) turns = true ->
  Listener.flatLog <$> Listener.serve S T turns m
  = Listener.flatLog <$> run S T (omap Listener.forwarded turns) m.
Proof.
  induction turns as [|[port a] turns IH]; intros m Hclose; [done|].
  simpl in Hclose. apply andb_prop in Hclose as [Ha Hrest].
  assert (Hskip :
    Listener.flatLog <$>
      ('(clients2, outs) ← Listener.serve S T turns m;
       Some (clients2, [] :: outs))
    = Listener.flatLog <$> run S T (omap Listener.forwarded turns) m).
  { rewrite <- (IH m Hrest).
    by destruct (Listener.serve S T turns m) as [[m1 outs]|]. }
  destruct a as [|host [|] [|] ts tn]; try done.
  - change (omap Listener.forwarded ((port, Listener.Conn host false false ts tn) :: turns))
      with ({| k_since := ts; k_now := tn; k_ip := host; k_port := port |}
              :: omap Listener.forwarded turns).
    simpl. unfold processKnock'. simpl.
    destruct (processKnock S T ts tn host port m) as [[m1 ev]|]; [|done].
    simpl. specialize (IH m1 Hrest).
    destruct (Listener.serve S T turns m1) as [[ma outs]|];
      destruct (run S T (omap Listener.forwarded turns) m1) as [[mb evs]|];
      simpl in *; try done.
    unfold Listener.flatLog in *. simpl in *.
    injection IH as -> Hlog. by rewrite Hlog.
Qed.

Lemma serve_close_panics (turns1 turns2 : list (Z * Listener.Accept)) t
    (m : gmap string ClientState) :
  Listener.closeFails t = true ->
  Listener.serve S T (turns1 ++ t :: turns2) m = None.
Proof.
  intros Ht. revert m.
  induction turns1 as [|[port a] turns1 IH]; intros m; simpl.
  - destruct t as [port [|host [|] [|] ts tn]]; simpl in *; done.
  - destruct (Listener.turn S T port a m) as [[m1 out]|]; [|done].
    simpl. by rewrite IH.
Qed.

Lemma loop_serve port (accepts : list Listener.Accept) :
  forall m : gmap string ClientState,
  Listener.loop S T port accepts m
  = Listener.serve S T ((fun a => (port, a)) <$> accepts) m.
Proof.
  induction accepts as [|a accepts IH]; intros m; [done|].
  simpl. destruct (Listener.turn S T port a m) as [[m1 out]|]; [|done].
  simpl. by rewrite IH.
Qed.

(** X2: the accept loops of the hit-count server hand [processKnock]
    exactly the connections whose remote address parses, with the host of
    the address and the port of the listener, in the order of the turns:
    when no [Close] fails, the tracker map and the log after the turns are
    those of the run of these knocks, accept errors and unparsable
    addresses changing nothing; a failing [Close] panics.  A single
    [handleKnock] whose [net.Listen] succeeded is the case of turns that
    are all on its port. *)
Theorem accept_loop_forwards_connections
    (turns : list (Z * Listener.Accept)) (m : gmap string ClientState) :
  (forallb (fun t => negb (Listener.closeFails t)) turns = true ->
   Listener.flatLog <$> Listener.serve S T turns m
   = Listener.flatLog <$> run S T (omap Listener.forwarded turns) m) /\
  (forall turns1 t turns2,
      turns = turns1 ++ t :: turns2 ->
      Listener.closeFails t = true ->
      Listener.serve S T turns m = None) /\
  (forall port accepts,
      turns = (fun a => (port, a)) <$> accepts ->
      Listener.handleKnock S T port false accepts m
      = match Listener.serve S T turns m with
        | Some (m', outs) => Listener.Serving m' outs
        | None => Listener.Panicked
        end).
Proof.
  split; [apply serve_forwards|]. split.
  - intros turns1 t turns2 -> Ht. by apply serve_close_panics.
  - intros port accepts ->. unfold Listener.handleKnock.
    by rewrite loop_serve.
Qed.

End Forwarding.

Section Forwarding1.

Variable ports : list Z.
Variable T : Duration.

Lemma serve1_forwards (turns : list (Z * Listener.Accept)) :
  forall m : gmap string SingleHit.ClientState,
  forallb (fun t => negb (Listener.closeFails t)) turns = true ->
  Listener.flatLog <$> Listener.serve1 ports T turns m
  = Listener.flatLog
      <$> SingleHit.run ports T (omap Listener.forwarded1 turns) m.
Proof.
  induction turns as [|[port a] turns IH]; intros m Hclose; [done|].
  simpl in Hclose. apply andb_prop in Hclose as [Ha Hrest].
  assert (Hskip :
    Listener.flatLog <$>
      ('(clients2, outs) ← Listener.serve1 ports T turns m;
       Some (clients2, [] :: outs))
    = Listener.flatLog
        <$> SingleHit.run ports T (omap Listener.forwarded1 turns) m).
  { rewrite <- (IH m Hrest).
    by destruct (Listener.serve1 ports T turns m) as [[m1 outs]|]. }
  destruct a as [|host splitError [|] ts tn]; try done.
  change (omap Listener.forwarded1
              ((port, Listener.Conn host splitError false ts tn) :: turns))
      with ({| k_since := ts; k_now := tn; k_ip := host; k_port := port |}
              :: omap Listener.forwarded1 turns).
    simpl.
    destruct (SingleHit.processKnock ports T ts tn host port m)
      as [[m1 ev]|]; [|done].
    simpl. specialize (IH m1 Hrest).
    destruct (Listener.serve1 ports T turns m1) as [[ma outs]|];
      destruct (SingleHit.run ports T (omap Listener.forwarded1 turns) m1)
        as [[mb evs]|];
      simpl in *; try done.
    unfold Listener.flatLog in *. simpl in *.
    injection IH as -> Hlog. by rewrite Hlog.
Qed.

(** X3: the accept loops of the single-hit server hand [processKnock]
    every connection whose [Close] succeeds, those whose remote address
    did not parse included, under the host [net.SplitHostPort] returned
    with its error: when no [Close] fails, the tracker map and the log
    after the turns are those of the run of these knocks.  In particular
    a connection with an unparsable address is a knock of the host
    returned, where the hit-count server leaves its map as it is. *)
Theorem single_hit_accept_loop_forwards_all
    (turns : list (Z * Listener.Accept))
    (m : gmap string SingleHit.ClientState) :
  (forallb (fun t => negb (Listener.closeFails t)) turns = true ->
   Listener.flatLog <$> Listener.serve1 ports T turns m
   = Listener.flatLog
       <$> SingleHit.run ports T (omap Listener.forwarded1 turns) m) /\
  (forall port host ts tn (S : list KnockStep)
          (m2 : gmap string ClientState),
      Listener.turn1 ports T port (Listener.Conn host true false ts tn) m
      = SingleHit.processKnock ports T ts tn host port m /\
      Listener.turn S T port (Listener.Conn host true false ts tn) m2
      = Some (m2, [])).
Proof.
  split; [apply serve1_forwards|]. done.
Qed.

End Forwarding1.

(** ** The empty sequence *)

Lemma processKnock_empty_sequence T ts tn ip port
    (m : gmap string ClientState) :
  (forall st, m !! ip = Some st -> 0 <= StepIndex st) ->
  processKnock [] T ts tn ip port m = Some (delete ip m, []).
Proof.
  intros Hpos. unfold processKnock, lookupOrReset.
  destruct (m !! ip) as [st|] eqn:Hst; [case_decide|].
  - rewrite advance_dropped by done. by rewrite delete_insert_eq.
  - rewrite advance_dropped; [done|].
    specialize (Hpos st eq_refl). unfold len. simpl. lia.
  - rewrite advance_dropped by done. by rewrite delete_insert_eq.
Qed.

(** X4: with an empty sequence the hit-count server drops every knock:
    a call deletes the entry of its address and logs nothing (for a map
    without negative step index), so a run from the empty map keeps the
    map empty and never grants access; the single-hit server panics on
    every call, whatever the map, the address and the port. *)
Theorem empty_sequence_drops_or_panics T :
  (forall ts tn ip port (m : gmap string ClientState),
      (forall st, m !! ip = Some st -> 0 <= StepIndex st) ->
      processKnock [] T ts tn ip port m = Some (delete ip m, [])) /\
  (forall ks, run [] T ks ∅ = Some (∅, replicate (length ks) [])) /\
  (forall ts tn ip port (m1 : gmap string SingleHit.ClientState),
      SingleHit.processKnock [] T ts tn ip port m1 = None).
Proof.
  split; [intros; by apply processKnock_empty_sequence|]. split.
  - induction ks as [|k ks IH]; [done|].
    eapply run_cons_Some; [|exact IH].
    unfold processKnock'. rewrite processKnock_empty_sequence.
    + by rewrite delete_empty.
    + intros st Hst. by rewrite lookup_empty in Hst.
  - intros ts tn ip port m1. unfold SingleHit.processKnock.
    destruct (SingleHit.lookupOrReset T ts ip m1) as [s ma].
    assert (Hnone : index ([] : list Z) (SingleHit.Index s) = None).
    { unfold index. case_decide; [done|]. by rewrite lookup_nil. }
    by rewrite Hnone.
Qed.

(** ** The single-hit server on its own *)

Section SingleHitCalls.

Variable ports : list Z.
Variable T : Duration.
Variable A : string.

Implicit Types (m : gmap string SingleHit.ClientState).

Lemma sh_lookupOrReset_ready ts s m :
  ready1 T A ts s m ->
  SingleHit.lookupOrReset T ts A m = (s, <[A := s]> m).
Proof.
  unfold SingleHit.lookupOrReset. intros [[Hm ->]|[Hm Hlive]]; rewrite Hm.
  - done.
  - case_decide; [lia|]. by rewrite insert_id.
Qed.

Lemma sh_match ts tn s m p :
  ready1 T A ts s m ->
  index ports (SingleHit.Index s) = Some p ->
  wrap (SingleHit.Index s + 1) <> len ports ->
  SingleHit.processKnock ports T ts tn A p m
  = Some (<[A := {| SingleHit.Index := wrap (SingleHit.Index s + 1);
                    SingleHit.LastKnock := tn |}]> m, []).
Proof.
  intros Hr Hp Hl. unfold SingleHit.processKnock.
  rewrite (sh_lookupOrReset_ready _ _ _ Hr), Hp. simpl.
  rewrite decide_True by done. rewrite decide_False by done.
  by rewrite insert_insert_eq.
Qed.

Lemma sh_complete ts tn s m p :
  ready1 T A ts s m ->
  index ports (SingleHit.Index s) = Some p ->
  wrap (SingleHit.Index s + 1) = len ports ->
  SingleHit.processKnock ports T ts tn A p m
  = Some (delete A m,
          [SingleHit.LogAccessGranted A; SingleHit.PrintOk]).
Proof.
  intros Hr Hp Hl. unfold SingleHit.processKnock.
  rewrite (sh_lookupOrReset_ready _ _ _ Hr), Hp. simpl.
  rewrite decide_True by done. rewrite decide_True by done.
  by rewrite delete_insert_eq.
Qed.

Lemma sh_mismatch ts tn s m p port :
  ready1 T A ts s m ->
  index ports (SingleHit.Index s) = Some p ->
  port <> p ->
  SingleHit.processKnock ports T ts tn A port m
  = Some (delete A m, [SingleHit.LogInvalidKnock A port]).
Proof.
  intros Hr Hp Hl. unfold SingleHit.processKnock.
  rewrite (sh_lookupOrReset_ready _ _ _ Hr), Hp. simpl.
  rewrite decide_False by done. by rewrite delete_insert_eq.
Qed.

Lemma sh_run_cons_Some (k : Knock) ks m m1 ev m2 evs :
  SingleHit.processKnock ports T (k_since k) (k_now k) (k_ip k) (k_port k) m
  = Some (m1, ev) ->
  SingleHit.run ports T ks m1 = Some (m2, evs) ->
  SingleHit.run ports T (k :: ks) m = Some (m2, ev :: evs).
Proof. intros Hk Hrun. simpl. rewrite Hk. simpl. by rewrite Hrun. Qed.

Hypothesis Hlen : len ports <= int_max.

Lemma sh_exact_from rest : forall pre p ks m s k,
  ports = pre ++ p :: rest ->
  SingleHit.Index s = len pre ->
  ready1 T A (k_since k) s m ->
  timely T (k :: ks) ->
  Forall (fun k => k_ip k = A) (k :: ks) ->
  k_port <$> (k :: ks) = p :: rest ->
  SingleHit.run ports T (k :: ks) m
  = Some (delete A m,
          replicate (length rest) []
            ++ [[SingleHit.LogAccessGranted A; SingleHit.PrintOk]]).
Proof.
  induction rest as [|p2 rest IH];
    intros pre p ks m s k Hports Hidx Hready [Hnext Htimely]
      [Hip Hips]%Forall_cons Hk.
  all: simpl in Hk; injection Hk as Hport Hk.
  all: assert (Hp : index ports (SingleHit.Index s) = Some p).
  1,3: rewrite Hports, Hidx; apply index_Some; split; [unfold len; lia|];
       unfold len; rewrite Nat2Z.id; by apply list_lookup_middle.
  all: assert (Hlenp : len pre + 1 <= len ports)
         by (rewrite Hports; unfold len; rewrite length_app; simpl; lia).
  all: assert (Hw : wrap (SingleHit.Index s + 1) = SingleHit.Index s + 1)
         by (apply wrap_small; unfold is_int, int_min, int_max, len in *;
             simpl in *; lia).
  - assert (ks = []) as -> by (by destruct ks).
    eapply sh_run_cons_Some; [|reflexivity].
    rewrite Hip, Hport. eapply sh_complete; [done|done|].
    rewrite Hw, Hidx, Hports. unfold len. rewrite length_app. simpl. lia.
  - destruct ks as [|k2 ks']; [done|].
    set (s' := {| SingleHit.Index := wrap (SingleHit.Index s + 1);
                  SingleHit.LastKnock := k_now k |}).
    eapply sh_run_cons_Some.
    + rewrite Hip, Hport. eapply sh_match; [done|done|].
      rewrite Hw, Hidx, Hports. unfold len. rewrite length_app. simpl. lia.
    + fold s'.
      rewrite (IH (pre ++ [p]) p2 ks' (<[A := s']> m) s' k2);
        [by rewrite delete_insert_eq|by rewrite <- app_assoc| |
         right; split; [apply lookup_insert_eq|exact Hnext]|done|done|done].
      simpl. rewrite Hw, Hidx. unfold len. rewrite length_app. simpl. lia.
Qed.

(** X5: knocking the ports of the single-hit sequence in order, each
    knock within the timeout of the one before, from an address without
    resident state: every call but the last returns without output, the
    last one logs ACCESS GRANTED for the address, and the tracker map
    ends as it started, without an entry for the address. *)
Theorem single_hit_exact_knocks_grant_once ks m :
  ports <> [] ->
  m !! A = None ->
  Forall (fun k => k_ip k = A) ks ->
  k_port <$> ks = ports ->
  timely T ks ->
  SingleHit.run ports T ks m
  = Some (m, replicate (length ports - 1) []
               ++ [[SingleHit.LogAccessGranted A; SingleHit.PrintOk]]) /\
  m !! A = None.
Proof.
  intros Hne Hm Hips Hk Htimely. split; [|done].
  assert (Hports : exists p rest, ports = p :: rest)
    by (destruct ports; [done|by eauto]).
  destruct Hports as (p & rest & Hports).
  destruct ks as [|k ks]; [by rewrite Hports in Hk|].
  rewrite (sh_exact_from rest [] p ks m SingleHit.zeroState k);
    [|done|done|by left|done|done|by rewrite Hk, Hports].
  rewrite delete_id by done. rewrite Hports. simpl.
  by rewrite Nat.sub_0_r.
Qed.

End SingleHitCalls.

(** ** The client against the two servers *)

Lemma exact_run_grants S T A ks (m : gmap string ClientState) :
  wellFormed S ->
  m !! A = None ->
  Forall (fun k => k_ip k = A) ks ->
  k_port <$> ks = knockPorts S ->
  timely T ks ->
  exists evs,
    run S T ks m = Some (m, evs) /\
    outcome <$> evs = Some <$> exactTrace S /\
    mjoin (granted <$> evs) = [A].
Proof.
  intros HS Hm Hips Hports Htimely.
  pose proof HS as (Hne & Hlen & Hall).
  destruct S as [|step rest] eqn:HSeq; [done|]. rewrite <- HSeq in *.
  assert (Hc : 1 <= Count step <= int_max).
  { rewrite HSeq in Hall. by apply Forall_cons in Hall as [? _]. }
  rewrite HSeq in Hports.
  change (knockPorts (step :: rest))
    with (replicate (Z.to_nat (Count step)) (Port step) ++ knockPorts rest)
    in Hports.
  destruct (Z.to_nat (Count step)) as [|n] eqn:Hn; [lia|].
  destruct ks as [|k ks0]; [done|].
  destruct (exact_from S T A HS rest [] step n ks0 m zeroState k)
    as (evs & Hrun & Htrace & Hgr);
    [done|done|done|simpl; lia|by left|done|done|done|].
  rewrite delete_id in Hrun by done.
  exists evs. split; [done|]. split; [|done].
  rewrite Htrace, HSeq. simpl. rewrite Hn. simpl. by rewrite Nat.sub_0_r.
Qed.

Lemma single_hit_server_on_client_ports A
    (k1 k2 k3 k4 k5 k6 : Knock) (m : gmap string SingleHit.ClientState) :
  m !! A = None ->
  Forall (fun k => k_ip k = A) [k1; k2; k3; k4; k5; k6] ->
  k_port <$> [k1; k2; k3; k4; k5; k6]
  = [7001; 7001; 7001; 8002; 9003; 9003] ->
  timely SingleHit.timeout [k1; k2; k3; k4; k5; k6] ->
  SingleHit.run SingleHit.knockSequence SingleHit.timeout
    [k1; k2; k3; k4; k5; k6] m
  = Some (m, [ []; [SingleHit.LogInvalidKnock A 7001]; []; [];
               [SingleHit.LogAccessGranted A; SingleHit.PrintOk];
               [SingleHit.LogInvalidKnock A 9003] ]).
Proof.
  intros Hm Hips Hports (H12 & _ & H34 & H45 & _).
  apply Forall_cons in Hips as [Hi1 Hips].
  apply Forall_cons in Hips as [Hi2 Hips].
  apply Forall_cons in Hips as [Hi3 Hips].
  apply Forall_cons in Hips as [Hi4 Hips].
  apply Forall_cons in Hips as [Hi5 Hips].
  apply Forall_cons in Hips as [Hi6 _].
  injection Hports as Hp1 Hp2 Hp3 Hp4 Hp5 Hp6.
  set (s1 := {| SingleHit.Index := 1; SingleHit.LastKnock := k_now k1 |}).
  set (s3 := {| SingleHit.Index := 1; SingleHit.LastKnock := k_now k3 |}).
  set (s4 := {| SingleHit.Index := 2; SingleHit.LastKnock := k_now k4 |}).
  eapply (sh_run_cons_Some _ _ k1 _ m (<[A := s1]> m)).
  { rewrite Hi1, Hp1.
    by apply (sh_match _ _ A _ _ SingleHit.zeroState); [left|..]. }
  eapply (sh_run_cons_Some _ _ k2 _ _ m).
  { rewrite Hi2, Hp2.
    rewrite (sh_mismatch _ _ A _ _ s1 _ 8002);
      [|right; split; [apply lookup_insert_eq|exact H12]|done|done].
    by rewrite delete_insert_eq, delete_id. }
  eapply (sh_run_cons_Some _ _ k3 _ m (<[A := s3]> m)).
  { rewrite Hi3, Hp3.
    by apply (sh_match _ _ A _ _ SingleHit.zeroState); [left|..]. }
  eapply (sh_run_cons_Some _ _ k4 _ _ (<[A := s4]> m)).
  { rewrite Hi4, Hp4.
    rewrite (sh_match _ _ A _ _ s3);
      [|right; split; [apply lookup_insert_eq|exact H34]|done|done].
    by rewrite insert_insert_eq. }
  eapply (sh_run_cons_Some _ _ k5 _ _ m).
  { rewrite Hi5, Hp5.
    rewrite (sh_complete _ _ A _ _ s4);
      [|right; split; [apply lookup_insert_eq|exact H45]|done|done].
    by rewrite delete_insert_eq, delete_id. }
  eapply (sh_run_cons_Some _ _ k6 _ m m); [|reflexivity].
  rewrite Hi6, Hp6.
  rewrite (sh_mismatch _ _ A _ _ SingleHit.zeroState _ 7001);
    [|by left|done|done].
  by rewrite delete_id.
Qed.

(** X6: the ports the client dials, knocked in time by one address
    without resident state, open both servers as they are configured: the
    hit-count server grants access once, to that address, and leaves its
    map as it was; the single-hit server takes the second 7001 for an
    invalid knock, starts again on the third, grants access on the first
    9003 and takes the second 9003 for an invalid knock. *)
Theorem client_ports_open_both_servers
    (net : nat -> Client.DialResult) A ks
    (m : gmap string ClientState) (m1 : gmap string SingleHit.ClientState) :
  (forall n, net n <> Client.Connected true) ->
  Forall (fun k => k_ip k = A) ks ->
  k_port <$> ks = Client.attempts (fst (Client.client net)) ->
  m !! A = None ->
  m1 !! A = None ->
  (timely HitCount.timeout ks ->
   exists evs,
     run knockSequence HitCount.timeout ks m = Some (m, evs) /\
     mjoin (granted <$> evs) = [A]) /\
  (timely SingleHit.timeout ks ->
   SingleHit.run SingleHit.knockSequence SingleHit.timeout ks m1
   = Some (m1, [ []; [SingleHit.LogInvalidKnock A 7001]; []; [];
                 [SingleHit.LogAccessGranted A; SingleHit.PrintOk];
                 [SingleHit.LogInvalidKnock A 9003] ])).
Proof.
  intros Hnet Hips Hports Hm Hm1.
  assert (Hdial : Client.attempts (fst (Client.client net))
                  = [7001; 7001; 7001; 8002; 9003; 9003]).
  { unfold Client.client.
    destruct (knockLoop_all net Client.knockSeqPorts Hnet 0%nat)
      as (He & Ha & _).
    destruct (Client.knockLoop net 0 Client.knockSeqPorts) as [acts e].
    simpl in He, Ha. subst e. simpl.
    unfold Client.attempts in *. by rewrite omap_app, Ha. }
  rewrite Hdial in Hports. split.
  - intros Htimely.
    destruct (exact_run_grants knockSequence HitCount.timeout A ks m)
      as (evs & Hrun & _ & Hgr); [|done|done|done|done|by exists evs].
    split; [done|]. split; [by vm_compute|].
    repeat constructor; by vm_compute.
  - intros Htimely.
    destruct ks as [|k1 [|k2 [|k3 [|k4 [|k5 [|k6 [|k7 ks]]]]]]]; try done.
    by apply single_hit_server_on_client_ports.
Qed.

(** ** The client and a failing [Close] *)

Lemma knockLoop_panics net ports : forall n j,
  (j < length ports)%nat ->
  (forall i, (i < j)%nat -> net (n + i)%nat <> Client.Connected true) ->
  net (n + j)%nat = Client.Connected true ->
  snd (Client.knockLoop net n ports) = Client.Panicked /\
  Client.attempts (fst (Client.knockLoop net n ports))
  = take (Datatypes.S j) ports /\
  last (fst (Client.knockLoop net n ports)) = Some Client.Close /\
  printed (fst (Client.knockLoop net n ports)) = [] /\
  sleeps (fst (Client.knockLoop net n ports))
  = replicate j (500 * Millisecond).
Proof.
  induction ports as [|p rest IH]; intros n j Hj Hbefore Hat;
    [simpl in Hj; lia|].
  destruct j as [|j].
  - simpl. rewrite Nat.add_0_r in Hat. rewrite Hat. simpl.
    by rewrite take_0.
  - destruct (IH (Datatypes.S n) j) as (He & Ha & Hl & Hp & Hs).
    + simpl in Hj. lia.
    + intros i Hi. replace (Datatypes.S n + i)%nat
        with (n + Datatypes.S i)%nat by lia.
      apply Hbefore. lia.
    + by replace (Datatypes.S n + j)%nat
        with (n + Datatypes.S j)%nat by lia.
    + pose proof (Hbefore 0%nat ltac:(lia)) as H0.
      rewrite Nat.add_0_r in H0. simpl.
      assert (Hnonempty :
        fst (Client.knockLoop net (Datatypes.S n) rest) <> []).
      { intros Hnil. rewrite Hnil in Hl. done. }
      destruct (net n) as [|[|]]; [|done|]; simpl.
      all: destruct (Client.knockLoop net (Datatypes.S n) rest)
             as [more e].
      all: simpl in *; subst e.
      all: unfold Client.attempts, printed, sleeps in *.
      all: destruct more as [|a more]; [done|].
      all: simpl in *; rewrite Ha, Hp, Hs.
      all: repeat split; try done.
Qed.

(** X7: when a [Close] of the client fails, the client panics there: it
    has dialled the ports up to and including that of the failing
    connection and none after it, it has slept after each of the earlier
    dials, its last action is the failing [Close] and it never prints
    "Port knocking send". *)
Theorem client_stops_at_failing_close (net : nat -> Client.DialResult) j :
  (j < length Client.knockSeqPorts)%nat ->
  (forall i, (i < j)%nat -> net i <> Client.Connected true) ->
  net j = Client.Connected true ->
  snd (Client.client net) = Client.Panicked /\
  Client.attempts (fst (Client.client net))
  = take (Datatypes.S j) Client.knockSeqPorts /\
  last (fst (Client.client net)) = Some Client.Close /\
  printed (fst (Client.client net)) = [] /\
  sleeps (fst (Client.client net)) = replicate j (500 * Millisecond).
Proof.
  intros Hj Hbefore Hat.
  destruct (knockLoop_panics net Client.knockSeqPorts 0%nat j Hj)
    as (He & Ha & Hl & Hp & Hs); [done|done|].
  unfold Client.client.
  destruct (Client.knockLoop net 0 Client.knockSeqPorts) as [acts e].
  simpl in *. by subst e.
Qed.

(** ** Package [errs]: details are shared, errors are classified by their
       outermost domain error *)

Section ErrsDetails.

Import Errs.

Implicit Types (e : ErrorOf error) (h : gmap positive (gmap string any)).

Lemma WithDetails_fresh e details h :
  Details e = None ->
  let l := fresh (dom h) in
  h !! l = None /\
  WithDetails e details h
  = ({| Type' := Type' e; Code := Code e; Message := Message e;
        Details := Some l; Cause := Cause e |},
     <[l := details]> h).
Proof.
  intros He l. split.
  - apply not_elem_of_dom. apply is_fresh.
  - unfold WithDetails. rewrite He. unfold mapsCopy.
    by rewrite (right_id_L ∅ (∪)).
Qed.

Lemma WithDetails_shared e details h l :
  Details e = Some l ->
  WithDetails e details h
  = (e, <[l := details ∪ default ∅ (h !! l)]> h).
Proof. intros He. unfold WithDetails. by rewrite He. Qed.

(** X8: the copies made by the [With...] methods share the details map
    of their receiver.  On an error without details [WithDetails]
    allocates a map that holds the given details and changes no map
    there was; on an error that has details it writes the given details
    into the map of the receiver, so the receiver shows them too, and
    returns the receiver's own fields.  Hence an error made by [New] with a
    context shows, after [WithDetail key value] on it, the key as well;
    and [WithCause] gives a copy that shows the same map. *)
Theorem WithDetails_writes_shared_map e details h :
  (Details e = None ->
   (forall l m, h !! l = Some m -> (WithDetails e details h).2 !! l = Some m) /\
   detailsOf (WithDetails e details h).2 (WithDetails e details h).1
   = Some details /\
   detailsOf (WithDetails e details h).2 e = None) /\
  (forall old, detailsOf h e = Some old ->
   (WithDetails e details h).1 = e /\
   detailsOf (WithDetails e details h).2 e = Some (details ∪ old)) /\
  (forall errType code message context key value cause,
     let s := (New errType code message [context] h).1 in
     let h1 := (New errType code message [context] h).2 in
     let h2 := (WithDetail s key value h1).2 in
     detailsOf h1 s = Some {[ "contexto" := context ]} /\
     detailsOf h2 s = Some ({[ key := value ]} ∪ {[ "contexto" := context ]}) /\
     detailsOf h2 (WithCause s cause) = detailsOf h2 s).
Proof.
  split; [|split].
  - intros He. destruct (WithDetails_fresh e details h He) as [Hl ->].
    simpl. split; [|split].
    + intros l m Hm. rewrite lookup_insert_ne; [done|].
      intros <-. by rewrite Hl in Hm.
    + unfold detailsOf. simpl. by rewrite lookup_insert_eq.
    + unfold detailsOf. by rewrite He.
  - intros old Hold. unfold detailsOf in Hold.
    destruct (Details e) as [l|] eqn:He; [|done]. simpl in Hold.
    rewrite (WithDetails_shared e details h l He). simpl.
    split; [done|]. unfold detailsOf. rewrite He. simpl.
    by rewrite lookup_insert_eq, Hold.
  - intros errType code message context key value cause.
    unfold New, WithContext, WithDetail.
    set (e0 := {| Type' := errType; Code := code; Message := message;
                  Details := None; Cause := None |}).
    destruct (WithDetails_fresh e0 {[ "contexto" := context ]} h eq_refl)
      as [Hl ->].
    simpl. unfold detailsOf, WithDetails, mapsCopy. simpl.
    by rewrite !lookup_insert_eq.
Qed.

End ErrsDetails.

Section ErrsClassification.

Import Errs.

(** X9: an error is classified by the first domain error of its chain
    alone: of the eight predicates [IsValidationError] ...
    [IsUnsupportedError] at most one holds of any error, the one for the
    type [GetErrorType] returns; none holds of [nil]; an error wrapped by
    [WrapError] is classified by the type given to [WrapError], whatever
    the wrapped error was; and an error of another package wrapping a
    domain error is classified as that domain error. *)
Theorem classified_by_first_domain_error (err : option error) :
  (forall i j f g,
      typePredicates !! i = Some f -> typePredicates !! j = Some g ->
      f err = true -> g err = true -> i = j) /\
  (forall i f t,
      typePredicates !! i = Some f -> errorTypes !! i = Some t ->
      f err = bool_decide (As err <> None /\ GetErrorType err = t)) /\
  (forall f, f ∈ typePredicates -> f None = false) /\
  (forall errType code message t,
      err <> None ->
      hasType t (Domain <$> WrapError err errType code message)
      = bool_decide (errType = t)) /\
  (forall msg e rest t,
      hasType t (Some (Foreign msg (Domain e :: rest)))
      = bool_decide (Type' e = t)).
Proof.
  split; [|split; [|split; [|split]]].
  - intros i j f g Hf Hg Hfe Hge.
    unfold typePredicates in *.
    destruct (As err) as [e|] eqn:He.
    + assert (Ht : forall k h, typePredicates !! k = Some h -> h err = true ->
                     errorTypes !! k = Some (Type' e)).
      { intros k h Hk Hh. unfold typePredicates, errorTypes in *.
        do 8 (destruct k as [|k]; simpl in Hk;
              [injection Hk as <-;
               unfold IsValidationError, IsNotFoundError, IsMissingError,
                 IsInvalidError, IsProcessingError, IsCreationError,
                 IsConversionError, IsUnsupportedError, hasType in Hh;
               rewrite He in Hh; apply bool_decide_eq_true in Hh;
               simpl; by rewrite Hh|]).
        by rewrite lookup_nil in Hk. }
      pose proof (Ht i f Hf Hfe) as Hi. pose proof (Ht j g Hg Hge) as Hj.
      assert (Hnd : NoDup errorTypes).
      { apply (bool_decide_unpack _). by vm_compute. }
      by eapply NoDup_lookup.
    + do 8 (destruct i as [|i]; simpl in Hf;
            [injection Hf as <-;
             unfold IsValidationError, IsNotFoundError, IsMissingError,
               IsInvalidError, IsProcessingError, IsCreationError,
               IsConversionError, IsUnsupportedError, hasType in Hfe;
             by rewrite He in Hfe|]).
      by rewrite lookup_nil in Hf.
  - intros i f t Hf Ht. unfold typePredicates, errorTypes in *.
    do 8 (destruct i as [|i]; simpl in Hf, Ht;
          [injection Hf as <-; injection Ht as <-;
           unfold IsValidationError, IsNotFoundError, IsMissingError,
             IsInvalidError, IsProcessingError, IsCreationError,
             IsConversionError, IsUnsupportedError, hasType, GetErrorType;
           destruct (As err) as [e|];
           [apply bool_decide_ext; split; [by intros ->|by intros [_ ?]]
           |symmetry; apply bool_decide_eq_false; by intros [? _]]|]).
    by rewrite lookup_nil in Hf.
  - intros f Hf. unfold typePredicates in Hf.
    repeat (apply elem_of_cons in Hf as [->|Hf]; [done|]).
    by apply elem_of_nil in Hf.
  - intros errType code message t Hne.
    destruct err as [e|]; [|done]. done.
  - done.
Qed.

End ErrsClassification.

Section ErrsCombine.

Import Errs.

Variable errorString : gmap positive (gmap string any) -> error -> string.

Implicit Types (h : gmap positive (gmap string any)).

Lemma CombineErrors_unfold mainErr (errs : list (option error)) h :
  ~ (mainErr = None /\ errs = []) ->
  CombineErrors errorString mainErr errs h
  = match omap id errs with
    | [] => (Some (Domain (default multipleErrors mainErr)), h)
    | [err] =>
        (Some (Domain (WithCause (default multipleErrors mainErr) (Some err))),
         h)
    | _ =>
        (Some (Domain (WithDetail (default multipleErrors mainErr)
                         "additional_errors"
                         (VStrings (errorString h <$> omap id errs)) h).1),
         (WithDetail (default multipleErrors mainErr) "additional_errors"
            (VStrings (errorString h <$> omap id errs)) h).2)
    end.
Proof.
  intros Hnot. unfold CombineErrors. fold multipleErrors.
  destruct mainErr as [e|], errs as [|o errs];
    try (by destruct Hnot); cbv beta iota.
  1: generalize (omap id (@nil (option error))).
  2,3: generalize (omap id (o :: errs)).
  all: intros l; destruct l as [|? [|? ?]]; try reflexivity.
  all: by destruct (WithDetail _ _ _ _).
Qed.

(** X10: [CombineErrors] returns [nil] only for a [nil] main error and
    no errors at all.  Otherwise it returns the main error (the
    MULTIPLE_ERRORS error for a [nil] one), with its type, code and
    message: as it is when every error given is [nil], even for a [nil]
    main error; with the one non-nil error as its cause when there is
    exactly one; and, when there are several, with their texts under
    "additional_errors" in its details and its cause unchanged, so that
    none of the errors given is in the chain of the result; a main error
    that has details then shows "additional_errors" itself. *)
Theorem CombineErrors_cases mainErr (errs : list (option error)) h :
  let main1 := default multipleErrors mainErr in
  let valid := omap id errs in
  ((CombineErrors errorString mainErr errs h).1 = None
   <-> mainErr = None /\ errs = []) /\
  (valid = [] -> ~ (mainErr = None /\ errs = []) ->
   CombineErrors errorString mainErr errs h = (Some (Domain main1), h)) /\
  (forall err, valid = [err] ->
   CombineErrors errorString mainErr errs h
   = (Some (Domain (WithCause main1 (Some err))), h)) /\
  (forall err1 err2 rest, valid = err1 :: err2 :: rest ->
   exists e',
     (CombineErrors errorString mainErr errs h).1 = Some (Domain e') /\
     Type' e' = Type' main1 /\ Code e' = Code main1 /\
     Message e' = Message main1 /\ Cause e' = Cause main1 /\
     (exists d,
        detailsOf (CombineErrors errorString mainErr errs h).2 e' = Some d /\
        d !! "additional_errors" = Some (VStrings (errorString h <$> valid))) /\
     (forall old, detailsOf h main1 = Some old ->
        exists d,
          detailsOf (CombineErrors errorString mainErr errs h).2 main1
          = Some d /\
          d !! "additional_errors"
          = Some (VStrings (errorString h <$> valid)))).
Proof.
  intros main1 valid.
  assert (Hnonempty : forall err l, valid = err :: l ->
                        ~ (mainErr = None /\ errs = [])).
  { intros err l Hv [_ ->]. done. }
  split; [|split; [|split]].
  - split.
    + intros Hnil.
      destruct (decide (mainErr = None /\ errs = [])) as [|Hnot]; [done|].
      rewrite (CombineErrors_unfold _ _ _ Hnot) in Hnil.
      by destruct (omap id errs) as [|? [|? ?]].
    + by intros [-> ->].
  - intros Hvalid Hnot. rewrite (CombineErrors_unfold _ _ _ Hnot).
    fold valid. by rewrite Hvalid.
  - intros err Hvalid.
    rewrite (CombineErrors_unfold _ _ _ (Hnonempty _ _ Hvalid)).
    fold valid. by rewrite Hvalid.
  - intros err1 err2 rest Hvalid.
    rewrite (CombineErrors_unfold _ _ _ (Hnonempty _ _ Hvalid)).
    fold valid main1. rewrite Hvalid. rewrite <- Hvalid.
    simpl. unfold WithDetail.
    set (msgs := VStrings (errorString h <$> valid)).
    destruct (Details main1) as [l|] eqn:Hd.
    + rewrite (WithDetails_shared main1 _ h l Hd). simpl.
      exists main1. split; [done|]. do 4 (split; [done|]).
      assert (Hshow :
        exists d,
          detailsOf (<[l := {[ "additional_errors" := msgs ]}
                            ∪ default ∅ (h !! l)]> h) main1 = Some d /\
          d !! "additional_errors" = Some msgs).
      { eexists. unfold detailsOf. rewrite Hd. simpl.
        rewrite lookup_insert_eq. split; [done|].
        apply lookup_union_Some_l, lookup_singleton_eq. }
      split; [exact Hshow|]. intros _ _. exact Hshow.
    + destruct (WithDetails_fresh main1 {[ "additional_errors" := msgs ]} h Hd)
        as [Hl ->]. simpl.
      eexists. split; [done|]. do 4 (split; [done|]). split.
      * eexists. unfold detailsOf. simpl. rewrite lookup_insert_eq.
        split; [done|]. apply lookup_singleton_eq.
      * intros old Hold. unfold detailsOf in Hold. by rewrite Hd in Hold.
Qed.

End ErrsCombine.

Section ErrsCollection.

Import Errs.

Lemma AddAll_Errors (errs : list (option error)) :
  forall m : ErrCollectionOf error,
  Errors (AddAll m errs) = Errors m ++ omap id errs /\
  Err (AddAll m errs) = Err m.
Proof.
  unfold AddAll.
  induction errs as [|o errs IH]; intros m; simpl.
  - by rewrite app_nil_r.
  - destruct (IH (Add m o)) as [-> ->].
    destruct o as [e|]; simpl; [|done].
    by rewrite <- app_assoc.
Qed.

(** X11: an [ErrCollection] keeps the non-nil errors added to it, in the
    order they were added, and skips the [nil] ones: [Count] grows by the
    number of non-nil errors, and [ToError] of a new collection is [nil]
    exactly when every error added was [nil].  When it is not [nil],
    [ToError] is the base error of the collection and carries none of
    the errors added (it has no cause and no details).  [WrapErrors] is
    [nil] for an empty slice only: for a non-empty slice it returns the
    base error made of the type, code and message given, also when every
    element is [nil], and again with none of the errors in its chain. *)
Theorem collection_keeps_non_nil_errors (errs : list (option error))
    (m : ErrCollectionOf error) errType code message :
  let base := {| Type' := errType; Code := code; Message := message;
                 Details := None; Cause := None |} in
  Errors (AddAll m errs) = Errors m ++ omap id errs /\
  Count (AddAll m errs) = Count m + GoInt.len (omap id errs) /\
  (ToError (AddAll (NewErrCollection errType code message) errs) = None
   <-> omap id errs = []) /\
  (omap id errs <> [] ->
   ToError (AddAll (NewErrCollection errType code message) errs)
   = Some (Domain base)) /\
  (WrapErrors errs errType code message = None <-> errs = []) /\
  (errs <> [] ->
   WrapErrors errs errType code message = Some (Domain base)) /\
  Unwrap base = None /\ asCollection (Domain base) = None.
Proof.
  intros base.
  destruct (AddAll_Errors errs m) as [Herrs Herr].
  destruct (AddAll_Errors errs (NewErrCollection errType code message))
    as [Herrs0 Herr0].
  simpl in Herrs0, Herr0.
  assert (Hhas : HasErrors (AddAll (NewErrCollection errType code message) errs)
                 = bool_decide (omap id errs <> [])).
  { unfold HasErrors. rewrite Herrs0. apply bool_decide_ext.
    unfold GoInt.len. destruct (omap id errs); simpl; split; try done; lia. }
  split; [done|]. split.
  { unfold Count. rewrite Herrs. unfold GoInt.len.
    rewrite length_app. lia. }
  split.
  { unfold ToError. rewrite Hhas.
    destruct (omap id errs); simpl; split; done. }
  split.
  { intros Hne. unfold ToError. rewrite Hhas, bool_decide_eq_true_2 by done.
    by rewrite Herr0. }
  split.
  { unfold WrapErrors. destruct errs as [|o errs]; [done|].
    rewrite decide_False; [split; done|].
    unfold GoInt.len. simpl. lia. }
  split; [|done].
  intros Hne. unfold WrapErrors.
  rewrite decide_False.
  - by rewrite Herr0.
  - unfold GoInt.len. destruct errs; [done|]. simpl. lia.
Qed.

Lemma GetErrors_foldl (l : list error) : forall acc,
  foldl (fun errsList err =>
           match asError err with
           | Some sError => errsList ++ [sError]
           | None => errsList
           end) acc l
  = acc ++ omap asError l.
Proof.
  induction l as [|err l IH]; intros acc; simpl.
  - by rewrite app_nil_r.
  - rewrite IH. destruct (asError err); [|done]. by rewrite <- app_assoc.
Qed.

Lemma GetByType_foldl errType (l : list error) : forall acc,
  foldl (fun filtered err =>
           match asError err with
           | Some sError =>
               if decide (Type' sError = errType)
               then filtered ++ [err] else filtered
           | None => filtered
           end) acc l
  = acc ++ filter (fun err => hasType errType (Some err) = true) l.
Proof.
  induction l as [|err l IH]; intros acc; simpl.
  - by rewrite app_nil_r.
  - rewrite IH, filter_cons. unfold hasType, As. simpl.
    destruct (asError err) as [e|]; simpl.
    + destruct (decide (Type' e = errType)) as [Ht|Ht];
        destruct (decide (bool_decide (Type' e = errType) = true)) as [Hb|Hb];
        try (by rewrite <- app_assoc); try done.
      * exfalso. apply Hb. by apply bool_decide_eq_true.
      * by apply bool_decide_eq_true in Hb.
    + by destruct (decide (false = true)).
Qed.

Lemma GetByCode_foldl code (l : list error) : forall acc,
  foldl (fun filtered err =>
           match asError err with
           | Some sError =>
               if decide (Code sError = code)
               then filtered ++ [err] else filtered
           | None => filtered
           end) acc l
  = acc ++ filter (fun err => hasCode code err = true) l.
Proof.
  induction l as [|err l IH]; intros acc; simpl.
  - by rewrite app_nil_r.
  - rewrite IH, filter_cons. unfold hasCode.
    destruct (asError err) as [e|]; simpl.
    + destruct (decide (Code e = code)) as [Ht|Ht];
        destruct (decide (bool_decide (Code e = code) = true)) as [Hb|Hb];
        try (by rewrite <- app_assoc); try done.
      * exfalso. apply Hb. by apply bool_decide_eq_true.
      * by apply bool_decide_eq_true in Hb.
    + by destruct (decide (false = true)).
Qed.

(** X12: the selections of an [ErrCollection] keep the order of the
    collection.  [GetErrors] is the first domain error of the chain of
    each error that has one, which need not be the error added itself;
    [GetByType] and [GetByCode] are the errors added, as they were added,
    whose first domain error has the type or the code; [First] and
    [Last] are the two ends of the collection, [nil] when it is empty. *)
Theorem collection_selections_keep_order (m : ErrCollectionOf error)
    errType code :
  GetErrors m = omap asError (Errors m) /\
  GetByType m errType
  = filter (fun err => hasType errType (Some err) = true) (Errors m) /\
  GetByCode m code = filter (fun err => hasCode code err = true) (Errors m) /\
  First m = head (Errors m) /\
  Last m = last (Errors m).
Proof.
  split; [apply (GetErrors_foldl _ [])|].
  split; [apply (GetByType_foldl _ _ [])|].
  split; [apply (GetByCode_foldl _ _ [])|].
  unfold First, Last, GoInt.index, GoInt.len. split.
  - destruct (Errors m) as [|e l]; [done|].
    rewrite decide_True by (simpl; lia). by rewrite decide_False by lia.
  - destruct (Errors m) as [|e l] using rev_ind; [done|].
    rewrite last_snoc, length_app. simpl.
    rewrite decide_True by lia. rewrite decide_False by lia.
    replace (Z.to_nat (Z.of_nat (length l + 1) - 1)) with (length l) by lia.
    by rewrite list_lookup_middle.
Qed.

End ErrsCollection.

(** ** The response handler *)

Section ResponseStatus.

Import Errs Response.

Lemma getStatusCodeForErrorType_range t :
  getStatusCodeForErrorType t ∈ errorStatuses.
Proof.
  unfold getStatusCodeForErrorType, errorStatuses.
  repeat destruct (decide _); rewrite !elem_of_cons; auto 10.
Qed.

(** X13: the status a domain error is answered with agrees with
    [IsClientError] and [IsServerError] but for conversion errors.  An
    error [IsClientError] accepts has a status from 400 to 499; one
    [IsServerError] accepts has status 500, or it is a conversion error
    and has status 422; no error is accepted by both; an unsupported
    error has status 501 and is accepted by neither, and so is, with
    status 500, an error without a domain error in its chain. *)
Theorem status_agrees_with_client_and_server_classes (err : option error) :
  (IsClientError err = true -> 400 <= GetHTTPStatusCode err < 500) /\
  (IsServerError err = true ->
   GetHTTPStatusCode err = 500 \/
   (GetHTTPStatusCode err = 422 /\ IsConversionError err = true)) /\
  (IsConversionError err = true ->
   IsServerError err = true /\ GetHTTPStatusCode err = 422) /\
  ~ (IsClientError err = true /\ IsServerError err = true) /\
  (IsUnsupportedError err = true ->
   IsClientError err = false /\ IsServerError err = false /\
   GetHTTPStatusCode err = 501) /\
  (As err = None ->
   IsClientError err = false /\ IsServerError err = false /\
   (AsCollection err = None -> GetHTTPStatusCode err = 500)).
Proof.
  unfold IsClientError, IsServerError, GetHTTPStatusCode, IsConversionError,
    IsUnsupportedError, hasType.
  destruct (As err) as [e|] eqn:HAs.
  - unfold getStatusCodeForErrorType. split_and!.
    + intros H%bool_decide_eq_true.
      destruct H as [-> | [-> | [-> | ->]]]; by vm_compute.
    + intros H%bool_decide_eq_true.
      destruct H as [-> | [-> | ->]]; simpl; [by left|right; done|by left].
    + intros H%bool_decide_eq_true. rewrite H. split; [|reflexivity].
      apply bool_decide_eq_true. right; left; reflexivity.
    + intros [H1%bool_decide_eq_true H2%bool_decide_eq_true].
      destruct H1 as [H1|[H1|[H1|H1]]]; rewrite H1 in H2;
        destruct H2 as [H2|[H2|H2]]; discriminate H2.
    + intros H%bool_decide_eq_true. rewrite H. split_and!.
      * apply bool_decide_eq_false.
        intros [H'|[H'|[H'|H']]]; discriminate H'.
      * apply bool_decide_eq_false. intros [H'|[H'|H']]; discriminate H'.
      * reflexivity.
    + discriminate.
  - split_and!; try discriminate.
    + intros [H _]; discriminate H.
    + intros _. split_and!; [reflexivity..|]. intros ->. reflexivity.
Qed.

End ResponseStatus.

Section ResponseError.

Import Errs Response.

Variable errorString : gmap positive (gmap string any) -> error -> string.

Implicit Types (h : gmap positive (gmap string any)).

Lemma handleError_calls (e : ErrorOf error) h :
  (handleError errorString e h).1
  = [JSON (getStatusCodeForErrorType (Type' e))
       (ErrorResponse (Code e) (Errs.Message e)
          (DMap (withCausa errorString h (Cause e)
                   (default ∅ (detailsOf h e)))));
     Abort].
Proof.
  unfold handleError, withCausa, detailsOf. simpl.
  destruct (Details e) as [l|], (Cause e) as [c|]; reflexivity.
Qed.

Lemma handleError_heap (e : ErrorOf error) h :
  (handleError errorString e h).2
  = match Details e, Cause e with
    | Some l, Some c =>
        <[l := <["causa" := VString (errorString h c)]> (default ∅ (h !! l))]> h
    | _, _ => h
    end.
Proof.
  unfold handleError. simpl.
  destruct (Details e) as [l|], (Cause e) as [c|]; reflexivity.
Qed.

(** X14: [Error] answers a non-nil error exactly once and a [nil] error
    not at all.  For [nil] it makes no call; otherwise it calls [JSON]
    once, with a body that has no success flag, no data and an error
    part, and then [Abort].  The status is 400, 404, 422, 500 or 501.  An
    error with an [ErrCollection] in its chain is answered with the
    status and code of the base error of the collection and its count,
    whereas [GetHTTPStatusCode] goes by the first domain error of the
    chain when there is one; for an error without a collection the two
    agree.  [ErrOrOk] makes the calls of [Error] on a non-nil error and
    those of [Ok] on [nil]. *)
Theorem Error_answers_once (err : option error) h :
  (err = None -> Error' errorString err h = ([], h)) /\
  (err <> None ->
   exists status body info,
     (Error' errorString err h).1 = [JSON status body; Abort] /\
     Success body = false /\ Data body = None /\
     Response.Error body = Some info /\
     status ∈ errorStatuses /\
     (AsCollection err = None ->
      status = GetHTTPStatusCode err /\ ErrorInfo.TotalErrors info = None) /\
     (forall c, AsCollection err = Some c ->
        status = getStatusCodeForErrorType (Type' (Err c)) /\
        ErrorInfo.Code info = Code (Err c) /\
        ErrorInfo.Message info = Errs.Message (Err c) /\
        ErrorInfo.TotalErrors info = Some (Count c) /\
        (forall e, As err = Some e ->
           GetHTTPStatusCode err = getStatusCodeForErrorType (Type' e)))) /\
  (forall data successMsg,
     ErrOrOk errorString data err successMsg h
     = match err with
       | Some _ => Error' errorString err h
       | None => (Ok data successMsg, h)
       end).
Proof.
  split_and!.
  - intros ->. reflexivity.
  - destruct err as [e|]; [intros _|done].
    unfold Error', AsCollection, As, GetHTTPStatusCode. simpl.
    destruct (asCollection e) as [c|] eqn:Hc.
    + eexists _, _, _. split_and!; [reflexivity..| | |].
      * apply getStatusCodeForErrorType_range.
      * discriminate.
      * intros c' [= <-]. split_and!; [reflexivity..|].
        intros e' He'. by rewrite He'.
    + destruct (asError e) as [eError|] eqn:He.
      * rewrite handleError_calls.
        eexists _, _, _. split_and!; [reflexivity..| | |].
        -- apply getStatusCodeForErrorType_range.
        -- intros _. split; reflexivity.
        -- discriminate.
      * eexists _, _, _. split_and!; [reflexivity..| | |].
        -- unfold errorStatuses. rewrite !elem_of_cons. auto 10.
        -- intros _. split; reflexivity.
        -- discriminate.
  - intros data successMsg. unfold ErrOrOk.
    destruct err as [e|]; [reflexivity|].
    unfold Ok, getMsgOrDefault.
    destruct successMsg as [|m rest]; [|reflexivity].
    destruct (decide (okMessage <> "")); reflexivity.
Qed.

Lemma Error'_domain (e : ErrorOf error) h :
  asCollection (Domain e) = None ->
  Error' errorString (Some (Domain e)) h = handleError errorString e h.
Proof. intros Hc. unfold Error'. by rewrite Hc. Qed.

(** X15: [handleError] writes the cause into the details map of the
    error it answers.  A domain error without a collection in its chain
    is answered with the status of its type, its code and message, and
    its details with the text of its cause under "causa".  When the error
    has both details and a cause, the entry is written into the details
    map of the error itself, which shows it from then on; otherwise no
    map is changed. *)
Theorem Error_writes_cause_into_details (e : ErrorOf error) h :
  asCollection (Domain e) = None ->
  let r := Error' errorString (Some (Domain e)) h in
  let shown :=
    withCausa errorString h (Cause e) (default ∅ (detailsOf h e)) in
  r.1 = [JSON (getStatusCodeForErrorType (Type' e))
           (ErrorResponse (Code e) (Errs.Message e) (DMap shown));
         Abort] /\
  (forall l, Details e = Some l -> Cause e <> None ->
     r.2 = <[l := shown]> h /\ detailsOf r.2 e = Some shown) /\
  (Details e = None \/ Cause e = None -> r.2 = h).
Proof.
  intros Hc r shown. subst r shown. rewrite (Error'_domain _ _ Hc).
  rewrite handleError_calls, handleError_heap. split_and!.
  - reflexivity.
  - intros l Hl Hcause. unfold detailsOf, withCausa. rewrite Hl.
    destruct (Cause e) as [c|]; [|done]. simpl.
    by rewrite lookup_insert_eq.
  - intros [Hd|Hcause]; [by rewrite Hd|].
    rewrite Hcause. by destruct (Details e).
Qed.

(** X16: [ErrWithFallback] passes on an error that has a domain error in
    its chain as [Error] would.  Any other error without a collection,
    [nil] included, is answered with the status, code and message of
    the fallback error and with details that hold the context under
    "contexto" and, for a non-nil error, its text under "causa".  A
    fallback error without details is left as it is, and so is every map
    there was; one that has details gets both entries written into its
    own details map and shows them afterwards. *)
Theorem ErrWithFallback_writes_into_fallback (err : option error)
    (context : string) (fallbackErr : ErrorOf error) h :
  (As err <> None ->
   ErrWithFallback errorString err context fallbackErr h
   = Error' errorString err h) /\
  (As err = None -> AsCollection err = None ->
   let r := ErrWithFallback errorString err context fallbackErr h in
   let h1 := (WithContext fallbackErr (VString context) h).2 in
   let shown :=
     withCausa errorString h1 err
       (<["contexto" := VString context]>
          (default ∅ (detailsOf h fallbackErr))) in
   r.1 = [JSON (getStatusCodeForErrorType (Type' fallbackErr))
            (ErrorResponse (Code fallbackErr) (Errs.Message fallbackErr)
               (DMap shown));
          Abort] /\
   (Details fallbackErr = None ->
    forall l m, h !! l = Some m -> r.2 !! l = Some m) /\
   (forall l, Details fallbackErr = Some l ->
      detailsOf r.2 fallbackErr = Some shown)).
Proof.
  split.
  - intros HAs. unfold ErrWithFallback.
    by destruct (As err).
  - intros HAs Hcoll r h1 shown. subst r h1 shown.
    unfold ErrWithFallback. rewrite HAs.
    unfold WithContext, WithDetail.
    destruct (Details fallbackErr) as [l|] eqn:Hl.
    + rewrite (WithDetails_shared fallbackErr _ h l Hl).
      cbv beta iota zeta.
      assert (Hc : asCollection (Domain (WithCause fallbackErr err)) = None).
      { destruct err as [c|]; [exact Hcoll|reflexivity]. }
      rewrite (Error'_domain _ _ Hc).
      rewrite handleError_calls, handleError_heap.
      unfold detailsOf, withCausa, mapsCopy. simpl. rewrite Hl. simpl.
      rewrite lookup_insert_eq. simpl.
      rewrite <- insert_union_singleton_l.
      split_and!; [reflexivity|discriminate|].
      intros l' [= <-].
      destruct err as [c|]; by rewrite lookup_insert_eq.
    + destruct (WithDetails_fresh fallbackErr {[ "contexto" := VString context ]}
                  h Hl) as [Hfresh ->].
      cbv beta iota zeta.
      rewrite Error'_domain
        by (destruct err as [c|]; [exact Hcoll|reflexivity]).
      rewrite handleError_calls, handleError_heap.
      unfold detailsOf, withCausa. simpl.
      rewrite lookup_insert_eq. simpl.
      split_and!; [|intros _|discriminate].
      * rewrite Hl. by destruct err.
      * intros l' m Hm.
        assert (l' <> fresh (dom h)) by (intros ->; congruence).
        destruct err as [c|]; by rewrite !lookup_insert_ne.
Qed.

(** X17: [NotFound] answers with status 404, the code and message of
    [ErrResourceNotFound] and exactly the two details given, and then
    aborts; it changes no map there was, so the shared error is left
    without details. *)
Theorem NotFound_answers_with_both_details (resourceType : string)
    (identifier : any) h :
  let r := NotFound errorString resourceType identifier h in
  r.1 = [JSON 404
           (ErrorResponse "ERR_RESOURCE_NOT_FOUND"
              (Errs.Message ErrResourceNotFound)
              (DMap (<["identifier" := identifier]>
                       {[ "resource_type" := VString resourceType ]})));
         Abort] /\
  (forall l m, h !! l = Some m -> r.2 !! l = Some m) /\
  detailsOf r.2 ErrResourceNotFound = None.
Proof.
  intros r. subst r. unfold NotFound, WithDetail.
  destruct (WithDetails_fresh ErrResourceNotFound
              {[ "resource_type" := VString resourceType ]} h eq_refl)
    as [Hfresh ->].
  cbv beta iota zeta.
  erewrite WithDetails_shared by reflexivity.
  cbv beta iota zeta. rewrite Error'_domain by reflexivity.
  rewrite handleError_calls, handleError_heap.
  unfold detailsOf, withCausa, mapsCopy. simpl.
  rewrite !lookup_insert_eq. simpl.
  rewrite <- insert_union_singleton_l.
  split_and!; [reflexivity| |reflexivity].
  intros l m Hm.
  assert (l <> fresh (dom h)) by (intros ->; congruence).
  by rewrite !lookup_insert_ne.
Qed.

End ResponseError.

Section ResponseSummary.

Import Errs Response.

Variable errorString : gmap positive (gmap string any) -> error -> string.

Implicit Types (h : gmap positive (gmap string any)).

Lemma imap_shift (l : list (ErrorOf error)) (i : Z) :
  imap (fun j e => (i + Z.of_nat (S j), e)) l
  = imap (fun j e => (i + 1 + Z.of_nat j, e)) l.
Proof. apply imap_ext. intros j e _. f_equal. lia. Qed.

Lemma groupErrors_spec h (l : list (ErrorOf error)) :
  forall i m g,
    (groupErrors errorString h i l m g).2 = g /\
    forall t,
      (groupErrors errorString h i l m g).1 !! t
      = match filter (fun ie : Z * ErrorOf error => Type' ie.2 = t)
                (imap (fun j e => (i + Z.of_nat j, e)) l) with
        | [] => m !! t
        | es => Some (default [] (m !! t) ++ (entryOf h <$> es))
        end.
Proof.
  induction l as [|e l IH]; intros i m g.
  - split; [reflexivity|]. intros t. reflexivity.
  - cbn [groupErrors]. change (asError (Domain e)) with (Some e).
    cbv beta iota.
    match goal with
    | |- context [groupErrors _ _ _ _ ?m1 _] =>
        destruct (IH (i + 1) m1 g) as [Hg Hm]
    end.
    split; [exact Hg|]. intros t. rewrite Hm.
    rewrite imap_cons. change ((fun j e0 => (i + Z.of_nat j, e0)) ∘ S)
      with (fun j (e0 : ErrorOf error) => (i + Z.of_nat (S j), e0)).
    rewrite imap_shift, filter_cons. cbn [snd].
    destruct (decide (Type' e = t)) as [<-|Hne].
    + rewrite lookup_insert_eq. cbn [default].
      replace (i + Z.of_nat 0) with i by lia.
      destruct (filter _ _) as [|x es]; [reflexivity|].
      unfold id. rewrite <- app_assoc. reflexivity.
    + by rewrite lookup_insert_ne.
Qed.

Lemma length_filter_positions (P : ErrorOf error -> Prop)
    `{forall e, base.Decision (P e)} (l : list (ErrorOf error)) :
  forall f : nat -> Z,
    length (filter (fun ie : Z * ErrorOf error => P ie.2)
              (imap (fun j e => (f j, e)) l))
    = length (filter P l).
Proof.
  induction l as [|e l IH]; intros f; [reflexivity|].
  rewrite imap_cons, !filter_cons. cbn [snd].
  specialize (IH (f ∘ S)).
  destruct (decide (P e)); simpl; by rewrite <- IH.
Qed.

Lemma GetErrors_le_Count (c : ErrCollectionOf error) :
  GoInt.len (GetErrors c) <= Count c.
Proof.
  unfold Count, GoInt.len, GetErrors.
  rewrite (GetErrors_foldl (Errors c) []). cbn [app].
  assert (Hle : (length (omap asError (Errors c)) <= length (Errors c))%nat).
  { induction (Errors c) as [|x l IH]; [reflexivity|].
    cbn [omap list_omap]. destruct (asError x); simpl; lia. }
  lia.
Qed.

(** X18: [formatMultipleErrors] groups the domain errors of a collection
    by type.  The errors listed are those of [GetErrors], each with its
    code, message, details and its position in [GetErrors]; under a type
    they keep that order, and a type without errors has no key.
    "errors_by_type" is left out exactly when [GetErrors] is empty, and
    "generic_errors" is never set.  In the summary every one of the
    eight types has the number of errors listed under it, and "total"
    is the count of the collection, which the eight numbers add up to
    only if every error of the collection has a domain error in its
    chain: they count the errors of [GetErrors], of which there are at
    most "total". *)
Theorem formatMultipleErrors_groups_by_type (c : ErrCollectionOf error) h :
  let d := formatMultipleErrors errorString c h in
  generic_errors d = None /\
  (errors_by_type d = None <-> GetErrors c = []) /\
  (forall errorsByType t,
     errors_by_type d = Some errorsByType ->
     errorsByType !! t
     = match filter (fun ie : Z * ErrorOf error => Type' ie.2 = t)
               (positions (GetErrors c)) with
       | [] => None
       | es => Some (entryOf h <$> es)
       end) /\
  summary d !! "total" = Some (Count c) /\
  (forall key t,
     (key, t) ∈ summaryKeys ->
     summary d !! key
     = Some (GoInt.len (filter (fun e => Type' e = t) (GetErrors c)))) /\
  GoInt.len (GetErrors c) <= Count c.
Proof.
  intros d. subst d. unfold formatMultipleErrors.
  destruct (groupErrors_spec h (GetErrors c) 0 ∅ []) as [Hg Hm].
  destruct (groupErrors errorString h 0 (GetErrors c) ∅ [])
    as [errorsByType genericErrors] eqn:Hgroup.
  cbn [fst snd] in Hg, Hm. subst genericErrors.
  assert (Hm' : forall t,
            errorsByType !! t
            = match filter (fun ie : Z * ErrorOf error => Type' ie.2 = t)
                      (positions (GetErrors c)) with
              | [] => None
              | es => Some (entryOf h <$> es)
              end).
  { intros t. rewrite Hm. unfold positions.
    rewrite (imap_ext (fun j e => (0 + Z.of_nat j, e))
               (fun j e => (Z.of_nat j, e)) (GetErrors c))
      by (intros j e _; f_equal; lia).
    rewrite lookup_empty. reflexivity. }
  assert (Hcount : forall t,
            countOf errorsByType t
            = GoInt.len (filter (fun e => Type' e = t) (GetErrors c))).
  { intros t. unfold countOf, GoInt.len. rewrite Hm'.
    rewrite <- (length_filter_positions (fun e => Type' e = t)
                  (GetErrors c) Z.of_nat).
    unfold positions.
    destruct (filter _ _) as [|x es]; [reflexivity|].
    change (default [] (Some ?a)) with a. by rewrite length_fmap. }
  assert (Hempty : errorsByType = ∅ <-> GetErrors c = []).
  { split.
    - intros ->. destruct (GetErrors c) as [|e l] eqn:HG; [reflexivity|].
      specialize (Hm' (Type' e)). rewrite lookup_empty in Hm'.
      unfold positions in Hm'. rewrite imap_cons, filter_cons in Hm'.
      cbn [snd] in Hm'. by rewrite decide_True in Hm' by reflexivity.
    - intros HG. apply map_eq. intros t. rewrite Hm', HG, lookup_empty.
      reflexivity. }
  cbn [generic_errors errors_by_type summary]. split_and!.
  - reflexivity.
  - rewrite <- Hempty. destruct (decide _) as [Hpos|Hpos].
    + split; [discriminate|]. intros ->.
      rewrite map_to_list_empty in Hpos. unfold GoInt.len in Hpos.
      simpl in Hpos. lia.
    + split; [intros _|reflexivity].
      apply map_to_list_empty_iff.
      destruct (map_to_list errorsByType); [reflexivity|].
      unfold GoInt.len in Hpos. simpl in Hpos. lia.
  - intros ebt t Hebt. destruct (decide _); [|discriminate].
    injection Hebt as <-. apply Hm'.
  - reflexivity.
  - intros key t Hkey. rewrite <- Hcount.
    unfold summaryKeys in Hkey. rewrite !elem_of_cons, elem_of_nil in Hkey.
    destruct Hkey as [H|[H|[H|[H|[H|[H|[H|[H|[]]]]]]]]];
      injection H as -> ->; reflexivity.
  - apply GetErrors_le_Count.
Qed.

End ResponseSummary.

(** ** The dependency validator *)

Section ValidatorChecks.

Import Validator.

Lemma checked_context dv checks : context (checked dv checks) = context dv.
Proof.
  revert dv. induction checks as [|c checks IH]; intros dv; [reflexivity|].
  simpl. by rewrite IH.
Qed.

Lemma checked_deps checks : forall dv desc,
  deps (checked dv checks) !! desc
  = match lastChecked checks desc with
    | Some dep => Some dep
    | None => deps dv !! desc
    end.
Proof.
  unfold lastChecked.
  induction checks as [|c checks IH] using rev_ind; intros dv desc.
  - reflexivity.
  - unfold checked. rewrite foldl_app. simpl. fold (checked dv checks).
    rewrite filter_app, filter_cons, filter_nil.
    destruct (decide (c.1 = desc)) as [<-|Hne].
    + rewrite last_snoc. simpl. by rewrite lookup_insert_eq.
    + rewrite app_nil_r, lookup_insert_ne by done. apply IH.
Qed.

Lemma MustValidate_returns visited dv :
  MustValidate visited dv = Returns
  <-> forall desc, desc ∈ visited -> deps dv !! desc <> Some None.
Proof.
  induction visited as [|d visited IH]; simpl.
  - split; [|done]. intros _ desc Hin. by apply elem_of_nil in Hin.
  - destruct (deps dv !! d) as [[x|]|] eqn:Hd.
    + rewrite IH. split.
      * intros H desc [->|Hin]%elem_of_cons; [by rewrite Hd|by apply H].
      * intros H desc Hin. apply H, elem_of_cons. by right.
    + split; [discriminate|]. intros H. exfalso.
      apply (H d); [apply elem_of_cons; by left|exact Hd].
    + rewrite IH. split.
      * intros H desc [->|Hin]%elem_of_cons; [by rewrite Hd|by apply H].
      * intros H desc Hin. apply H, elem_of_cons. by right.
Qed.

Lemma MustValidate_panics visited dv desc ctx :
  MustValidate visited dv = Panics desc ctx ->
  desc ∈ visited /\ deps dv !! desc = Some None /\ ctx = context dv.
Proof.
  induction visited as [|d visited IH]; simpl; [discriminate|].
  destruct (deps dv !! d) as [[x|]|] eqn:Hd.
  - intros (? & ? & ?)%IH. split; [apply elem_of_cons; by right|done].
  - intros [= <- <-]. split; [apply elem_of_cons; by left|done].
  - intros (? & ? & ?)%IH. split; [apply elem_of_cons; by right|done].
Qed.

(** X19: [MustValidate] goes by the value last checked under each
    description.  After any chain of checks on a new validator, in
    whatever order the descriptions are visited, it returns exactly when
    no description was last checked with [nil]: a [nil] checked earlier
    under a description that was checked again is not reported.  When it
    panics, it does so for a description last checked with [nil], with
    the context the validator was made with. *)
Theorem MustValidate_goes_by_last_check (ctx : string)
    (checks : list (string * option Errs.any)) (visited : list string) :
  let dv := checked (NewDependencyValidator ctx) checks in
  (forall desc, desc ∈ visited <-> is_Some (deps dv !! desc)) ->
  (MustValidate visited dv = Returns
   <-> forall desc, lastChecked checks desc <> Some None) /\
  (forall desc ctx',
     MustValidate visited dv = Panics desc ctx' ->
     lastChecked checks desc = Some None /\ ctx' = ctx).
Proof.
  intros dv Hvisited.
  assert (Hdeps : forall desc, deps dv !! desc = lastChecked checks desc).
  { intros desc. unfold dv. rewrite checked_deps.
    destruct (lastChecked checks desc); [reflexivity|].
    apply lookup_empty. }
  split.
  - rewrite MustValidate_returns. split.
    + intros H desc Hlast. apply (H desc); [|by rewrite Hdeps].
      apply Hvisited. rewrite Hdeps, Hlast. by eexists.
    + intros H desc _. rewrite Hdeps. apply H.
  - intros desc ctx' (_ & Hnil & ->)%MustValidate_panics.
    rewrite <- Hdeps. split; [exact Hnil|].
    unfold dv. apply checked_context.
Qed.

End ValidatorChecks.

(** ** The OAuth2 token manager *)

Section OAuth2Cache.

Import OAuth2.

Implicit Types (tm : OAuth2TokenManager) (x : Exchange).

Lemma Split_no_sep s sep :
  Forall (fun p => Contains p sep = false) (Split s sep).
Proof.
  induction s as [|c rest IH]; simpl.
  - by repeat constructor.
  - destruct (decide (c = sep)) as [->|Hne].
    + constructor; [reflexivity|exact IH].
    + destruct (Split rest sep) as [|p ps].
      * constructor; [|constructor]. simpl. by rewrite decide_False.
      * inversion IH as [|? ? Hp Hps]; subst.
        constructor; [|exact Hps]. simpl. by rewrite decide_False.
Qed.

Lemma foldl_insert_lookup (t : TokenAccess) (l : list string) :
  forall (cache : gmap string TokenAccess) k,
    foldl (fun cache sc => <[sc := t]> cache) cache l !! k
    = if decide (k ∈ l) then Some t else cache !! k.
Proof.
  induction l as [|sc l IH]; intros cache k; cbn [foldl].
  - destruct (decide (k ∈ [])) as [Hin|_];
      [by apply elem_of_nil in Hin|reflexivity].
  - rewrite IH. destruct (decide (k ∈ l)) as [Hin|Hnin].
    + rewrite decide_True; [reflexivity|]. apply elem_of_cons. by right.
    + destruct (decide (k = sc)) as [->|Hne].
      * rewrite lookup_insert_eq, decide_True; [reflexivity|].
        apply elem_of_cons. by left.
      * rewrite lookup_insert_ne by done.
        rewrite decide_False; [reflexivity|].
        intros [?|?]%elem_of_cons; done.
Qed.

Lemma store_lookup scope (t : TokenAccess) (cache : gmap string TokenAccess) k :
  store scope t cache !! k
  = if Contains scope space
    then if decide (k ∈ Split scope space) then Some t else cache !! k
    else if decide (k = scope) then Some t else cache !! k.
Proof.
  unfold store. destruct (Contains scope space); simpl.
  - apply foldl_insert_lookup.
  - destruct (decide (k = scope)) as [->|Hne].
    + by rewrite lookup_insert_eq.
    + by rewrite lookup_insert_ne.
Qed.

Lemma store_spaceFree scope (t : TokenAccess) cache :
  spaceFree cache -> spaceFree (store scope t cache).
Proof.
  intros Hfree k Hk. rewrite store_lookup in Hk.
  destruct (Contains scope space) eqn:Hsp.
  - destruct (decide (k ∈ Split scope space)) as [Hin|_]; [|by apply Hfree].
    pose proof (Split_no_sep scope space) as HF.
    rewrite Forall_forall in HF. by apply HF.
  - destruct (decide (k = scope)) as [->|_]; [exact Hsp|by apply Hfree].
Qed.

Lemma authenticate_error tm scope x e tm' req :
  authenticate tm scope x = (Some e, tm', req) -> tm' = tm.
Proof.
  unfold authenticate.
  destruct (urlParse x); [|by intros [= _ <- _]].
  destruct (newRequest x); simpl; [|by intros [= _ <- _]].
  destruct (clientDo x); simpl; [|by intros [= _ <- _]].
  destruct (DecompressResponse _ _); [|by intros [= _ <- _]].
  destruct (readAll x); simpl; [|by intros [= _ <- _]].
  destruct (decide _); [by intros [= _ <- _]|].
  destruct (unmarshal x); [discriminate|by intros [= _ <- _]].
Qed.

Lemma authenticate_ok tm scope x tm' req :
  authenticate tm scope x = (None, tm', req) ->
  exists decoded,
    unmarshal x = Some decoded /\
    tm' = withCache tm (store scope (stamped decoded (now x)) (cache tm)).
Proof.
  unfold authenticate.
  destruct (urlParse x); [|discriminate].
  destruct (newRequest x); simpl; [|discriminate].
  destruct (clientDo x); simpl; [|discriminate].
  destruct (DecompressResponse _ _); [|discriminate].
  destruct (readAll x); simpl; [|discriminate].
  destruct (decide _); [discriminate|].
  destruct (unmarshal x) as [decoded|]; [|discriminate].
  intros [= <- _]. exists decoded. split; [reflexivity|].
  reflexivity.
Qed.

Lemma authenticate_spaceFree tm scope x :
  spaceFree (cache tm) -> spaceFree (cache (authenticate tm scope x).1.2).
Proof.
  intros Hfree.
  destruct (authenticate tm scope x) as [[[e|] tm'] req] eqn:Hauth; simpl.
  - by rewrite (authenticate_error _ _ _ _ _ _ Hauth).
  - destruct (authenticate_ok _ _ _ _ _ Hauth) as (decoded & _ & ->).
    simpl. by apply store_spaceFree.
Qed.

(** X20: a scope that holds a space never gets its header.  The token
    obtained for such a scope is cached under each of the words of the
    scope and not under the scope itself, and no key of the cache ever
    holds a space.  So [SetAuthorizationHeader] with such a scope
    authenticates on every call and never sets the header: it returns
    the error of [authenticate], or, when [authenticate] succeeded,
    panics on the [nil] token that [getAccessToken] returned with a
    [nil] error; the token is by then cached under every word of the
    scope. *)
Theorem scope_with_space_never_gets_header tm
    (r : gmap string (list string)) scope now0 x :
  (forall given clientID clientSecret grantType,
     spaceFree
       (cache (NewOAuth2TokenManager given clientID clientSecret grantType)))
  /\
  (spaceFree (cache tm) ->
   spaceFree (cache (SetAuthorizationHeader tm r scope now0 x).1.2) /\
   (Contains scope space = true ->
    let res := (SetAuthorizationHeader tm r scope now0 x).1.1.1 in
    let tm' := (SetAuthorizationHeader tm r scope now0 x).1.2 in
    (SetAuthorizationHeader tm r scope now0 x).1.1.2 = r /\
    (SetAuthorizationHeader tm r scope now0 x).2
    = (authenticate tm scope x).2 /\
    match (authenticate tm scope x).1.1 with
    | Some e => res = HeaderError e /\ tm' = tm
    | None =>
        res = HeaderPanic /\
        getTokenFromScope tm' scope = None /\
        exists decoded,
          unmarshal x = Some decoded /\
          forall sc, sc ∈ Split scope space ->
            getTokenFromScope tm' sc = Some (stamped decoded (now x))
    end)).
Proof.
  split.
  { intros given clientID clientSecret grantType k [t Hk].
    simpl in Hk. by rewrite lookup_empty in Hk. }
  intros Hfree. split.
  - unfold SetAuthorizationHeader, getAccessToken.
    destruct (decide (scope = "")); [exact Hfree|].
    assert (Hre : spaceFree (cache (reauthenticate tm scope x).1.2)).
    { unfold reauthenticate.
      pose proof (authenticate_spaceFree tm scope x Hfree) as H.
      destruct (authenticate tm scope x) as [[[e|] tm'] req]; exact H. }
    destruct (getTokenFromScope tm scope) as [t|].
    + destruct (LastAuthentication t); [|exact Hfree].
      destruct (After _ _); [exact Hfree|].
      destruct (reauthenticate tm scope x) as [[[| |[?|]] ?] ?]; exact Hre.
    + destruct (reauthenticate tm scope x) as [[[| |[?|]] ?] ?]; exact Hre.
  - intros Hsp res tm'. subst res tm'.
    assert (Hnone : cache tm !! scope = None).
    { destruct (cache tm !! scope) eqn:Hc; [|reflexivity].
      rewrite Hfree in Hsp; [discriminate|]. by eexists. }
    unfold SetAuthorizationHeader, getAccessToken, getTokenFromScope.
    destruct (decide (scope = "")) as [->|_]; [discriminate|].
    rewrite Hnone. unfold reauthenticate, getTokenFromScope.
    destruct (authenticate tm scope x) as [[[e|] tm1] req] eqn:Hauth.
    + simpl. rewrite (authenticate_error _ _ _ _ _ _ Hauth). done.
    + destruct (authenticate_ok _ _ _ _ _ Hauth) as (decoded & Hdec & ->).
      assert (Hscope : store scope (stamped decoded (now x)) (cache tm)
                       !! scope = None).
      { rewrite store_lookup, Hsp.
        rewrite decide_False; [exact Hnone|].
        intros Hin. pose proof (Split_no_sep scope space) as HF.
        rewrite Forall_forall in HF. rewrite (HF _ Hin) in Hsp.
        discriminate. }
      cbn [cache withCache]. rewrite Hscope. simpl.
      split_and!; [reflexivity..|exact Hscope|].
      exists decoded. split; [exact Hdec|].
      intros sc Hin. rewrite store_lookup, Hsp. by rewrite decide_True.
Qed.

Lemma authenticate_nil_iff tm scope x :
  (authenticate tm scope x).1.1 = None <-> wentWell x.
Proof.
  unfold authenticate, wentWell.
  destruct (urlParse x) as [q|].
  2:{ simpl. split; [discriminate|]. by intros [[? [=]] _]. }
  destruct (newRequest x); simpl.
  2:{ split; [discriminate|]. by intros (_ & [=] & _). }
  destruct (clientDo x); simpl.
  2:{ split; [discriminate|]. by intros (_ & _ & [=] & _). }
  destruct (DecompressResponse _ _) as [reader|e].
  2:{ simpl. split; [discriminate|]. by intros (_ & _ & _ & [? [=]] & _). }
  destruct (readAll x); simpl.
  2:{ split; [discriminate|]. by intros (_ & _ & _ & _ & [=] & _). }
  destruct (decide (StatusCode x <> 200)) as [Hs|Hs]; simpl.
  { split; [discriminate|]. by intros (_ & _ & _ & _ & _ & ? & _). }
  destruct (unmarshal x) as [decoded|]; simpl.
  - split; [intros _|reflexivity].
    split_and!; try reflexivity; try by eexists.
    destruct (decide (StatusCode x = 200)); [done|]. by destruct Hs.
  - split; [discriminate|]. by intros (_ & _ & _ & _ & _ & _ & [? [=]]).
Qed.

(** X21: a cached token is served until five seconds before it runs
    out.  After [authenticate] went well for a non-empty scope without a
    space, the token is in the cache under the scope, stamped five
    seconds before the clock reading of [authenticate].  For a lifetime
    that fits a duration, [getAccessToken] returns this very token,
    sends no request and leaves the manager as it is while the clock is
    before the stamp plus the lifetime, whatever the endpoint would
    answer, and [SetAuthorizationHeader] then sets "Authorization" to the
    type and the token with a space between; from that instant on it
    authenticates again.  A token with a lifetime of at most five
    seconds is never served from the cache. *)
Theorem cached_token_served_until_expiry tm scope x decoded
    (r : gmap string (list string)) now0 x' :
  scope <> "" -> Contains scope space = false ->
  wentWell x -> unmarshal x = Some decoded ->
  0 <= ExpiresIn decoded * Second <= GoInt.int_max ->
  let tm' := (authenticate tm scope x).1.2 in
  let tok := stamped decoded (now x) in
  getTokenFromScope tm' scope = Some tok /\
  (now0 < now x + (ExpiresIn decoded - 5) * Second ->
   getAccessToken tm' scope now0 x' = (GotToken (Some tok), tm', None) /\
   SetAuthorizationHeader tm' r scope now0 x'
   = (HeaderDone,
      <["Authorization" :=
          [TokenType decoded +:+ " " +:+ AccessToken decoded]]> r,
      tm', None)) /\
  (now x + (ExpiresIn decoded - 5) * Second <= now0 ->
   getAccessToken tm' scope now0 x' = reauthenticate tm' scope x') /\
  (ExpiresIn decoded <= 5 -> now x <= now0 ->
   getAccessToken tm' scope now0 x' = reauthenticate tm' scope x').
Proof.
  intros Hne Hsp Hwell Hdec Hfit tm' tok.
  apply authenticate_nil_iff with (tm := tm) (scope := scope) in Hwell.
  destruct (authenticate tm scope x) as [[e tm1] req] eqn:Hauth.
  simpl in Hwell. subst e.
  destruct (authenticate_ok _ _ _ _ _ Hauth) as (decoded' & Hdec' & Htm).
  rewrite Hdec in Hdec'. injection Hdec' as <-.
  subst tm'. cbn [fst snd]. fold tok in Htm.
  assert (Htok : getTokenFromScope tm1 scope = Some tok).
  { rewrite Htm. unfold getTokenFromScope. simpl.
    rewrite store_lookup, Hsp. by rewrite decide_True. }
  assert (Hwrap : GoInt.wrap (ExpiresIn decoded * Second)
                  = ExpiresIn decoded * Second).
  { apply wrap_small. unfold GoInt.is_int, GoInt.int_min, GoInt.int_max in *.
    lia. }
  assert (Hget : getAccessToken tm1 scope now0 x'
                 = if bool_decide
                        (now x - 5 * Second + ExpiresIn decoded * Second > now0)
                   then (GotToken (Some tok), tm1, None)
                   else reauthenticate tm1 scope x').
  { unfold getAccessToken. rewrite decide_False by done.
    rewrite Htok. simpl. by rewrite Hwrap. }
  split; [exact Htok|]. split_and!.
  - intros Hnow.
    assert (Hg : getAccessToken tm1 scope now0 x'
                 = (GotToken (Some tok), tm1, None)).
    { rewrite Hget, bool_decide_eq_true_2; [reflexivity|]. lia. }
    split; [exact Hg|].
    unfold SetAuthorizationHeader. by rewrite Hg.
  - intros Hnow. rewrite Hget, bool_decide_eq_false_2; [reflexivity|]. lia.
  - intros Hshort Hnow.
    rewrite Hget, bool_decide_eq_false_2; [reflexivity|].
    unfold Second in *. lia.
Qed.

(** X22: a failed [authenticate] changes nothing.  [authenticate]
    returns [nil] exactly when every step went well: the URL parsed,
    the request was made and sent, the encoding of the reply is one of
    deflate, br, gzip (with a reader made), identity or none, the body
    was read, the status is 200 and the body decoded.  On any error the
    manager and its cache are as before; no request reaches the client
    exactly when the URL did not parse or the request could not be
    made.  [getAccessToken] refuses the empty scope without a request. *)
Theorem failed_authentication_changes_nothing tm scope x now0 :
  ((authenticate tm scope x).1.1 = None <-> wentWell x) /\
  ((authenticate tm scope x).1.1 <> None ->
   (authenticate tm scope x).1.2 = tm) /\
  ((authenticate tm scope x).2 = None
   <-> urlParse x = None \/ newRequest x = false) /\
  getAccessToken tm "" now0 x = (GotError InvalidAccessScope, tm, None).
Proof.
  split_and!.
  - apply authenticate_nil_iff.
  - destruct (authenticate tm scope x) as [[[e|] tm1] req] eqn:Hauth;
      [intros _|done].
    simpl. exact (authenticate_error _ _ _ _ _ _ Hauth).
  - unfold authenticate.
    destruct (urlParse x) as [q|]; [|simpl; split; [by left|done]].
    destruct (newRequest x); simpl; [|split; [by right|done]].
    split; [|by intros [[=]|[=]]].
    destruct (clientDo x); simpl; [|discriminate].
    destruct (DecompressResponse _ _); [|discriminate].
    destruct (readAll x); simpl; [|discriminate].
    destruct (decide _); [discriminate|].
    destruct (unmarshal x); discriminate.
  - reflexivity.
Qed.

Lemma authQuery_lookup tm scope (q : Values) k :
  authQuery tm scope q !! k
  = match authParams tm !! k with
    | Some v => Some [v]
    | None =>
        (<["scope" := [scope]]>
           (<["grant_type" := [grantType tm]]>
              (<["client_secret" := [clientSecret tm]]>
                 (<["client_id" := [clientID tm]]> q)))) !! k
    end.
Proof.
  unfold authQuery. cbv zeta.
  generalize (<["scope" := [scope]]>
                (<["grant_type" := [grantType tm]]>
                   (<["client_secret" := [clientSecret tm]]>
                      (<["client_id" := [clientID tm]]> q)))).
  intros q4.
  apply (map_fold_weak_ind
           (fun (res : Values) (m : gmap string string) =>
              res !! k = match m !! k with
                         | Some v => Some [v]
                         | None => q4 !! k
                         end)).
  - by rewrite lookup_empty.
  - intros i v m res Hi IH. cbv beta. unfold Values in *.
    destruct (decide (k = i)) as [->|Hne].
    + by rewrite !lookup_insert_eq.
    + by rewrite !lookup_insert_ne.
Qed.

(** X23: what the token request carries.  Its values are those of the
    query of the authentication URL, over which come client_id,
    client_secret, grant_type and scope, over which come the optional
    parameters: an optional parameter named like one of the four
    replaces it.  Sent as POST the request has the values in its body,
    an empty query, whatever the URL had, and a form content type; sent
    as GET it has them, secret included, in its query, no body and no
    content type. *)
Theorem token_request_values tm scope (q : Values) :
  (forall k v, authParams tm !! k = Some v ->
     authQuery tm scope q !! k = Some [v]) /\
  (authParams tm !! "client_id" = None ->
   authQuery tm scope q !! "client_id" = Some [clientID tm]) /\
  (authParams tm !! "client_secret" = None ->
   authQuery tm scope q !! "client_secret" = Some [clientSecret tm]) /\
  (authParams tm !! "grant_type" = None ->
   authQuery tm scope q !! "grant_type" = Some [grantType tm]) /\
  (authParams tm !! "scope" = None ->
   authQuery tm scope q !! "scope" = Some [scope]) /\
  (forall k, authParams tm !! k = None ->
     k ∉ ["client_id"; "client_secret"; "grant_type"; "scope"] ->
     authQuery tm scope q !! k = q !! k) /\
  (sendAsPost tm = true ->
   Method (authRequest tm scope q) = MethodPost /\
   RawQuery (authRequest tm scope q) = None /\
   Body (authRequest tm scope q) = Some (authQuery tm scope q) /\
   Header (authRequest tm scope q) !! "Content-Type"
   = Some ["application/x-www-form-urlencoded"]) /\
  (sendAsPost tm = false ->
   Method (authRequest tm scope q) = MethodGet /\
   RawQuery (authRequest tm scope q) = Some (authQuery tm scope q) /\
   Body (authRequest tm scope q) = None /\
   Header (authRequest tm scope q) !! "Content-Type" = None).
Proof.
  split_and!.
  - intros k v Hk. by rewrite authQuery_lookup, Hk.
  - intros Hk. rewrite authQuery_lookup, Hk. unfold Values in *.
    rewrite !lookup_insert_ne by done. by rewrite lookup_insert_eq.
  - intros Hk. rewrite authQuery_lookup, Hk. unfold Values in *.
    rewrite !lookup_insert_ne by done. by rewrite lookup_insert_eq.
  - intros Hk. rewrite authQuery_lookup, Hk. unfold Values in *.
    rewrite !lookup_insert_ne by done. by rewrite lookup_insert_eq.
  - intros Hk. rewrite authQuery_lookup, Hk. unfold Values in *.
    by rewrite lookup_insert_eq.
  - intros k Hk Hnot. rewrite authQuery_lookup, Hk. unfold Values in *.
    rewrite !lookup_insert_ne; [reflexivity|..];
      intros <-; apply Hnot; rewrite !elem_of_cons; auto 10.
  - intros Hpost. unfold authRequest. rewrite Hpost. done.
  - intros Hget. unfold authRequest. rewrite Hget. done.
Qed.

End OAuth2Cache.

(** ** The configuration loader *)

Section LoaderChannels.

Import Config.

Context {T : Type}.

Implicit Types (cl : Loader T) (chans : gmap positive (Chan T))
  (event : ConfigChangeEvent T) (v : Read T).

Lemma push_closed event (c : Chan T) : closed (push event c) = closed c.
Proof. unfold push. by destruct (decide _). Qed.

Lemma push_len event (c : Chan T) :
  GoInt.len (buffer c) <= 10 -> GoInt.len (buffer (push event c)) <= 10.
Proof.
  unfold push, GoInt.len. destruct (decide _) as [Hlt|]; [|done].
  simpl. rewrite length_app. simpl. unfold GoInt.len in Hlt. lia.
Qed.

Lemma trySend_open event chans ch (c : Chan T) :
  chans !! ch = Some c -> closed c = false ->
  exists chans',
    trySend event chans ch = Some chans' /\
    forall ch', chans' !! ch'
                = if decide (ch' = ch) then Some (push event c)
                  else chans !! ch'.
Proof.
  intros Hc Hopen. unfold trySend, push. rewrite Hc, Hopen.
  destruct (decide (GoInt.len (buffer c) < 10)) as [Hlt|Hge].
  - eexists. split; [reflexivity|]. intros ch'.
    destruct (decide (ch' = ch)) as [->|Hne].
    + by rewrite lookup_insert_eq.
    + by rewrite lookup_insert_ne.
  - exists chans. split; [reflexivity|]. intros ch'.
    destruct (decide (ch' = ch)) as [->|Hne]; [exact Hc|reflexivity].
Qed.

Lemma notify_delivered event (subs : list positive) :
  forall chans,
    NoDup subs ->
    (forall ch, ch ∈ subs ->
       exists c, chans !! ch = Some c /\ closed c = false) ->
    exists chans',
      notify event subs chans = Some chans' /\
      delivered event subs chans chans'.
Proof.
  induction subs as [|s subs IH]; intros chans Hnd Hopen.
  - exists chans. split; [reflexivity|]. intros ch.
    destruct (decide (ch ∈ [])) as [Hin|_];
      [by apply elem_of_nil in Hin|reflexivity].
  - apply NoDup_cons in Hnd as [Hs Hnd].
    destruct (Hopen s) as (c & Hc & Hcl); [apply elem_of_cons; by left|].
    destruct (trySend_open event chans s c Hc Hcl) as (chans1 & Hsend & H1).
    destruct (IH chans1 Hnd) as (chans' & Hnot & Hdel).
    { intros ch Hin. rewrite H1.
      destruct (decide (ch = s)) as [->|_]; [done|].
      apply Hopen, elem_of_cons. by right. }
    exists chans'. split; [cbn [notify]; by rewrite Hsend|].
    intros ch. rewrite Hdel, H1.
    destruct (decide (ch = s)) as [->|Hne].
    + rewrite decide_False by done.
      rewrite decide_True by (apply elem_of_cons; by left).
      by rewrite Hc.
    + destruct (decide (ch ∈ subs)) as [Hin|Hnin].
      * by rewrite decide_True by (apply elem_of_cons; by right).
      * rewrite decide_False; [reflexivity|].
        intros [?|?]%elem_of_cons; done.
Qed.

Lemma subscribed_open cl chans ch :
  subscribed (cl, chans) -> ch ∈ subscribers cl ->
  exists c, chans !! ch = Some c /\ closed c = false.
Proof.
  intros (_ & Hdom & Hinv) Hin. cbn [fst snd] in *.
  destruct (Hdom ch Hin) as [c Hc]. exists c. split; [exact Hc|].
  by apply (Hinv ch c Hc).
Qed.

Lemma subscribed_delivered cl cl' chans chans' event :
  subscribed (cl, chans) -> subscribers cl' = subscribers cl ->
  delivered event (subscribers cl) chans chans' ->
  subscribed (cl', chans').
Proof.
  intros (Hnd & Hdom & Hinv) Hsubs Hdel. unfold subscribed.
  cbn [fst snd] in *. rewrite Hsubs. split_and!.
  - exact Hnd.
  - intros ch Hin. rewrite Hdel, decide_True by done.
    destruct (Hdom ch Hin) as [c ->]. by eexists.
  - intros ch c'. rewrite Hdel.
    destruct (decide (ch ∈ subscribers cl)) as [Hin|Hnin].
    + destruct (chans !! ch) as [c|] eqn:Hc; [|discriminate].
      intros [= <-]. rewrite push_closed.
      destruct (Hinv ch c Hc) as [Hcl Hlen].
      split; [exact Hcl|by apply push_len].
    + apply Hinv.
Qed.

Lemma Reload_unreadable cl v now chans err :
  subscribed (cl, chans) -> loadConfig v = inl err ->
  exists chans',
    (Reload cl v now chans).1
    = Some (Some (Errs.Domain
                    (Errs.WithCause ErrConfigReloadFailed (Some err))),
            cl, chans') /\
    delivered {| OldConfig := None; NewConfig := None;
                 Error := Some err; Timestamp := now |}
      (subscribers cl) chans chans'.
Proof.
  intros Hsub Hload.
  destruct (notify_delivered
              {| OldConfig := None; NewConfig := None;
                 Error := Some err; Timestamp := now |}
              (subscribers cl) chans (proj1 Hsub)) as (chans' & Hn & Hdel).
  { intros ch. by apply subscribed_open. }
  exists chans'. split; [|exact Hdel].
  unfold Reload, notifyError. rewrite Hload. cbv beta iota zeta.
  by rewrite Hn.
Qed.

Lemma Reload_rejected cl v now chans newConfig err :
  subscribed (cl, chans) -> loadConfig v = inr newConfig ->
  validator cl ≫= (fun validate => validate newConfig) = Some err ->
  exists chans',
    (Reload cl v now chans).1
    = Some (Some (Errs.Domain
                    (Errs.WithCause ErrValidationReloadFailed (Some err))),
            cl, chans') /\
    delivered {| OldConfig := None; NewConfig := None;
                 Error := Some (Errs.Domain
                                  (Errs.WithCause ErrValidationReloadFailed
                                     (Some err)));
                 Timestamp := now |}
      (subscribers cl) chans chans'.
Proof.
  intros Hsub Hload Hrej.
  destruct (notify_delivered
              {| OldConfig := None; NewConfig := None;
                 Error := Some (Errs.Domain
                                  (Errs.WithCause ErrValidationReloadFailed
                                     (Some err)));
                 Timestamp := now |}
              (subscribers cl) chans (proj1 Hsub)) as (chans' & Hn & Hdel).
  { intros ch. by apply subscribed_open. }
  exists chans'. split; [|exact Hdel].
  unfold Reload, notifyError. rewrite Hload, Hrej. cbv beta iota zeta.
  by rewrite Hn.
Qed.

Lemma Reload_accepted cl v now chans newConfig :
  subscribed (cl, chans) -> loadConfig v = inr newConfig ->
  validator cl ≫= (fun validate => validate newConfig) = None ->
  exists chans',
    (Reload cl v now chans).1
    = Some (None,
            {| options := options cl; current := Some newConfig;
               subscribers := subscribers cl; validator := validator cl;
               cancelled := cancelled cl |},
            chans') /\
    delivered {| OldConfig := GetCurrent cl; NewConfig := Some newConfig;
                 Error := None; Timestamp := now |}
      (subscribers cl) chans chans'.
Proof.
  intros Hsub Hload Hacc.
  destruct (notify_delivered
              {| OldConfig := GetCurrent cl; NewConfig := Some newConfig;
                 Error := None; Timestamp := now |}
              (subscribers cl) chans (proj1 Hsub)) as (chans' & Hn & Hdel).
  { intros ch. by apply subscribed_open. }
  exists chans'. split; [|exact Hdel].
  unfold Reload, notifyChange. rewrite Hload, Hacc. cbv beta iota zeta.
  cbn [subscribers]. by rewrite Hn.
Qed.

(** X24: [Reload] keeps the current configuration when it fails.  On a
    loader whose subscribers are open channels it does not panic.  When
    the file cannot be read or decoded it returns the reload error with
    that error as its cause, and when the validator rejects the new
    configuration it returns the validation error; in both cases
    [GetCurrent] is as before and the subscribers are offered an event
    that carries the error and no configuration.  Otherwise it returns
    [nil], [GetCurrent] is the new configuration and the event carries
    the configuration that was current and the new one.  The event is
    put into the channel of every subscriber with fewer than 10 events
    waiting; a subscriber with 10 misses it, and no other channel
    changes. *)
Theorem Reload_keeps_current_on_failure cl v now chans :
  subscribed (cl, chans) ->
  exists res cl' chans',
    (Reload cl v now chans).1 = Some (res, cl', chans') /\
    subscribed (cl', chans') /\
    subscribers cl' = subscribers cl /\ validator cl' = validator cl /\
    match loadConfig v with
    | inl err =>
        res = Some (Errs.Domain
                      (Errs.WithCause ErrConfigReloadFailed (Some err))) /\
        GetCurrent cl' = GetCurrent cl /\
        delivered {| OldConfig := None; NewConfig := None;
                     Error := Some err; Timestamp := now |}
          (subscribers cl) chans chans'
    | inr newConfig =>
        match validator cl ≫= (fun validate => validate newConfig) with
        | Some err =>
            let validationErr :=
              Errs.Domain
                (Errs.WithCause ErrValidationReloadFailed (Some err)) in
            res = Some validationErr /\
            GetCurrent cl' = GetCurrent cl /\
            delivered {| OldConfig := None; NewConfig := None;
                         Error := Some validationErr; Timestamp := now |}
              (subscribers cl) chans chans'
        | None =>
            res = None /\
            GetCurrent cl' = Some newConfig /\
            delivered {| OldConfig := GetCurrent cl;
                         NewConfig := Some newConfig;
                         Error := None; Timestamp := now |}
              (subscribers cl) chans chans'
        end
    end.
Proof.
  intros Hsub.
  destruct (loadConfig v) as [err|newConfig] eqn:Hload.
  - destruct (Reload_unreadable cl v now chans err Hsub Hload)
      as (chans' & HR & Hdel).
    exists (Some (Errs.Domain
                    (Errs.WithCause ErrConfigReloadFailed (Some err)))),
      cl, chans'.
    split; [exact HR|]. split; [by eapply subscribed_delivered|]. done.
  - destruct (validator cl ≫= _) as [err|] eqn:Hval.
    + destruct (Reload_rejected cl v now chans newConfig err Hsub Hload Hval)
        as (chans' & HR & Hdel).
      eexists _, cl, chans'.
      split; [exact HR|]. split; [by eapply subscribed_delivered|]. done.
    + destruct (Reload_accepted cl v now chans newConfig Hsub Hload Hval)
        as (chans' & HR & Hdel).
      eexists _, _, chans'.
      split; [exact HR|]. split; [by eapply subscribed_delivered|]. done.
Qed.

Lemma Load_fields cl v :
  subscribers (Load cl v).1.2 = subscribers cl /\
  validator (Load cl v).1.2 = validator cl.
Proof. unfold Load. by destruct (loadConfig v). Qed.

Lemma LoadWithValidation_subscribers cl validate v :
  subscribers (LoadWithValidation cl validate v).1.2 = subscribers cl.
Proof.
  unfold LoadWithValidation, Load. destruct (loadConfig v) as [e|c]; [done|].
  destruct validate as [f|]; [|done]. by destruct (f c).
Qed.

(** X25: [LoadWithValidation] keeps the configuration its validator
    rejects.  When the file is read and the validator rejects what was
    read, it returns the validation error and no configuration, but
    [GetCurrent] returns the rejected configuration from then on, and
    the validator is the one of the loader: a [Reload] of the same file
    fails and the rejected configuration stays current.  When the file
    cannot be read or decoded, [LoadWithValidation] returns that error,
    the current configuration is as before and watching is not started,
    yet the validator of the loader is the new one.  A configuration
    file that is not found is no error. *)
Theorem LoadWithValidation_keeps_rejected_config cl
    (validate : T -> option Errs.error) v config err now chans :
  loadConfig v = inr config -> validate config = Some err ->
  let r := LoadWithValidation cl (Some validate) v in
  r.1.1 = inl (Errs.Domain
                 (Errs.WithCause ErrConfigValidationFailed (Some err))) /\
  GetCurrent r.1.2 = Some config /\
  validator r.1.2 = Some validate /\
  (subscribed (cl, chans) ->
   exists cl' chans',
     (Reload r.1.2 v now chans).1
     = Some (Some (Errs.Domain
                     (Errs.WithCause ErrValidationReloadFailed (Some err))),
             cl', chans') /\
     GetCurrent cl' = Some config) /\
  (forall validator' v' e,
     loadConfig v' = inl e ->
     let r' := LoadWithValidation cl validator' v' in
     r'.1.1 = inl e /\ GetCurrent r'.1.2 = GetCurrent cl /\
     validator r'.1.2 = validator' /\ r'.2 = []) /\
  (forall c, unmarshal v = inr c -> readInConfig v = ConfigFileNotFoundError ->
     loadConfig v = inr c).
Proof.
  intros Hload Hrej r. subst r.
  assert (HL : LoadWithValidation cl (Some validate) v
               = (inl (Errs.Domain
                         (Errs.WithCause ErrConfigValidationFailed (Some err))),
                  {| options := options cl; current := Some config;
                     subscribers := subscribers cl;
                     validator := Some validate;
                     cancelled := cancelled cl |},
                  if WatchConfig (options cl) then [StartWatching] else [])).
  { unfold LoadWithValidation, Load. rewrite Hload. cbn -[Errs.WithCause].
    by rewrite Hrej. }
  rewrite HL. cbn [fst snd]. split_and!; [reflexivity..| | |].
  - intros Hsub.
    set (cl1 := {| options := options cl; current := Some config;
                   subscribers := subscribers cl;
                   validator := Some validate;
                   cancelled := cancelled cl |}).
    assert (Hsub1 : subscribed (cl1, chans)) by exact Hsub.
    destruct (Reload_rejected cl1 v now chans config err Hsub1 Hload Hrej)
      as (chans' & HR & _).
    exists cl1, chans'. split; [exact HR|reflexivity].
  - intros validator' v' e He.
    unfold LoadWithValidation, Load. rewrite He. done.
  - intros c Hc Hnf. unfold loadConfig. by rewrite Hnf, Hc.
Qed.

Lemma close_open chans ch (c : Chan T) :
  chans !! ch = Some c -> closed c = false ->
  close chans ch
  = Some (<[ch := {| buffer := buffer c; closed := true |}]> chans).
Proof. intros Hc Hopen. unfold close. by rewrite Hc, Hopen. Qed.

Lemma filter_ne_notin (ch : positive) (l : list positive) :
  ch ∉ l -> filter (fun s => s <> ch) l = l.
Proof.
  induction l as [|s l IH]; intros Hnin; [reflexivity|].
  rewrite filter_cons. apply not_elem_of_cons in Hnin as [Hne Hnin].
  rewrite decide_True by done. by rewrite IH.
Qed.

Lemma unsubscribeFrom_spec ch (subs : list positive) :
  forall before chans,
    NoDup subs ->
    (forall s, s ∈ subs -> exists c, chans !! s = Some c /\ closed c = false) ->
    exists chans',
      unsubscribeFrom before subs ch chans
      = Some (before ++ filter (fun s => s <> ch) subs, chans') /\
      forall ch',
        chans' !! ch'
        = if decide (ch' = ch /\ ch ∈ subs)
          then (fun c => {| buffer := buffer c; closed := true |})
                 <$> chans !! ch'
          else chans !! ch'.
Proof.
  induction subs as [|s subs IH]; intros before chans Hnd Hopen.
  - exists chans. split; [by rewrite filter_nil, app_nil_r|]. intros ch'.
    destruct (decide _) as [[_ Hin]|_];
      [by apply elem_of_nil in Hin|reflexivity].
  - apply NoDup_cons in Hnd as [Hs Hnd]. cbn [unsubscribeFrom].
    rewrite filter_cons.
    destruct (decide (s = ch)) as [->|Hne].
    + destruct (Hopen ch) as (c & Hc & Hcl); [apply elem_of_cons; by left|].
      rewrite (close_open _ _ _ Hc Hcl). eexists. split.
      * cbn. rewrite decide_False by (intros H; by apply H).
        by rewrite (filter_ne_notin ch subs Hs).
      * intros ch'. destruct (decide (ch' = ch)) as [->|Hne'].
        -- rewrite lookup_insert_eq, decide_True, Hc; [reflexivity|].
           split; [reflexivity|apply elem_of_cons; by left].
        -- rewrite lookup_insert_ne by done.
           rewrite decide_False; [reflexivity|]. by intros [? _].
    + rewrite decide_True by done.
      destruct (IH (before ++ [s]) chans Hnd) as (chans' & Hu & Hl).
      { intros s' Hin. apply Hopen, elem_of_cons. by right. }
      exists chans'. split.
      * rewrite Hu. by rewrite <- app_assoc.
      * intros ch'. rewrite Hl.
        destruct (decide (ch' = ch /\ ch ∈ subs)) as [[-> Hin]|Hn].
        -- rewrite decide_True; [reflexivity|].
           split; [reflexivity|apply elem_of_cons; by right].
        -- rewrite decide_False; [reflexivity|].
           intros [-> [?|?]%elem_of_cons]; [done|]. by apply Hn.
Qed.

Lemma closeAll_spec (subs : list positive) :
  forall chans,
    NoDup subs ->
    (forall s, s ∈ subs -> exists c, chans !! s = Some c /\ closed c = false) ->
    exists chans',
      closeAll subs chans = Some chans' /\
      forall ch',
        chans' !! ch'
        = if decide (ch' ∈ subs)
          then (fun c => {| buffer := buffer c; closed := true |})
                 <$> chans !! ch'
          else chans !! ch'.
Proof.
  induction subs as [|s subs IH]; intros chans Hnd Hopen.
  - exists chans. split; [reflexivity|]. intros ch'.
    destruct (decide (ch' ∈ [])) as [Hin|_];
      [by apply elem_of_nil in Hin|reflexivity].
  - apply NoDup_cons in Hnd as [Hs Hnd]. cbn [closeAll].
    destruct (Hopen s) as (c & Hc & Hcl); [apply elem_of_cons; by left|].
    rewrite (close_open _ _ _ Hc Hcl).
    destruct (IH (<[s := {| buffer := buffer c; closed := true |}]> chans) Hnd)
      as (chans' & Hall & Hl).
    { intros s' Hin. rewrite lookup_insert_ne by (intros ->; done).
      apply Hopen, elem_of_cons. by right. }
    exists chans'. split; [exact Hall|]. intros ch'. rewrite Hl.
    destruct (decide (ch' = s)) as [->|Hne].
    + rewrite decide_False by done.
      rewrite lookup_insert_eq, decide_True, Hc; [reflexivity|].
      apply elem_of_cons. by left.
    + rewrite lookup_insert_ne by done.
      destruct (decide (ch' ∈ subs)) as [Hin|Hnin].
      * by rewrite decide_True by (apply elem_of_cons; by right).
      * rewrite decide_False; [reflexivity|].
        intros [?|?]%elem_of_cons; done.
Qed.

Lemma subscribed_same cl cl' chans :
  subscribed (cl, chans) -> subscribers cl' = subscribers cl ->
  subscribed (cl', chans).
Proof. unfold subscribed. cbn [fst snd]. by intros H ->. Qed.

Lemma subscribed_closed_out cl chans ch (c : Chan T) :
  subscribed (cl, chans) -> chans !! ch = Some c -> closed c = true ->
  ch ∉ subscribers cl.
Proof.
  intros (_ & _ & Hinv) Hc Hcl Hin. cbn [fst snd] in *.
  apply (Hinv ch c Hc) in Hin. congruence.
Qed.

Lemma Reload_subscribed cl v now chans :
  subscribed (cl, chans) ->
  exists res cl' chans' event,
    (Reload cl v now chans).1 = Some (res, cl', chans') /\
    subscribers cl' = subscribers cl /\
    delivered event (subscribers cl) chans chans'.
Proof.
  intros Hsub.
  destruct (loadConfig v) as [err|newConfig] eqn:Hload.
  - destruct (Reload_unreadable cl v now chans err Hsub Hload)
      as (chans' & HR & Hdel).
    by eexists _, cl, chans', _.
  - destruct (validator cl ≫= (fun validate => validate newConfig))
      as [err|] eqn:Hval.
    + destruct (Reload_rejected cl v now chans newConfig err Hsub Hload Hval)
        as (chans' & HR & Hdel).
      by eexists _, cl, chans', _.
    + destruct (Reload_accepted cl v now chans newConfig Hsub Hload Hval)
        as (chans' & HR & Hdel).
      by eexists _, _, chans', _.
Qed.

Lemma call_subscribed (c : Call T) (st : Loader T * gmap positive (Chan T)) :
  subscribed st ->
  exists st',
    call c st = Some st' /\ subscribed st' /\
    forall ch c0,
      st.2 !! ch = Some c0 -> closed c0 = true ->
      exists c', st'.2 !! ch = Some c' /\ closed c' = true /\
                 buffer c' `suffix_of` buffer c0.
Proof.
  destruct st as [cl chans]. intros Hsub.
  assert (Hsame : forall ch c0,
            chans !! ch = Some c0 -> closed c0 = true ->
            exists c', chans !! ch = Some c' /\ closed c' = true /\
                       buffer c' `suffix_of` buffer c0).
  { intros ch c0 Hc Hcl. by exists c0. }
  destruct c as [v|validate v|v now| |ch| |ch]; cbn [call fst snd].
  - eexists. split; [reflexivity|]. split; [|exact Hsame].
    eapply subscribed_same; [exact Hsub|]. apply Load_fields.
  - eexists. split; [reflexivity|]. split; [|exact Hsame].
    eapply subscribed_same; [exact Hsub|].
    apply LoadWithValidation_subscribers.
  - destruct (Reload_subscribed cl v now chans Hsub)
      as (res & cl' & chans' & event & -> & Hsubs & Hdel).
    eexists. split; [reflexivity|]. cbn [fst snd]. split.
    + by eapply subscribed_delivered.
    + intros ch c0 Hc Hcl. exists c0. rewrite Hdel.
      rewrite decide_False by (by eapply subscribed_closed_out).
      done.
  - eexists. split; [reflexivity|]. unfold Subscribe. cbn [fst snd].
    destruct Hsub as (Hnd & Hdom & Hinv). cbn [fst snd] in *.
    assert (Hfresh : chans !! fresh (dom chans) = None).
    { apply not_elem_of_dom, is_fresh. }
    assert (Hnew : fresh (dom chans) ∉ subscribers cl).
    { intros Hin. destruct (Hdom _ Hin) as [? ?]. congruence. }
    split; [unfold subscribed; cbn [fst snd subscribers]; split_and!|].
    + apply NoDup_app. split_and!; [exact Hnd| |apply NoDup_singleton].
      intros s Hin [->|[]%elem_of_nil]%elem_of_cons. done.
    + intros s [Hin|[->|[]%elem_of_nil]%elem_of_cons]%elem_of_app.
      * rewrite lookup_insert_ne by (intros <-; done). by apply Hdom.
      * rewrite lookup_insert_eq. by eexists.
    + intros s c.
      destruct (decide (s = fresh (dom chans))) as [->|Hne].
      * rewrite lookup_insert_eq. intros [= <-]. cbn. split; [|done].
        split; [intros _|done].
        apply elem_of_app. right. apply elem_of_cons. by left.
      * rewrite lookup_insert_ne by done. intros Hc.
        destruct (Hinv s c Hc) as [Hcl Hlen]. split; [|exact Hlen].
        rewrite Hcl, elem_of_app, elem_of_cons, elem_of_nil. tauto.
    + intros s c0 Hc Hcl. exists c0.
      rewrite lookup_insert_ne by (intros <-; congruence). done.
  - pose proof Hsub as (Hnd & Hdom & Hinv). cbn [fst snd] in *.
    destruct (unsubscribeFrom_spec ch (subscribers cl) [] chans Hnd)
      as (chans' & Hu & Hl).
    { intros s. by apply subscribed_open. }
    unfold Unsubscribe. rewrite Hu. cbn.
    eexists. split; [reflexivity|]. cbn [fst snd].
    split; [unfold subscribed; cbn [fst snd subscribers]; split_and!|].
    + by apply NoDup_filter.
    + intros s [Hne Hin]%list_elem_of_filter. rewrite Hl.
      rewrite decide_False by (by intros [? _]). by apply Hdom.
    + intros s c. rewrite Hl, list_elem_of_filter.
      destruct (decide (s = ch /\ ch ∈ subscribers cl)) as [[-> Hin]|Hn].
      * destruct (chans !! ch) as [c0|] eqn:Hc0; [|discriminate].
        intros [= <-]. cbn. destruct (Hinv ch c0 Hc0) as [_ Hlen].
        split; [|exact Hlen]. split; [discriminate|]. by intros [? _].
      * intros Hc. destruct (Hinv s c Hc) as [Hcl Hlen].
        split; [|exact Hlen]. rewrite Hcl. split; [|tauto].
        intros Hin. split; [|exact Hin]. intros ->. by apply Hn.
    + intros s c0 Hc Hcl. exists c0. rewrite Hl.
      rewrite decide_False; [done|].
      intros [-> Hin]. by eapply subscribed_closed_out.
  - pose proof Hsub as (Hnd & Hdom & Hinv). cbn [fst snd] in *.
    destruct (closeAll_spec (subscribers cl) chans Hnd) as (chans' & Hc & Hl).
    { intros s. by apply subscribed_open. }
    unfold Stop. rewrite Hc. cbn.
    eexists. split; [reflexivity|]. cbn [fst snd].
    split; [unfold subscribed; cbn [fst snd subscribers]; split_and!|].
    + apply NoDup_nil_2.
    + by intros s []%elem_of_nil.
    + intros s c. rewrite Hl, elem_of_nil.
      destruct (decide (s ∈ subscribers cl)) as [Hin|Hnin].
      * destruct (chans !! s) as [c0|] eqn:Hc0; [|discriminate].
        intros [= <-]. cbn. destruct (Hinv s c0 Hc0) as [_ Hlen].
        split; [|exact Hlen]. split; [discriminate|done].
      * intros Hcs. destruct (Hinv s c Hcs) as [Hcl Hlen].
        split; [|exact Hlen]. rewrite Hcl. tauto.
    + intros s c0 Hcs Hcl. exists c0. rewrite Hl.
      rewrite decide_False by (by eapply subscribed_closed_out). done.
  - eexists. split; [reflexivity|]. unfold receive.
    destruct Hsub as (Hnd & Hdom & Hinv). cbn [fst snd] in *.
    destruct (chans !! ch) as [c|] eqn:Hc;
      [|split; [by split_and!|exact Hsame]].
    assert (Htail : buffer c = [] /\ tail (buffer c) = []
                    \/ exists e, buffer c = e :: tail (buffer c)).
    { destruct (buffer c) as [|e l]; [by left|right; by exists e]. }
    split; [unfold subscribed; cbn [fst snd]; split_and!|].
    + exact Hnd.
    + intros s Hin. destruct (decide (s = ch)) as [->|Hne].
      * rewrite lookup_insert_eq. by eexists.
      * rewrite lookup_insert_ne by done. by apply Hdom.
    + intros s c'. destruct (decide (s = ch)) as [->|Hne].
      * rewrite lookup_insert_eq. intros [= <-]. cbn.
        destruct (Hinv ch c Hc) as [Hcl Hlen]. split; [exact Hcl|].
        unfold GoInt.len in *.
        destruct Htail as [[_ ->]|[e He]]; [simpl; lia|].
        rewrite He in Hlen. simpl in Hlen. lia.
      * rewrite lookup_insert_ne by done. apply Hinv.
    + intros s c0 Hcs Hcl. destruct (decide (s = ch)) as [->|Hne].
      * rewrite lookup_insert_eq. eexists. split; [reflexivity|].
        rewrite Hc in Hcs. injection Hcs as <-. cbn. split; [exact Hcl|].
        destruct Htail as [[_ ->]|[e He]]; [apply suffix_nil|].
        rewrite He at 2. by apply suffix_cons_r.
      * rewrite lookup_insert_ne by done. by exists c0.
Qed.

(** X26: the calls of a client never panic on a channel.  On a new
    loader, whatever the client calls in whatever order ([Load],
    [LoadWithValidation], [Reload], [Subscribe], [Unsubscribe] of any
    channel, also twice or after [Stop], [Stop], also twice, and
    receiving), every call returns: no event is sent on a closed channel
    and no channel is closed twice.  All along, the subscribers are
    distinct, a channel is open exactly when it is subscribed, and no
    channel holds more than 10 events; a channel that is closed stays
    closed and gets no further event. *)
Theorem calls_never_panic (cs : list (Call T))
    (st : Loader T * gmap positive (Chan T)) :
  (forall options, subscribed (NewViper T options, ∅)) /\
  (subscribed st ->
   exists st',
     calls cs st = Some st' /\ subscribed st' /\
     forall ch c0,
       st.2 !! ch = Some c0 -> closed c0 = true ->
       exists c', st'.2 !! ch = Some c' /\ closed c' = true /\
                  buffer c' `suffix_of` buffer c0).
Proof.
  split.
  { intros options. unfold subscribed. cbn [fst snd NewViper subscribers].
    split_and!.
    - apply NoDup_nil_2.
    - by intros ch []%elem_of_nil.
    - intros ch c Hc. by rewrite lookup_empty in Hc. }
  revert st. induction cs as [|c cs IH]; intros st Hsub.
  - exists st. split; [reflexivity|]. split; [exact Hsub|].
    intros ch c0 Hc Hcl. by exists c0.
  - destruct (call_subscribed c st Hsub) as (st1 & Hcall & Hsub1 & Hfr1).
    destruct (IH st1 Hsub1) as (st' & Hcalls & Hsub' & Hfr').
    exists st'. split; [cbn [calls]; by rewrite Hcall|].
    split; [exact Hsub'|].
    intros ch c0 Hc Hcl.
    destruct (Hfr1 ch c0 Hc Hcl) as (c1 & Hc1 & Hcl1 & Hsuf1).
    destruct (Hfr' ch c1 Hc1 Hcl1) as (c' & Hc' & Hcl' & Hsuf').
    exists c'. split; [exact Hc'|]. split; [exact Hcl'|].
    by etransitivity.
Qed.

End LoaderChannels.

Section LoaderErrors.

Import Config.

Context {T : Type}.

Variable errorString : gmap positive (gmap string Errs.any) -> Errs.error -> string.

(** X27: answering the error of a failed [Reload] marks the error of
    the package.  The errors of package [config] are made with a
    context, so each has a details map, which the errors made from it
    with [WithCause] share.  When the file cannot be read, [Reload]
    returns such a copy of [ErrConfigReloadFailed]; [Error] answers it
    with status 500 and the details of [ErrConfigReloadFailed] plus the
    text of the cause under "causa", and writes that entry into the
    details of [ErrConfigReloadFailed] itself, where every later use of
    the package error shows it. *)
Theorem answering_reload_error_marks_package_error (cl : Loader T)
    (v : Read T) now chans ioerr
    (h : gmap positive (gmap string Errs.any)) d :
  Errs.detailsOf initHeap ErrConfigReloadFailed
  = Some {[ "contexto" := Errs.VString cfgIfTag ]} /\
  (readInConfig v = ReadError ioerr -> Errs.asCollection ioerr = None ->
   subscribed (cl, chans) ->
   Errs.detailsOf h ErrConfigReloadFailed = Some d ->
   exists err chans',
     (Reload cl v now chans).1 = Some (Some (Errs.Domain err), cl, chans') /\
     Errs.Cause err
     = Some (Errs.Domain
               (Errs.WithCause ErrConfigFileReadFailed (Some ioerr))) /\
     let r := Response.Error' errorString (Some (Errs.Domain err)) h in
     let shown :=
       <["causa" :=
           Errs.VString
             (errorString h
                (Errs.Domain
                   (Errs.WithCause ErrConfigFileReadFailed (Some ioerr))))]>
         d in
     r.1 = [Response.JSON 500
              (Response.ErrorResponse "ERR_CONFIG_RELOAD_FAILED"
                 (Errs.Message ErrConfigReloadFailed) (Response.DMap shown));
            Response.Abort] /\
     Errs.detailsOf r.2 ErrConfigReloadFailed = Some shown).
Proof.
  split; [by vm_compute|].
  intros Hread Hcoll Hsub Hd.
  assert (Hload : loadConfig v
                  = inl (Errs.Domain
                           (Errs.WithCause ErrConfigFileReadFailed
                              (Some ioerr)))).
  { unfold loadConfig. by rewrite Hread. }
  destruct (Reload_unreadable cl v now chans _ Hsub Hload)
    as (chans' & HR & _).
  eexists _, chans'. split; [exact HR|]. split; [reflexivity|].
  cbv zeta.
  rewrite Error'_domain by exact Hcoll.
  rewrite handleError_calls, handleError_heap.
  assert (Hl : Errs.Details ErrConfigReloadFailed = Some 4%positive)
    by (by vm_compute).
  unfold Errs.detailsOf in *. cbn [Errs.Details Errs.Cause Errs.WithCause].
  rewrite Hl in *. cbn [mbind option_bind] in *. rewrite Hd.
  cbn [Errs.Type' Errs.Code Errs.Message Errs.WithCause withCausa default].
  split.
  - reflexivity.
  - by rewrite lookup_insert_eq.
Qed.

End LoaderErrors.

(** * The further properties on concrete runs *)

Lemma access_granted_only_for_whole_sequence_witness :
  let A := "10.0.0.1" in
  let ks := [ knockAt A 7001 0; knockAt A 7001 1; knockAt A 7001 2;
              knockAt A 8002 3; knockAt A 9003 4; knockAt A 9003 5 ] in
  let ev := [LogKnockOK A 9003 2 2 3 3; LogAccessGranted A; PrintOK] in
  wellFormed knockSequence /\
  (exists evs, run knockSequence timeout ks ∅ = Some (∅, evs) /\
               evs !! 5%nat = Some ev) /\
  A ∈ granted ev /\
  exists stretch,
    stretch `suffix_of` knocksOf A (take 6 ks) /\
    k_port <$> stretch = knockPorts knockSequence /\
    timely timeout stretch.
Proof.
  intros A ks ev.
  set (evs := [ [LogKnockOK A 7001 1 3 1 3]; [LogKnockOK A 7001 2 3 1 3];
                [LogKnockOK A 7001 3 3 1 3]; [LogKnockOK A 8002 1 1 2 3];
                [LogKnockOK A 9003 1 2 3 3]; ev ]).
  assert (Hrun : run knockSequence timeout ks ∅ = Some (∅, evs))
    by (by vm_compute).
  assert (Hev : evs !! 5%nat = Some ev) by reflexivity.
  assert (HA : A ∈ granted ev) by (apply elem_of_cons; by left).
  split; [exact knockSequence_wellFormed|].
  split; [exists evs; split; [exact Hrun|exact Hev]|].
  split; [exact HA|].
  exact (proj2 (access_granted_only_for_whole_sequence knockSequence timeout
                  knockSequence_wellFormed ks ∅ evs 5%nat ev A Hrun Hev HA)).
Defined.

Lemma accept_loop_forwards_connections_witness :
  let A := "10.0.0.1" in
  let turns := [ (7001, Listener.Conn A false false 0 0);
                 (8002, Listener.AcceptError);
                 (7001, Listener.Conn "" true false 1 1);
                 (7001, Listener.Conn A false false 2 2) ] in
  forallb (fun t => negb (Listener.closeFails t)) turns = true /\
  Listener.flatLog <$> Listener.serve knockSequence timeout turns ∅
  = Listener.flatLog
      <$> run knockSequence timeout [knockAt A 7001 0; knockAt A 7001 2] ∅.
Proof.
  intros A turns.
  assert (Hclose : forallb (fun t => negb (Listener.closeFails t)) turns
                   = true) by reflexivity.
  split; [exact Hclose|].
  exact (proj1 (accept_loop_forwards_connections knockSequence timeout
                  turns ∅) Hclose).
Defined.

Lemma single_hit_accept_loop_forwards_all_witness :
  let A := "10.0.0.1" in
  let turns := [ (7001, Listener.Conn A false false 0 0);
                 (8002, Listener.Conn "" true false 1 1) ] in
  forallb (fun t => negb (Listener.closeFails t)) turns = true /\
  Listener.flatLog
    <$> Listener.serve1 SingleHit.knockSequence SingleHit.timeout turns ∅
  = Listener.flatLog
      <$> SingleHit.run SingleHit.knockSequence SingleHit.timeout
            [knockAt A 7001 0; knockAt "" 8002 1] ∅.
Proof.
  intros A turns.
  assert (Hclose : forallb (fun t => negb (Listener.closeFails t)) turns
                   = true) by reflexivity.
  split; [exact Hclose|].
  exact (proj1 (single_hit_accept_loop_forwards_all SingleHit.knockSequence
                  SingleHit.timeout turns ∅) Hclose).
Defined.

Lemma empty_sequence_drops_or_panics_witness :
  let A := "10.0.0.1" in
  let st := {| StepIndex := 0; HitCount := 2; LastKnock := 0 |} in
  let m : gmap string ClientState := {[ A := st ]} in
  (forall st', m !! A = Some st' -> 0 <= StepIndex st') /\
  processKnock [] timeout 1 1 A 7001 m = Some (delete A m, []).
Proof.
  intros A st m.
  assert (Hpos : forall st', m !! A = Some st' -> 0 <= StepIndex st').
  { intros st' Hst. unfold m in Hst. rewrite lookup_singleton_eq in Hst.
    injection Hst as <-. simpl. lia. }
  split; [exact Hpos|].
  exact (proj1 (empty_sequence_drops_or_panics timeout) 1 1 A 7001 m Hpos).
Defined.

Lemma single_hit_exact_knocks_grant_once_witness :
  let A := "10.0.0.1" in
  let ks := [ knockAt A 7001 0; knockAt A 8002 1; knockAt A 9003 2 ] in
  len SingleHit.knockSequence <= int_max /\
  SingleHit.knockSequence <> [] /\
  (∅ : gmap string SingleHit.ClientState) !! A = None /\
  Forall (fun k => k_ip k = A) ks /\
  k_port <$> ks = SingleHit.knockSequence /\
  timely SingleHit.timeout ks /\
  SingleHit.run SingleHit.knockSequence SingleHit.timeout ks ∅
  = Some (∅, [ []; []; [SingleHit.LogAccessGranted A; SingleHit.PrintOk] ]).
Proof.
  intros A ks.
  assert (Hlen : len SingleHit.knockSequence <= int_max) by (by vm_compute).
  assert (Hne : SingleHit.knockSequence <> []) by (intros H; discriminate H).
  assert (Hm : (∅ : gmap string SingleHit.ClientState) !! A = None)
    by reflexivity.
  assert (Hips : Forall (fun k => k_ip k = A) ks) by (repeat constructor).
  assert (Hports : k_port <$> ks = SingleHit.knockSequence) by reflexivity.
  assert (Htimely : timely SingleHit.timeout ks)
    by (repeat split; by vm_compute).
  split; [exact Hlen|]. split; [exact Hne|]. split; [exact Hm|].
  split; [exact Hips|]. split; [exact Hports|]. split; [exact Htimely|].
  exact (proj1 (single_hit_exact_knocks_grant_once SingleHit.knockSequence
                  SingleHit.timeout A Hlen ks ∅ Hne Hm Hips Hports Htimely)).
Defined.

Lemma client_ports_open_both_servers_witness :
  let A := "10.0.0.1" in
  let net : nat -> Client.DialResult := fun _ => Client.Connected false in
  let ks := [ knockAt A 7001 0; knockAt A 7001 1; knockAt A 7001 2;
              knockAt A 8002 3; knockAt A 9003 4; knockAt A 9003 5 ] in
  (forall n, net n <> Client.Connected true) /\
  Forall (fun k => k_ip k = A) ks /\
  k_port <$> ks = Client.attempts (fst (Client.client net)) /\
  timely HitCount.timeout ks /\
  exists evs,
    run knockSequence HitCount.timeout ks ∅ = Some (∅, evs) /\
    mjoin (granted <$> evs) = [A].
Proof.
  intros A net ks.
  assert (Hnet : forall n, net n <> Client.Connected true)
    by (intros n H; discriminate H).
  assert (Hips : Forall (fun k => k_ip k = A) ks) by (repeat constructor).
  assert (Hports : k_port <$> ks = Client.attempts (fst (Client.client net)))
    by reflexivity.
  assert (Htimely : timely HitCount.timeout ks)
    by (repeat split; by vm_compute).
  split; [exact Hnet|]. split; [exact Hips|]. split; [exact Hports|].
  split; [exact Htimely|].
  exact (proj1 (client_ports_open_both_servers net A ks ∅ ∅ Hnet Hips Hports
                  eq_refl eq_refl) Htimely).
Defined.

Lemma client_stops_at_failing_close_witness :
  let net : nat -> Client.DialResult :=
    fun n => match n with
             | 2%nat => Client.Connected true
             | _ => Client.DialError
             end in
  (2 < length Client.knockSeqPorts)%nat /\
  (forall i, (i < 2)%nat -> net i <> Client.Connected true) /\
  net 2%nat = Client.Connected true /\
  snd (Client.client net) = Client.Panicked /\
  Client.attempts (fst (Client.client net)) = [7001; 7001; 7001].
Proof.
  intros net.
  assert (Hj : (2 < length Client.knockSeqPorts)%nat) by (simpl; lia).
  assert (Hbefore : forall i, (i < 2)%nat -> net i <> Client.Connected true).
  { intros [|[|i]] Hi H; [discriminate H|discriminate H|lia]. }
  assert (Hat : net 2%nat = Client.Connected true) by reflexivity.
  split; [exact Hj|]. split; [exact Hbefore|]. split; [exact Hat|].
  destruct (client_stops_at_failing_close net 2%nat Hj Hbefore Hat)
    as (He & Ha & _).
  split; [exact He|exact Ha].
Defined.

Lemma WithDetails_writes_shared_map_witness :
  let e := {| Errs.Type' := Errs.ErrorTypeValidation; Errs.Code := "ERR_X";
              Errs.Message := "x"; Errs.Details := Some 1%positive;
              Errs.Cause := None |} in
  let old : gmap string Errs.any := {[ "contexto" := Errs.VString "ctx" ]} in
  let details : gmap string Errs.any := {[ "campo" := Errs.VString "f" ]} in
  let h : gmap positive (gmap string Errs.any) := {[ 1%positive := old ]} in
  Errs.detailsOf h e = Some old /\
  (Errs.WithDetails e details h).1 = e /\
  Errs.detailsOf (Errs.WithDetails e details h).2 e = Some (details ∪ old).
Proof.
  intros e old details h.
  assert (Hold : Errs.detailsOf h e = Some old) by reflexivity.
  split; [exact Hold|].
  exact (proj1 (proj2 (WithDetails_writes_shared_map e details h)) old Hold).
Defined.

Lemma classified_by_first_domain_error_witness :
  let inner := {| Errs.Type' := Errs.ErrorTypeValidation; Errs.Code := "ERR_X";
                  Errs.Message := "x"; Errs.Details := None;
                  Errs.Cause := None |} in
  let err := Some (Errs.Domain inner) in
  err <> None /\
  Errs.hasType Errs.ErrorTypeValidation
    (Errs.Domain <$> Errs.WrapError err Errs.ErrorTypeNotFound "ERR_Y" "y")
  = bool_decide (Errs.ErrorTypeNotFound = Errs.ErrorTypeValidation).
Proof.
  intros inner err.
  assert (Hne : err <> None) by (intros H; discriminate H).
  split; [exact Hne|].
  exact (proj1 (proj2 (proj2 (proj2 (classified_by_first_domain_error err))))
           Errs.ErrorTypeNotFound "ERR_Y" "y" Errs.ErrorTypeValidation Hne).
Defined.

Lemma CombineErrors_cases_witness :
  let errorString : gmap positive (gmap string Errs.any) -> Errs.error -> string :=
    fun _ _ => "text" in
  let errs : list (option Errs.error) := [None; None] in
  omap id errs = [] /\
  ~ ((None : option (Errs.ErrorOf Errs.error)) = None /\ errs = []) /\
  Errs.CombineErrors errorString None errs ∅
  = (Some (Errs.Domain multipleErrors), ∅).
Proof.
  intros errorString errs.
  assert (Hvalid : omap id errs = []) by reflexivity.
  assert (Hsome : ~ ((None : option (Errs.ErrorOf Errs.error)) = None
                     /\ errs = []))
    by (intros [_ H]; discriminate H).
  split; [exact Hvalid|]. split; [exact Hsome|].
  exact (proj1 (proj2 (CombineErrors_cases errorString None errs ∅))
           Hvalid Hsome).
Defined.

Lemma collection_keeps_non_nil_errors_witness :
  let errs : list (option Errs.error) :=
    [None; Some (Errs.Foreign "io" [])] in
  omap id errs <> [] /\
  Errs.ToError
    (Errs.AddAll (Errs.NewErrCollection Errs.ErrorTypeInvalid "ERR_Z" "z") errs)
  = Some (Errs.Domain
            {| Errs.Type' := Errs.ErrorTypeInvalid; Errs.Code := "ERR_Z";
               Errs.Message := "z"; Errs.Details := None;
               Errs.Cause := None |}).
Proof.
  intros errs.
  assert (Hne : omap id errs <> []) by (intros H; discriminate H).
  split; [exact Hne|].
  exact (proj1 (proj2 (proj2 (proj2
           (collection_keeps_non_nil_errors errs Errs.NewStdErrCollection
              Errs.ErrorTypeInvalid "ERR_Z" "z")))) Hne).
Defined.

Lemma status_agrees_with_client_and_server_classes_witness :
  let err :=
    Some (Errs.Domain
            {| Errs.Type' := Errs.ErrorTypeConversion; Errs.Code := "ERR_C";
               Errs.Message := "c"; Errs.Details := None;
               Errs.Cause := None |}) in
  Response.IsServerError err = true /\
  (Response.GetHTTPStatusCode err = 500 \/
   (Response.GetHTTPStatusCode err = 422 /\
    Errs.IsConversionError err = true)).
Proof.
  intros err.
  assert (Hserver : Response.IsServerError err = true) by reflexivity.
  split; [exact Hserver|].
  exact (proj1 (proj2 (status_agrees_with_client_and_server_classes err))
           Hserver).
Defined.

Lemma Error_answers_once_witness :
  let errorString : gmap positive (gmap string Errs.any) -> Errs.error -> string :=
    fun _ _ => "text" in
  let member :=
    {| Errs.Type' := Errs.ErrorTypeValidation; Errs.Code := "ERR_V";
       Errs.Message := "v"; Errs.Details := None; Errs.Cause := None |} in
  let c := {| Errs.Err := Errs.Err Errs.NewStdErrCollection;
              Errs.Errors := [Errs.Domain member] |} in
  let err := Some (Errs.Collection c) in
  err <> None /\
  exists status body,
    (Response.Error' errorString err ∅).1
    = [Response.JSON status body; Response.Abort] /\
    status = 500 /\
    Response.GetHTTPStatusCode err = 400.
Proof.
  intros errorString member c err.
  assert (Hne : err <> None) by (intros H; discriminate H).
  split; [exact Hne|].
  destruct (proj1 (proj2 (Error_answers_once errorString err ∅)) Hne)
    as (status & body & info & Hcalls & _ & _ & _ & _ & _ & Hc).
  destruct (Hc c eq_refl) as (Hs & _ & _ & _ & HG).
  exists status, body.
  split; [exact Hcalls|]. split; [exact Hs|exact (HG member eq_refl)].
Defined.

Lemma Error_writes_cause_into_details_witness :
  let errorString : gmap positive (gmap string Errs.any) -> Errs.error -> string :=
    fun _ _ => "text" in
  let e := {| Errs.Type' := Errs.ErrorTypeMissing; Errs.Code := "ERR_M";
              Errs.Message := "m"; Errs.Details := Some 1%positive;
              Errs.Cause := Some (Errs.Foreign "io" []) |} in
  let h : gmap positive (gmap string Errs.any) :=
    {[ 1%positive := {[ "contexto" := Errs.VString "ctx" ]} ]} in
  Errs.asCollection (Errs.Domain e) = None /\
  Errs.Cause e <> None /\
  Errs.detailsOf (Response.Error' errorString (Some (Errs.Domain e)) h).2 e
  = Some (<["causa" := Errs.VString "text"]>
            {[ "contexto" := Errs.VString "ctx" ]}).
Proof.
  intros errorString e h.
  assert (Hc : Errs.asCollection (Errs.Domain e) = None) by reflexivity.
  assert (Hcause : Errs.Cause e <> None) by (intros H; discriminate H).
  split; [exact Hc|]. split; [exact Hcause|].
  exact (proj2 (proj1 (proj2 (Error_writes_cause_into_details errorString e h
                                Hc)) 1%positive eq_refl Hcause)).
Defined.

Lemma ErrWithFallback_writes_into_fallback_witness :
  let errorString : gmap positive (gmap string Errs.any) -> Errs.error -> string :=
    fun _ _ => "text" in
  let fallbackErr :=
    {| Errs.Type' := Errs.ErrorTypeProcessing; Errs.Code := "ERR_P";
       Errs.Message := "p"; Errs.Details := Some 1%positive;
       Errs.Cause := None |} in
  let h : gmap positive (gmap string Errs.any) :=
    {[ 1%positive := {[ "campo" := Errs.VString "f" ]} ]} in
  let err := Some (Errs.Foreign "io" []) in
  Errs.As err = None /\ Errs.AsCollection err = None /\
  Errs.detailsOf
    (Response.ErrWithFallback errorString err "ctx" fallbackErr h).2
    fallbackErr
  = Some (<["causa" := Errs.VString "text"]>
            (<["contexto" := Errs.VString "ctx"]>
               {[ "campo" := Errs.VString "f" ]})).
Proof.
  intros errorString fallbackErr h err.
  assert (HAs : Errs.As err = None) by reflexivity.
  assert (Hcoll : Errs.AsCollection err = None) by reflexivity.
  split; [exact HAs|]. split; [exact Hcoll|].
  exact (proj2 (proj2 (proj2 (ErrWithFallback_writes_into_fallback errorString
                                err "ctx" fallbackErr h) HAs Hcoll))
           1%positive eq_refl).
Defined.

Lemma NotFound_answers_with_both_details_witness :
  let errorString : gmap positive (gmap string Errs.any) -> Errs.error -> string :=
    fun _ _ => "text" in
  let m : gmap string Errs.any := {[ "campo" := Errs.VString "f" ]} in
  let h : gmap positive (gmap string Errs.any) := {[ 1%positive := m ]} in
  h !! 1%positive = Some m /\
  (Response.NotFound errorString "user" (Errs.VUint64 7) h).2 !! 1%positive
  = Some m.
Proof.
  intros errorString m h.
  assert (Hm : h !! 1%positive = Some m) by reflexivity.
  split; [exact Hm|].
  exact (proj1 (proj2 (NotFound_answers_with_both_details errorString "user"
                         (Errs.VUint64 7) h)) 1%positive m Hm).
Defined.

Lemma formatMultipleErrors_groups_by_type_witness :
  let errorString : gmap positive (gmap string Errs.any) -> Errs.error -> string :=
    fun _ _ => "text" in
  let invalid code :=
    {| Errs.Type' := Errs.ErrorTypeInvalid; Errs.Code := code;
       Errs.Message := "i"; Errs.Details := None; Errs.Cause := None |} in
  let c := {| Errs.Err := Errs.Err Errs.NewStdErrCollection;
              Errs.Errors := [ Errs.Domain (invalid "ERR_1");
                               Errs.Foreign "io" [];
                               Errs.Domain (invalid "ERR_2") ] |} in
  ("invalid", Errs.ErrorTypeInvalid) ∈ summaryKeys /\
  Response.summary (Response.formatMultipleErrors errorString c ∅) !! "invalid"
  = Some 2 /\
  Response.summary (Response.formatMultipleErrors errorString c ∅) !! "total"
  = Some 3.
Proof.
  intros errorString invalid c.
  assert (Hkey : ("invalid", Errs.ErrorTypeInvalid) ∈ summaryKeys).
  { unfold summaryKeys. rewrite !elem_of_cons. auto 10. }
  split; [exact Hkey|].
  destruct (formatMultipleErrors_groups_by_type errorString c ∅)
    as (_ & _ & _ & Htotal & Hsum & _).
  split; [exact (Hsum "invalid" Errs.ErrorTypeInvalid Hkey)|exact Htotal].
Defined.

Lemma MustValidate_goes_by_last_check_witness :
  let checks : list (string * option Errs.any) :=
    [ ("db", None); ("db", Some (Errs.VBoxed 1)) ] in
  let dv := checked (Validator.NewDependencyValidator "svc") checks in
  (forall desc, desc ∈ ["db"] <-> is_Some (Validator.deps dv !! desc)) /\
  Validator.MustValidate ["db"] dv = Validator.Returns /\
  forall desc, lastChecked checks desc <> Some None.
Proof.
  intros checks dv.
  assert (Hvisited : forall desc,
            desc ∈ ["db"] <-> is_Some (Validator.deps dv !! desc)).
  { intros desc. rewrite elem_of_cons, elem_of_nil. split.
    - intros [->|[]]. by eexists.
    - intros [dep Hdep]. destruct (decide (desc = "db")) as [|Hne]; [by left|].
      unfold dv in Hdep. simpl in Hdep.
      rewrite !lookup_insert_ne, lookup_empty in Hdep by done.
      discriminate Hdep. }
  assert (Hret : Validator.MustValidate ["db"] dv = Validator.Returns)
    by reflexivity.
  split; [exact Hvisited|]. split; [exact Hret|].
  exact (proj1 (proj1 (MustValidate_goes_by_last_check "svc" checks ["db"]
                         Hvisited)) Hret).
Defined.

Lemma scope_with_space_never_gets_header_witness :
  let tm := OAuth2.NewOAuth2TokenManager None "id" "secret" "client_credentials" in
  let decoded :=
    {| OAuth2.AccessToken := "abc"; OAuth2.TokenType := "Bearer";
       OAuth2.ExpiresIn := 3600; OAuth2.RefreshToken := "";
       OAuth2.Scope := "openid profile";
       OAuth2.LastAuthentication := None |} in
  let x := {| OAuth2.urlParse := Some ∅; OAuth2.newRequest := true;
              OAuth2.clientDo := true; OAuth2.ContentEncoding := "gzip";
              OAuth2.gzipNewReader := true; OAuth2.readAll := true;
              OAuth2.StatusCode := 200; OAuth2.unmarshal := Some decoded;
              OAuth2.now := 100 * Second |} in
  spaceFree (OAuth2.cache tm) /\
  OAuth2.Contains "openid profile" OAuth2.space = true /\
  (OAuth2.SetAuthorizationHeader tm ∅ "openid profile" (100 * Second) x).1.1.1
  = OAuth2.HeaderPanic.
Proof.
  intros tm decoded x.
  assert (Hfree : spaceFree (OAuth2.cache tm)).
  { intros k [t Hk]. simpl in Hk. by rewrite lookup_empty in Hk. }
  assert (Hsp : OAuth2.Contains "openid profile" OAuth2.space = true)
    by reflexivity.
  split; [exact Hfree|]. split; [exact Hsp|].
  exact (proj1 (proj2 (proj2 (proj2 (proj2
           (scope_with_space_never_gets_header tm ∅ "openid profile"
              (100 * Second) x) Hfree) Hsp)))).
Defined.

Lemma cached_token_served_until_expiry_witness :
  let tm := OAuth2.NewOAuth2TokenManager None "id" "secret" "client_credentials" in
  let decoded :=
    {| OAuth2.AccessToken := "abc"; OAuth2.TokenType := "Bearer";
       OAuth2.ExpiresIn := 3600; OAuth2.RefreshToken := "";
       OAuth2.Scope := "api"; OAuth2.LastAuthentication := None |} in
  let x := {| OAuth2.urlParse := Some ∅; OAuth2.newRequest := true;
              OAuth2.clientDo := true; OAuth2.ContentEncoding := "";
              OAuth2.gzipNewReader := false; OAuth2.readAll := true;
              OAuth2.StatusCode := 200; OAuth2.unmarshal := Some decoded;
              OAuth2.now := 100 * Second |} in
  let x' := {| OAuth2.urlParse := None; OAuth2.newRequest := false;
               OAuth2.clientDo := false; OAuth2.ContentEncoding := "";
               OAuth2.gzipNewReader := false; OAuth2.readAll := false;
               OAuth2.StatusCode := 500; OAuth2.unmarshal := None;
               OAuth2.now := 200 * Second |} in
  let tm' := (OAuth2.authenticate tm "api" x).1.2 in
  "api" <> "" /\ OAuth2.Contains "api" OAuth2.space = false /\
  wentWell x /\ OAuth2.unmarshal x = Some decoded /\
  0 <= OAuth2.ExpiresIn decoded * Second <= GoInt.int_max /\
  200 * Second < OAuth2.now x + (OAuth2.ExpiresIn decoded - 5) * Second /\
  OAuth2.getAccessToken tm' "api" (200 * Second) x'
  = (OAuth2.GotToken (Some (stamped decoded (OAuth2.now x))), tm', None).
Proof.
  intros tm decoded x x' tm'.
  assert (Hne : "api" <> "") by (intros H; discriminate H).
  assert (Hsp : OAuth2.Contains "api" OAuth2.space = false) by reflexivity.
  assert (Hwell : wentWell x).
  { unfold wentWell. simpl.
    split; [by eexists|]. split; [reflexivity|]. split; [reflexivity|].
    split; [by eexists|]. split; [reflexivity|]. split; [reflexivity|].
    by eexists. }
  assert (Hdec : OAuth2.unmarshal x = Some decoded) by reflexivity.
  assert (Hfit : 0 <= OAuth2.ExpiresIn decoded * Second <= GoInt.int_max)
    by (split; by vm_compute).
  assert (Hnow : 200 * Second
                 < OAuth2.now x + (OAuth2.ExpiresIn decoded - 5) * Second)
    by (by vm_compute).
  split; [exact Hne|]. split; [exact Hsp|]. split; [exact Hwell|].
  split; [exact Hdec|]. split; [exact Hfit|]. split; [exact Hnow|].
  exact (proj1 (proj1 (proj2 (cached_token_served_until_expiry tm "api" x
                                decoded ∅ (200 * Second) x' Hne Hsp Hwell
                                Hdec Hfit)) Hnow)).
Defined.

Lemma failed_authentication_changes_nothing_witness :
  let tm := OAuth2.NewOAuth2TokenManager None "id" "secret" "client_credentials" in
  let x := {| OAuth2.urlParse := Some ∅; OAuth2.newRequest := true;
              OAuth2.clientDo := true; OAuth2.ContentEncoding := "zstd";
              OAuth2.gzipNewReader := true; OAuth2.readAll := true;
              OAuth2.StatusCode := 200; OAuth2.unmarshal := None;
              OAuth2.now := 0 |} in
  (OAuth2.authenticate tm "api" x).1.1 <> None /\
  (OAuth2.authenticate tm "api" x).1.2 = tm.
Proof.
  intros tm x.
  assert (Herr : (OAuth2.authenticate tm "api" x).1.1 <> None)
    by (intros H; discriminate H).
  split; [exact Herr|].
  exact (proj1 (proj2 (failed_authentication_changes_nothing tm "api" x 0))
           Herr).
Defined.

Lemma token_request_values_witness :
  let tm :=
    OAuth2.WithOptionalParams
      (OAuth2.NewOAuth2TokenManager None "id" "secret" "client_credentials")
      {[ "scope" := "other" ]} in
  OAuth2.authParams tm !! "scope" = Some "other" /\
  OAuth2.authQuery tm "api" ∅ !! "scope" = Some ["other"].
Proof.
  intros tm.
  assert (Hk : OAuth2.authParams tm !! "scope" = Some "other") by reflexivity.
  split; [exact Hk|].
  exact (proj1 (token_request_values tm "api" ∅) "scope" "other" Hk).
Defined.

Lemma Reload_keeps_current_on_failure_witness :
  let cl := Config.NewViper nat None in
  let v := {| Config.readInConfig := Config.ReadError (Errs.Foreign "io" []);
              Config.unmarshal := inr 7%nat |} in
  subscribed (cl, ∅) /\
  exists res cl' chans',
    (Config.Reload cl v 0 ∅).1 = Some (res, cl', chans') /\
    Config.GetCurrent cl' = Config.GetCurrent cl.
Proof.
  intros cl v.
  assert (Hsub : subscribed (cl, (∅ : gmap positive (Config.Chan nat)))).
  { unfold subscribed. simpl. split; [apply NoDup_nil_2|]. split.
    - intros ch Hin. by apply elem_of_nil in Hin.
    - intros ch c Hc. by rewrite lookup_empty in Hc. }
  split; [exact Hsub|].
  destruct (Reload_keeps_current_on_failure cl v 0 ∅ Hsub)
    as (res & cl' & chans' & HR & _ & _ & _ & Hcase).
  destruct Hcase as (_ & Hcur & _).
  exists res, cl', chans'. split; [exact HR|exact Hcur].
Defined.

Lemma LoadWithValidation_keeps_rejected_config_witness :
  let cl := Config.NewViper Z None in
  let err := Errs.Foreign "port must not be 0" [] in
  let validate : Z -> option Errs.error :=
    fun port => if decide (port = 0) then Some err else None in
  let v := {| Config.readInConfig := Config.ReadOk;
              Config.unmarshal := inr 0 |} in
  Config.loadConfig v = inr 0 /\ validate 0 = Some err /\
  Config.GetCurrent (Config.LoadWithValidation cl (Some validate) v).1.2
  = Some 0.
Proof.
  intros cl err validate v.
  assert (Hload : Config.loadConfig v = inr 0) by reflexivity.
  assert (Hrej : validate 0 = Some err) by reflexivity.
  split; [exact Hload|]. split; [exact Hrej|].
  exact (proj1 (proj2 (LoadWithValidation_keeps_rejected_config cl validate v
                         0 err 0 ∅ Hload Hrej))).
Defined.

Lemma calls_never_panic_witness :
  let st : Config.Loader nat * gmap positive (Config.Chan nat) :=
    (Config.NewViper nat None, ∅) in
  let v := {| Config.readInConfig := Config.ReadOk;
              Config.unmarshal := inr 7%nat |} in
  let cs := [ CallSubscribe; CallReload v 0; CallUnsubscribe 1%positive;
              CallUnsubscribe 1%positive; CallStop; CallStop;
              CallReload v 1 ] in
  subscribed st /\
  exists st', calls cs st = Some st' /\ subscribed st'.
Proof.
  intros st v cs.
  assert (Hsub : subscribed st).
  { unfold subscribed. simpl. split; [apply NoDup_nil_2|]. split.
    - intros ch Hin. by apply elem_of_nil in Hin.
    - intros ch c Hc. by rewrite lookup_empty in Hc. }
  split; [exact Hsub|].
  destruct (proj2 (calls_never_panic cs st) Hsub) as (st' & Hcalls & Hsub' & _).
  exists st'. split; [exact Hcalls|exact Hsub'].
Defined.

Lemma answering_reload_error_marks_package_error_witness :
  let errorString : gmap positive (gmap string Errs.any) -> Errs.error -> string :=
    fun _ _ => "text" in
  let cl := Config.NewViper nat None in
  let ioerr := Errs.Foreign "io" [] in
  let v := {| Config.readInConfig := Config.ReadError ioerr;
              Config.unmarshal := inr 7%nat |} in
  let d : gmap string Errs.any :=
    {[ "contexto" := Errs.VString Config.cfgIfTag ]} in
  Config.readInConfig v = Config.ReadError ioerr /\
  Errs.asCollection ioerr = None /\
  subscribed (cl, ∅) /\
  Errs.detailsOf Config.initHeap Config.ErrConfigReloadFailed = Some d /\
  exists err chans',
    (Config.Reload cl v 0 ∅).1 = Some (Some (Errs.Domain err), cl, chans') /\
    Errs.detailsOf
      (Response.Error' errorString (Some (Errs.Domain err)) Config.initHeap).2
      Config.ErrConfigReloadFailed
    = Some (<["causa" := Errs.VString "text"]> d).
Proof.
  intros errorString cl ioerr v d.
  assert (Hread : Config.readInConfig v = Config.ReadError ioerr)
    by reflexivity.
  assert (Hcoll : Errs.asCollection ioerr = None) by reflexivity.
  assert (Hsub : subscribed (cl, (∅ : gmap positive (Config.Chan nat)))).
  { unfold subscribed. simpl. split; [apply NoDup_nil_2|]. split.
    - intros ch Hin. by apply elem_of_nil in Hin.
    - intros ch c Hc. by rewrite lookup_empty in Hc. }
  assert (Hd : Errs.detailsOf Config.initHeap Config.ErrConfigReloadFailed
               = Some d) by (by vm_compute).
  split; [exact Hread|]. split; [exact Hcoll|]. split; [exact Hsub|].
  split; [exact Hd|].
  destruct (proj2 (answering_reload_error_marks_package_error errorString
                     cl v 0 ∅ ioerr Config.initHeap d)
              Hread Hcoll Hsub Hd)
    as (err & chans' & HR & _ & _ & Hshown).
  exists err, chans'. split; [exact HR|exact Hshown].
Defined.
